(** * Grouped aggregation: the Grouper, the aggregate kernels and the two
    aggregate nodes of [arrow/compute/exec/aggregate_node.cc].

    The nodes are embedded from [aggregate_node.cc]: every member function
    becomes a computation in a small state-and-status monad over the
    node's fields, and the calls the node makes on its neighbours are
    recorded in a trace.  The collaborators whose code lives in other
    files (the Grouper, the kernels, the atomic counter, the thread
    indexer, the batch slicing) are modelled from the specification and
    marked as such.  The id comparison of the Grouper tests is embedded
    from [arrow/compute/kernels/hash_aggregate_test.cc]. *)

From Stdlib Require Import ZArith List String Ascii Bool Lia.
From stdpp Require Import base decidable option list numbers strings pretty sorting.
Import ListNotations.

Local Open Scope Z_scope.

(** ** Status and Result *)

Inductive StatusCode :=
| Invalid
| NotImplemented
| IndexError
| KeyError
| TypeError
| OutOfMemory.

Record Status := mkStatus { code : StatusCode; message : string }.

(** [Result<T>]: a value or a [Status].  The third outcome stands for the
    executions C++ leaves undefined (a null dereference, an index past the
    end of a vector, an integer division by zero). *)
Inductive Result (A : Type) :=
| Ok (a : A)
| Raise (s : Status)
| Undefined.
Arguments Ok {A} a.
Arguments Raise {A} s.
Arguments Undefined {A}.

Definition is_ok {A} (r : Result A) : bool :=
  match r with Ok _ => true | _ => false end.

Definition result_bind {A B} (r : Result A) (f : A -> Result B) : Result B :=
  match r with
  | Ok a => f a
  | Raise s => Raise s
  | Undefined => Undefined
  end.

(** [ARROW_ASSIGN_OR_RAISE] / [RETURN_NOT_OK] over plain results. *)
Notation "'let?' x ':=' r 'in' k" := (result_bind r (fun x => k))
  (at level 10, x name, r at level 100, k at level 200).

(** A [for] loop over a vector whose body may return early with a status. *)
Fixpoint result_mapM {A B} (f : A -> Result B) (l : list A) : Result (list B) :=
  match l with
  | [] => Ok []
  | x :: r =>
      let? y := f x in
      let? ys := result_mapM f r in
      Ok (y :: ys)
  end.

(** ** Types, columns and batches *)

(** The logical types of §3, without their parameters. *)
Inductive DataType :=
| null_type | boolean
| int8 | int16 | int32 | int64 | uint8 | uint16 | uint32 | uint64
| float16 | float32 | float64
| utf8 | binary | large_utf8 | large_binary | fixed_size_binary
| decimal128 | decimal256
| date32 | date64 | timestamp | duration | interval
| dictionary_utf8
| list_type | fixed_size_list | struct_type | union_type.

Record Field := field { field_name : string; field_type : DataType }.
Definition Schema := list Field.

(** A non-null cell value.  Floating-point values are kept as their bit
    pattern, which is what the Grouper compares. *)
Inductive Value :=
| Int64 (v : Z)
| Double (bits : Z)
| Boolean (b : bool)
| Utf8 (s : string).

#[export] Instance Value_eq_dec : EqDecision Value.
Proof. solve_decision. Defined.

(** A cell is a value or null. *)
Definition Cell := option Value.

(** A [Datum] is an array of cells or a scalar broadcast over the batch. *)
Inductive Datum :=
| ArrayDatum (cells : list Cell)
| ScalarDatum (c : Cell).

Module ExecBatch.

Record t := mk { values : list Datum; length : Z }.

(** The cell of column [d] at row [r]; a scalar has the same cell at
    every row. *)
Definition cell_at (d : Datum) (r : nat) : Cell :=
  match d with
  | ArrayDatum cells => default None (cells !! r)
  | ScalarDatum c => c
  end.

(** The cells of a column over [n] rows ("replicating that scalar to
    the batch length", §9). *)
Definition cells_of (n : nat) (d : Datum) : list Cell :=
  map (cell_at d) (seq 0 n).

(** The rows of a batch, each the tuple of its cells. *)
Definition rows (b : t) : list (list Cell) :=
  map (fun r => map (fun d => cell_at d r) (values b)) (seq 0 (Z.to_nat (length b))).

Definition slice_datum (offset len : Z) (d : Datum) : Datum :=
  match d with
  | ArrayDatum cells =>
      ArrayDatum (take (Z.to_nat len) (drop (Z.to_nat offset) cells))
  | ScalarDatum c => ScalarDatum c
  end.

(** Modelled from the spec: [ExecBatch::Slice] is declared outside the
    sources.  [Slice offset len] is the chunk of §4.4 step 4: the rows
    [offset, offset + len) of the batch, fewer where the batch ends. *)
Definition Slice (b : t) (offset len : Z) : t :=
  {| values := map (slice_datum offset len) (values b);
     length := Z.min len (length b - offset) |}.

End ExecBatch.

(** ** The Grouper *)

Module GrouperImpl.
Section GrouperImpl.
Context {K : Type} `{EqDecision K}.

(** Modelled from the spec: the Grouper ([arrow/compute/row/grouper.cc])
    is not among the sources.  Its state is the uniques table of §3, the
    distinct key tuples in id order; the group id of a key is its
    position in that table, and [num_groups] is the table's length.
    [K] is the type of key tuples (or of their encodings). *)
Definition t := list K.

Definition empty : t := [].

Definition num_groups (g : t) : nat := length g.

Definition GetUniques (g : t) : list K := g.

(** Modelled from the spec: the lookup of the hash table of §4.2, the id
    already assigned to [k], if any. *)
Definition find (g : t) (k : K) : option nat :=
  fst <$> list_find (fun k' => k' = k) g.

(** Modelled from the spec: §4.2 [consume] for one row.  A known key
    keeps its id, an unseen key gets the next id ("densely, starting from
    current [num_groups]"). *)
Definition consume_row (g : t) (k : K) : t * nat :=
  match find g k with
  | Some id => (g, id)
  | None => (g ++ [k], length g)
  end.

(** Modelled from the spec: §4.2 [consume(key_batch) → group_ids]; the
    rows are taken in positional order (§5). *)
Fixpoint Consume (g : t) (rows : list K) : t * list nat :=
  match rows with
  | [] => (g, [])
  | k :: rest =>
      let '(g1, id) := consume_row g k in
      let '(g2, ids) := Consume g1 rest in
      (g2, id :: ids)
  end.

(** A sequence of [consume] calls on one Grouper. *)
Fixpoint ConsumeAll (g : t) (batches : list (list K)) : t * list (list nat) :=
  match batches with
  | [] => (g, [])
  | b :: rest =>
      let '(g1, ids) := Consume g b in
      let '(g2, idss) := ConsumeAll g1 rest in
      (g2, ids :: idss)
  end.
End GrouperImpl.
Arguments t K : clear implicits.
End GrouperImpl.

(** The Grouper as the nodes use it, over the rows of a key batch. *)
Module Grouper.

Record t := mk { key_types : list DataType; table : GrouperImpl.t (list Cell) }.

Definition supported (ty : DataType) : bool :=
  match ty with
  | list_type | fixed_size_list | struct_type | union_type => false
  | _ => true
  end.

(** Modelled from the spec: §4.2 [make(descriptors)] "rejects
    unsupported key column types enumerated in §3". *)
Definition Make (descrs : list DataType) : Result t :=
  if forallb supported descrs
  then Ok {| key_types := descrs; table := GrouperImpl.empty |}
  else Raise (mkStatus NotImplemented "Keys of unsupported type").

Definition num_groups (g : t) : nat := GrouperImpl.num_groups (table g).

(** Modelled from the spec: §4.2 [consume(key_batch) → group_ids]. *)
Definition Consume (g : t) (key_batch : ExecBatch.t) : Result (t * list nat) :=
  let '(tbl, ids) := GrouperImpl.Consume (table g) (ExecBatch.rows key_batch) in
  Ok ({| key_types := key_types g; table := tbl |}, ids).

(** Modelled from the spec: §4.2 [get_uniques() → key_batch], "the
    unique keys in id order; length equals [num_groups]", one column per
    key type. *)
Definition GetUniques (g : t) : Result ExecBatch.t :=
  Ok {| ExecBatch.values :=
          map (fun c => ArrayDatum (map (fun row => default None (row !! c)) (table g)))
              (seq 0 (length (key_types g)));
        ExecBatch.length := Z.of_nat (length (table g)) |}.

End Grouper.

(** ** The key encoder *)

Module KeyEncoder.

(** Bytes are integers in [0, 256). *)
Definition byte := Z.

(** The [w] bytes of a bit pattern, least significant first (the native
    byte pattern of a little-endian cell). *)
Fixpoint le_bytes (w : nat) (bits : Z) : list byte :=
  match w with
  | O => []
  | S w' => (bits mod 256) :: le_bytes w' (bits / 256)
  end.

Definition kValidByte : byte := 0.
Definition kNullByte : byte := 1.

(** Modelled from the spec: the key encoder is not among the sources.
    §4.1: a fixed-width cell contributes "its native byte pattern
    preceded by a 1-byte null flag"; a null cell has the null flag and a
    zero payload, so that any two nulls are equal. *)
Definition encode_fixed (w : nat) (cell : option Z) : list byte :=
  match cell with
  | Some bits => kValidByte :: le_bytes w bits
  | None => kNullByte :: replicate w 0
  end.

End KeyEncoder.

(** ** IEEE 754 bit patterns *)

Module Float.

(** A binary floating-point format: exponent and fraction widths. *)
Record format := { ebits : Z; fbits : Z }.
Definition binary16 := {| ebits := 5; fbits := 10 |}.
Definition binary32 := {| ebits := 8; fbits := 23 |}.
Definition binary64 := {| ebits := 11; fbits := 52 |}.

(** The formats of the key types float16, float32 and float64 ("floats
    of widths 16/32/64", §3). *)
Definition formats : list format := [binary16; binary32; binary64].

(** The width of a cell in bytes. *)
Definition width (f : format) : nat := Z.to_nat ((1 + ebits f + fbits f) / 8).

(** The bit patterns of the signed zeros, of the infinities and of the
    quiet NaN with an empty payload. *)
Definition pos_zero (f : format) : Z := 0.
Definition neg_zero (f : format) : Z := Z.shiftl 1 (ebits f + fbits f).
Definition pos_inf (f : format) : Z := Z.shiftl (Z.ones (ebits f)) (fbits f).
Definition neg_inf (f : format) : Z := Z.lor (neg_zero f) (pos_inf f).
Definition nan (f : format) : Z := Z.lor (pos_inf f) (Z.shiftl 1 (fbits f - 1)).

Definition sign_of (f : format) (bits : Z) : bool :=
  Z.testbit bits (ebits f + fbits f).
Definition exponent_of (f : format) (bits : Z) : Z :=
  Z.land (Z.shiftr bits (fbits f)) (Z.ones (ebits f)).
Definition fraction_of (f : format) (bits : Z) : Z :=
  Z.land bits (Z.ones (fbits f)).

Definition is_nan (f : format) (bits : Z) : bool :=
  (exponent_of f bits =? Z.ones (ebits f)) && negb (fraction_of f bits =? 0).

(** The value a bit pattern denotes: a signed zero, an infinity, a NaN,
    or the finite number [± m * 2^e] with [m] odd. *)
Inductive value :=
| Zero (negative : bool)
| Infinity (negative : bool)
| NaN
| Finite (negative : bool) (m : Z) (e : Z).

Fixpoint normalise (fuel : nat) (m e : Z) : Z * Z :=
  match fuel with
  | O => (m, e)
  | S fuel' => if Z.even m then normalise fuel' (m / 2) (e + 1) else (m, e)
  end.

Definition decode (f : format) (bits : Z) : value :=
  let s := sign_of f bits in
  let e := exponent_of f bits in
  let m := fraction_of f bits in
  let bias := Z.ones (ebits f - 1) in
  if e =? Z.ones (ebits f) then (if m =? 0 then Infinity s else NaN)
  else if (e =? 0) && (m =? 0) then Zero s
  else
    let '(m', e') :=
      if e =? 0 then normalise (Z.to_nat (fbits f)) m (1 - bias - fbits f)
      else normalise (Z.to_nat (fbits f)) (Z.shiftl 1 (fbits f) + m) (e - bias - fbits f) in
    Finite s m' e'.

(** The float32 keys of [TEST(Grouper, FloatingPointKey)]. *)
Definition f32_pos_zero : Z := 0x00000000.
Definition f32_neg_zero : Z := 0x80000000.
Definition f32_pos_inf : Z := 0x7F800000.
Definition f32_neg_inf : Z := 0xFF800000.
Definition f32_nan : Z := 0x7FC00000.

End Float.

(** ** Dictionary-encoded keys *)

Module DictGrouper.

(** A dictionary-encoded key column: the dictionary and one index cell
    per row (a null index is a null cell). *)
Record DictionaryArray := {
  dictionary : list (option string);
  indices : list (option Z)
}.

(** Modelled from the spec: the dictionary key encoder is not among the
    sources.  §4.1: the dictionaries of all batches submitted to a
    Grouper must be identical, so the encoder keeps the dictionary of the
    first batch; rows are then grouped by their index cell. *)
Record t := {
  dictionary_ : option (list (option string));
  grouper : GrouperImpl.t (option Z)
}.

Definition Make : t := {| dictionary_ := None; grouper := GrouperImpl.empty |}.

(** Modelled from the spec: §4.1, "if a second batch arrives with a
    different dictionary, consumption fails with
    NotImplemented("Unifying differing dictionaries")". *)
Definition Consume (g : t) (batch : DictionaryArray) : Result (t * list nat) :=
  let? dict :=
    match dictionary_ g with
    | Some d =>
        if decide (d = dictionary batch) then Ok d
        else Raise (mkStatus NotImplemented "Unifying differing dictionaries")
    | None => Ok (dictionary batch)
    end in
  let '(g', ids) := GrouperImpl.Consume (grouper g) (indices batch) in
  Ok ({| dictionary_ := Some dict; grouper := g' |}, ids).

(** A sequence of [Consume] calls; the first failure ends it. *)
Fixpoint ConsumeAll (g : t) (batches : list DictionaryArray)
  : Result (t * list (list nat)) :=
  match batches with
  | [] => Ok (g, [])
  | b :: rest =>
      let? r := Consume g b in
      let? r' := ConsumeAll (fst r) rest in
      Ok (fst r', snd r :: snd r')
  end.

End DictGrouper.

(** ** MakeGroupings *)

(** The row positions, counted from [pos], at which [ids] holds [id]. *)
Fixpoint positions_from (pos : nat) (id : nat) (ids : list (option nat)) : list nat :=
  match ids with
  | [] => []
  | x :: rest =>
      if decide (x = Some id) then pos :: positions_from (S pos) id rest
      else positions_from (S pos) id rest
  end.

Definition null_count {A} (cells : list (option A)) : nat :=
  length (filter (fun c => c = None) cells).

(** Modelled from the spec: [Grouper::MakeGroupings] is not among the
    sources.  §4.2: "a list column of length [num_groups] whose i-th
    element is the ascending row-index positions in [ids] that equal [i]";
    it fails "if any id is null". *)
Definition MakeGroupings (ids : list (option nat)) (num_groups : nat)
  : Result (list (list nat)) :=
  if decide (null_count ids = 0%nat) then
    Ok (map (fun id => positions_from 0 id ids) (seq 0 num_groups))
  else Raise (mkStatus Invalid "MakeGroupings with null ids").

(** ** Aggregate kernels *)

(** Modelled from the spec: the kernel interface ([kernel.h]) is not among
    the sources.  §4.3: a hash-aggregate kernel has [init], [resize],
    [consume], [merge] and [finalize]; every one of them returns a status.
    [KS] is the type of kernel states; options and input type are bound
    when the kernel is chosen. *)
Record HashAggregateKernel (KS : Type) := {
  hash_init : Result KS;
  hash_resize : KS -> nat -> Result KS;
  hash_consume : KS -> list Cell -> list nat -> Result KS;
  hash_merge : KS -> KS -> list nat -> Result KS;
  hash_finalize : KS -> Result Datum
}.
Arguments hash_init {KS}.
Arguments hash_resize {KS}.
Arguments hash_consume {KS}.
Arguments hash_merge {KS}.
Arguments hash_finalize {KS}.

(** Modelled from the spec: [internal::InitKernels] ([aggregate.cc]) is not
    among the sources; it makes one fresh state per kernel. *)
Definition InitKernels {KS} (kernels : list (HashAggregateKernel KS)) : Result (list KS) :=
  result_mapM hash_init kernels.

(** Modelled from the spec: [ExecBatch::Make] is declared outside the
    sources.  The value column and the group-id column of the same rows
    (§4.3 [consume]) make a batch when they have the same length; a scalar
    is broadcast. *)
Definition MakeAggBatch (d : Datum) (ids : list nat) : Result (list Cell * list nat) :=
  match d with
  | ArrayDatum cells =>
      if decide (length cells = length ids) then Ok (cells, ids)
      else Raise (mkStatus Invalid "Arrays used to construct an ExecBatch must have equal length")
  | ScalarDatum c => Ok (replicate (length ids) c, ids)
  end.

Inductive CountMode := ONLY_VALID | ONLY_NULL | ALL.

Module HashCount.

(** Per group: (valid_count, null_count). *)
Definition state := list (Z * Z).

Definition bump (c : Cell) (s : Z * Z) : Z * Z :=
  match c with
  | Some _ => (fst s + 1, snd s)
  | None => (fst s, snd s + 1)
  end.

(** [resize]: new slots start at the identity (0, 0). *)
Definition resize (s : state) (n : nat) : Result state :=
  Ok (s ++ replicate (n - length s) (0, 0)).

(** [consume]: each row increments one side of its group's pair.  A
    group id past the state is a write out of bounds. *)
Fixpoint consume (s : state) (cells : list Cell) (ids : list nat) : Result state :=
  match cells, ids with
  | c :: cells', g :: ids' =>
      match s !! g with
      | Some p => consume (<[g := bump c p]> s) cells' ids'
      | None => Undefined
      end
  | _, _ => Ok s
  end.

(** [merge]: group [j] of the source is added to group
    [transposition[j]] of the destination. *)
Fixpoint merge (dst src : state) (transposition : list nat) : Result state :=
  match src, transposition with
  | p :: src', g :: tr' =>
      match dst !! g with
      | Some q => merge (<[g := (fst q + fst p, snd q + snd p)]> dst) src' tr'
      | None => Undefined
      end
  | _, _ => Ok dst
  end.

Definition pick (mode : CountMode) (p : Z * Z) : Z :=
  match mode with
  | ONLY_VALID => fst p
  | ONLY_NULL => snd p
  | ALL => fst p + snd p
  end.

Definition finalize (mode : CountMode) (s : state) : Result Datum :=
  Ok (ArrayDatum (map (fun p => Some (Int64 (pick mode p))) s)).

(** Modelled from the spec: the [hash_count] kernel ([hash_aggregate.cc])
    is not among the sources.  §4.3: state "(valid_count, null_count)",
    update "inc one side per row", finalize "pick per mode". *)
Definition kernel (mode : CountMode) : HashAggregateKernel state :=
  {| hash_init := Ok [];
     hash_resize := resize;
     hash_consume := consume;
     hash_merge := merge;
     hash_finalize := finalize mode |}.

End HashCount.

(** ** The atomic counter and the thread indexer *)

Module AtomicCounter.

(** Modelled from the spec: [AtomicCounter] ([exec/util.h]) is not among
    the sources.  §4.4 and §5: a count of arrivals, an expected total
    that is recorded later, and a one-shot completion: exactly one of
    [Increment], [SetTotal] and [Cancel] returns true, once. *)
Record t := mk { count_ : Z; total_ : option Z; complete_ : bool }.

Definition init : t := {| count_ := 0; total_ := None; complete_ := false |}.

Definition total (c : t) : option Z := total_ c.

Definition DoneOnce (c : t) : bool * t :=
  (negb (complete_ c), {| count_ := count_ c; total_ := total_ c; complete_ := true |}).

Definition Increment (c : t) : bool * t :=
  let c' := {| count_ := count_ c + 1; total_ := total_ c; complete_ := complete_ c |} in
  if decide (Some (count_ c') = total_ c') then DoneOnce c' else (false, c').

Definition SetTotal (c : t) (n : Z) : bool * t :=
  let c' := {| count_ := count_ c; total_ := Some n; complete_ := complete_ c |} in
  if decide (count_ c' = n) then DoneOnce c' else (false, c').

Definition Cancel (c : t) : bool * t := DoneOnce c.

End AtomicCounter.

Module ThreadIndexer.

(** Modelled from the spec: [ThreadIndexer] ([exec/util.h]) is not among
    the sources.  §5: "a monotonic thread-index function assigns each
    worker a slot": the threads seen so far, in order of their first
    call; a thread's index is its position. *)
Definition t := list nat.

Definition init : t := [].

(** Modelled from the spec: the call of the indexer by the thread
    [thread_id]. *)
Definition index (ix : t) (thread_id : nat) : nat * t :=
  match list_find (fun id => id = thread_id) ix with
  | Some (i, _) => (i, ix)
  | None => (length ix, ix ++ [thread_id])
  end.

End ThreadIndexer.

(** ** The node monad *)

(** A member function of a node: it reads and writes the node's fields and
    returns a [Result].  The fields keep what was written before a
    failure, as in the source. *)
Definition M (St A : Type) : Type := St -> Result A * St.

#[export] Instance M_ret {St} : MRet (M St) := fun A a st => (Ok a, st).

#[export] Instance M_bind {St} : MBind (M St) := fun A B f c st =>
  match c st with
  | (Ok a, st') => f a st'
  | (Raise s, st') => (Raise s, st')
  | (Undefined, st') => (Undefined, st')
  end.

Definition gets {St A} (f : St -> A) : M St A := fun st => (Ok (f st), st).
Definition modify {St} (f : St -> St) : M St unit := fun st => (Ok tt, f st).
Definition lift {St A} (r : Result A) : M St A := fun st => (r, st).

(** An element of a vector or the target of a pointer; a missing one is
    undefined behaviour. *)
Definition deref {A} (o : option A) : Result A :=
  match o with Some a => Ok a | None => Undefined end.

(** A loop whose body may leave with a status. *)
Fixpoint forM_ {St A} (l : list A) (body : A -> M St unit) : M St unit :=
  match l with
  | [] => mret tt
  | x :: rest => body x ;; forM_ rest body
  end.

(** ** Execution context and neighbours *)

(** [exec_chunksize] is an [int64_t]; [executor] says whether a thread pool
    is configured; [thread_capacity] is [ThreadIndexer::Capacity()].
    [Executor::Spawn] is declared outside the sources and returns a
    [Status]: [executor_Spawn i] is the status with which the pool answers
    when it is handed the task of chunk [i] (a pool may refuse a task, as
    one that is shutting down does). *)
Record ExecContext := {
  exec_chunksize : Z;
  executor : bool;
  executor_Spawn : Z -> Result unit;
  thread_capacity : nat
}.

(** The calls a node makes on its output [outputs_[0]] and on its input
    [inputs_[0]], in the order it makes them. *)
Inductive Call :=
| Output_InputReceived (batch : ExecBatch.t)
| Output_InputFinished (total_batches : Z)
| Output_ErrorReceived (error : Status)
| Input_StopProducing
| Input_PauseProducing (counter : Z)
| Input_ResumeProducing (counter : Z).

(** No failure was forwarded downstream. *)
Definition no_error (calls : list Call) : bool :=
  forallb (fun c => match c with Output_ErrorReceived _ => false | _ => true end) calls.

(** The batches delivered downstream, in order of delivery. *)
Definition delivered (calls : list Call) : list ExecBatch.t :=
  omap (fun c => match c with Output_InputReceived b => Some b | _ => None end) calls.

(** [static_cast<int>] of a 64-bit value: reduction to 32 bits, two's
    complement. *)
Definition to_int (z : Z) : Z := (z + 2 ^ 31) mod 2 ^ 32 - 2 ^ 31.

(** Modelled from the spec: [bit_util::CeilDiv] is declared outside the
    sources.  It gives the chunk count of §4.4 step 4, the quotient
    rounded up; an empty result has zero chunks, and a non-empty one has
    no chunk count for a divisor of zero (an integer division by zero). *)
Definition CeilDiv (value divisor : Z) : Result Z :=
  if value =? 0 then Ok 0
  else if divisor =? 0 then Undefined
  else Ok (1 + (value - 1) ÷ divisor).

(** ** GroupByNode *)

Module GroupByNode.
Section GroupByNode.
Context {KS : Type}.

Record ThreadLocalState := {
  grouper : option Grouper.t;
  agg_states : list (option KS)
}.

(** The fields of the node, the resolution of its [finished_] future, the
    tasks handed to the executor that have not run yet ([spawned]), and
    the calls made on the neighbours ([calls]). *)
Record t := mk {
  ctx_ : ExecContext;
  input_schema : Schema;
  key_field_ids_ : list nat;
  agg_src_field_ids_ : list nat;
  agg_kernels_ : list (HashAggregateKernel KS);
  get_thread_index_ : ThreadIndexer.t;
  input_counter_ : AtomicCounter.t;
  output_counter_ : AtomicCounter.t;
  local_states_ : list ThreadLocalState;
  out_data_ : ExecBatch.t;
  finished_ : bool;
  spawned : list Z;
  calls : list Call
}.

Definition set_get_thread_index_ (x : ThreadIndexer.t) (n : t) : t :=
  mk (ctx_ n) (input_schema n) (key_field_ids_ n) (agg_src_field_ids_ n) (agg_kernels_ n)
     x (input_counter_ n) (output_counter_ n) (local_states_ n) (out_data_ n)
     (finished_ n) (spawned n) (calls n).
Definition set_input_counter_ (x : AtomicCounter.t) (n : t) : t :=
  mk (ctx_ n) (input_schema n) (key_field_ids_ n) (agg_src_field_ids_ n) (agg_kernels_ n)
     (get_thread_index_ n) x (output_counter_ n) (local_states_ n) (out_data_ n)
     (finished_ n) (spawned n) (calls n).
Definition set_output_counter_ (x : AtomicCounter.t) (n : t) : t :=
  mk (ctx_ n) (input_schema n) (key_field_ids_ n) (agg_src_field_ids_ n) (agg_kernels_ n)
     (get_thread_index_ n) (input_counter_ n) x (local_states_ n) (out_data_ n)
     (finished_ n) (spawned n) (calls n).
Definition set_local_states_ (x : list ThreadLocalState) (n : t) : t :=
  mk (ctx_ n) (input_schema n) (key_field_ids_ n) (agg_src_field_ids_ n) (agg_kernels_ n)
     (get_thread_index_ n) (input_counter_ n) (output_counter_ n) x (out_data_ n)
     (finished_ n) (spawned n) (calls n).
Definition set_out_data_ (x : ExecBatch.t) (n : t) : t :=
  mk (ctx_ n) (input_schema n) (key_field_ids_ n) (agg_src_field_ids_ n) (agg_kernels_ n)
     (get_thread_index_ n) (input_counter_ n) (output_counter_ n) (local_states_ n) x
     (finished_ n) (spawned n) (calls n).
Definition set_finished_ (x : bool) (n : t) : t :=
  mk (ctx_ n) (input_schema n) (key_field_ids_ n) (agg_src_field_ids_ n) (agg_kernels_ n)
     (get_thread_index_ n) (input_counter_ n) (output_counter_ n) (local_states_ n)
     (out_data_ n) x (spawned n) (calls n).
Definition set_spawned (x : list Z) (n : t) : t :=
  mk (ctx_ n) (input_schema n) (key_field_ids_ n) (agg_src_field_ids_ n) (agg_kernels_ n)
     (get_thread_index_ n) (input_counter_ n) (output_counter_ n) (local_states_ n)
     (out_data_ n) (finished_ n) x (calls n).
Definition set_calls (x : list Call) (n : t) : t :=
  mk (ctx_ n) (input_schema n) (key_field_ids_ n) (agg_src_field_ids_ n) (agg_kernels_ n)
     (get_thread_index_ n) (input_counter_ n) (output_counter_ n) (local_states_ n)
     (out_data_ n) (finished_ n) (spawned n) x.

(** The node as its constructor leaves it. *)
Definition construct (ctx : ExecContext) (schema : Schema)
    (key_field_ids agg_src_field_ids : list nat)
    (agg_kernels : list (HashAggregateKernel KS)) : t :=
  {| ctx_ := ctx; input_schema := schema;
     key_field_ids_ := key_field_ids; agg_src_field_ids_ := agg_src_field_ids;
     agg_kernels_ := agg_kernels;
     get_thread_index_ := ThreadIndexer.init;
     input_counter_ := AtomicCounter.init; output_counter_ := AtomicCounter.init;
     local_states_ := [];
     out_data_ := ExecBatch.mk [] 0;
     finished_ := false; spawned := []; calls := [] |}.

(** A call on a neighbour. *)
Definition call (c : Call) : M t unit :=
  modify (fun n => set_calls (calls n ++ [c]) n).

Definition MarkFinished : M t unit := modify (set_finished_ true).

(** Modelled from the spec: [ExecNode::ErrorIfNotOk] is declared outside
    the sources.  §7: a failure is "forwarded downstream via [on_error]";
    the result says whether there was one. *)
Definition ErrorIfNotOk (c : M t unit) : M t bool := fun n =>
  match c n with
  | (Ok _, n') => (Ok false, n')
  | (Raise s, n') => (Ok true, set_calls (calls n' ++ [Output_ErrorReceived s]) n')
  | (Undefined, n') => (Undefined, n')
  end.

(** The operations on the two counters and on the thread indexer, as
    steps of the node. *)
Definition input_counter_Increment : M t bool := fun n =>
  let '(b, c) := AtomicCounter.Increment (input_counter_ n) in
  (Ok b, set_input_counter_ c n).
Definition input_counter_SetTotal (total : Z) : M t bool := fun n =>
  let '(b, c) := AtomicCounter.SetTotal (input_counter_ n) total in
  (Ok b, set_input_counter_ c n).
Definition input_counter_Cancel : M t bool := fun n =>
  let '(b, c) := AtomicCounter.Cancel (input_counter_ n) in
  (Ok b, set_input_counter_ c n).
Definition output_counter_Increment : M t bool := fun n =>
  let '(b, c) := AtomicCounter.Increment (output_counter_ n) in
  (Ok b, set_output_counter_ c n).
Definition output_counter_SetTotal (total : Z) : M t bool := fun n =>
  let '(b, c) := AtomicCounter.SetTotal (output_counter_ n) total in
  (Ok b, set_output_counter_ c n).
Definition output_counter_Cancel : M t bool := fun n =>
  let '(b, c) := AtomicCounter.Cancel (output_counter_ n) in
  (Ok b, set_output_counter_ c n).
Definition thread_index (thread_id : nat) : M t nat := fun n =>
  let '(i, ix) := ThreadIndexer.index (get_thread_index_ n) thread_id in
  (Ok i, set_get_thread_index_ ix n).

(** [&local_states_[i]] read and written. *)
Definition local_state (i : nat) : M t ThreadLocalState :=
  states ← gets local_states_; lift (deref (states !! i)).
Definition set_local_state (i : nat) (s : ThreadLocalState) : M t unit :=
  modify (fun n => set_local_states_ (<[i := s]> (local_states_ n)) n).
Definition set_grouper (i : nat) (g : option Grouper.t) : M t unit :=
  s ← local_state i;
  set_local_state i {| grouper := g; agg_states := agg_states s |}.
Definition set_agg_states (i : nat) (a : list (option KS)) : M t unit :=
  s ← local_state i;
  set_local_state i {| grouper := grouper s; agg_states := a |}.
Definition set_agg_state (i k : nat) (a : option KS) : M t unit :=
  s ← local_state i;
  set_agg_states i (<[k := a]> (agg_states s)).
(** [*state->grouper] and [*state->agg_states[k]]. *)
Definition the_grouper (i : nat) : M t Grouper.t :=
  s ← local_state i; lift (deref (grouper s)).
Definition the_agg_state (i k : nat) : M t KS :=
  s ← local_state i;
  o ← lift (deref (agg_states s !! k));
  lift (deref o).

Definition output_batch_size (n : t) : Z :=
  let result := to_int (exec_chunksize (ctx_ n)) in
  if result <? 0 then 32 * 1024 else result.

Definition InitLocalStateIfNeeded (i : nat) : M t unit :=
  schema ← gets input_schema;
  state ← local_state i;
  match grouper state with
  | Some _ => mret tt
  | None =>
      key_field_ids ← gets key_field_ids_;
      key_descrs ← lift (result_mapM
        (fun id => let? f := deref (schema !! id) in Ok (field_type f)) key_field_ids);
      g ← lift (Grouper.Make key_descrs);
      set_grouper i (Some g);;
      agg_src_field_ids ← gets agg_src_field_ids_;
      lift (result_mapM (fun id => deref (schema !! id)) agg_src_field_ids);;
      kernels ← gets agg_kernels_;
      states ← lift (InitKernels kernels);
      set_agg_states i (Some <$> states)
  end.

(** The body of the kernel loop of [Consume]: resize, then consume. *)
Definition consume_kernel (i : nat) (batch : ExecBatch.t) (id_batch : list nat)
    (k : nat) : M t unit :=
  kernel ← (kernels ← gets agg_kernels_; lift (deref (kernels !! k)));
  src ← (ids ← gets agg_src_field_ids_; lift (deref (ids !! k)));
  column ← lift (deref (ExecBatch.values batch !! src));
  agg_batch ← lift (MakeAggBatch column id_batch);
  g ← the_grouper i;
  s ← the_agg_state i k;
  s1 ← lift (hash_resize kernel s (Grouper.num_groups g));
  set_agg_state i k (Some s1);;
  s2 ← lift (hash_consume kernel s1 (fst agg_batch) (snd agg_batch));
  set_agg_state i k (Some s2).

Definition Consume (thread_id : nat) (batch : ExecBatch.t) : M t unit :=
  thread_index ← thread_index thread_id;
  size ← gets (fun n => length (local_states_ n));
  if decide (size ≤ thread_index)%nat then
    lift (Raise (mkStatus IndexError
      ("thread index " +:+ pretty thread_index +:+ " is out of range [0, "
       +:+ pretty size +:+ ")")))
  else
    InitLocalStateIfNeeded thread_index;;
    (* Create a batch with key columns *)
    key_field_ids ← gets key_field_ids_;
    keys ← lift (result_mapM (fun id => deref (ExecBatch.values batch !! id)) key_field_ids);
    let key_batch := ExecBatch.mk keys (ExecBatch.length batch) in
    (* Create a batch with group ids *)
    g ← the_grouper thread_index;
    r ← lift (Grouper.Consume g key_batch);
    set_grouper thread_index (Some (fst r));;
    let id_batch := snd r in
    (* Execute aggregate kernels *)
    kernels ← gets agg_kernels_;
    forM_ (seq 0 (length kernels)) (consume_kernel thread_index batch id_batch).

(** The body of the kernel loop of [Merge]: partition [i] into the
    leader. *)
Definition merge_kernel (i : nat) (transposition : list nat) (k : nat) : M t unit :=
  kernel ← (kernels ← gets agg_kernels_; lift (deref (kernels !! k)));
  s0 ← the_agg_state 0 k;
  g0 ← the_grouper 0;
  s1 ← lift (hash_resize kernel s0 (Grouper.num_groups g0));
  set_agg_state 0 k (Some s1);;
  other ← the_agg_state i k;
  s2 ← lift (hash_merge kernel s1 other transposition);
  set_agg_state 0 k (Some s2);;
  set_agg_state i k None.

Definition merge_state (i : nat) : M t unit :=
  state ← local_state i;
  match grouper state with
  | None => mret tt
  | Some g =>
      other_keys ← lift (Grouper.GetUniques g);
      g0 ← the_grouper 0;
      r ← lift (Grouper.Consume g0 other_keys);
      set_grouper 0 (Some (fst r));;
      set_grouper i None;;
      kernels ← gets agg_kernels_;
      forM_ (seq 0 (length kernels)) (merge_kernel i (snd r))
  end.

Definition Merge : M t unit :=
  size ← gets (fun n => length (local_states_ n));
  forM_ (seq 1 (size - 1)) merge_state.

Definition finalize_kernel (k : nat) : M t Datum :=
  kernel ← (kernels ← gets agg_kernels_; lift (deref (kernels !! k)));
  s ← the_agg_state 0 k;
  column ← lift (hash_finalize kernel s);
  set_agg_state 0 k None;;
  mret column.

(** The loop of [Finalize] over the kernels, collecting the columns. *)
Fixpoint finalize_kernels (ks : list nat) : M t (list Datum) :=
  match ks with
  | [] => mret []
  | k :: rest =>
      column ← finalize_kernel k;
      columns ← finalize_kernels rest;
      mret (column :: columns)
  end.

Definition Finalize : M t ExecBatch.t :=
  (* If we never got any batches, then state won't have been initialized *)
  InitLocalStateIfNeeded 0;;
  g ← the_grouper 0;
  kernels ← gets agg_kernels_;
  (* Aggregate fields come before key fields *)
  agg_columns ← finalize_kernels (seq 0 (length kernels));
  out_keys ← lift (Grouper.GetUniques g);
  let out_data :=
    ExecBatch.mk (agg_columns ++ ExecBatch.values out_keys)
                 (Z.of_nat (Grouper.num_groups g)) in
  set_grouper 0 None;;
  batch_size ← gets output_batch_size;
  num ← lift (CeilDiv (ExecBatch.length out_data) batch_size);
  done ← output_counter_SetTotal (to_int num);
  (if done : bool then MarkFinished (* out_data.length == 0 *) else mret tt);;
  mret out_data.

Definition OutputNthBatch (n : Z) : M t unit :=
  finished ← gets finished_;
  (* bail if StopProducing was called *)
  if finished : bool then mret tt
  else
    batch_size ← gets output_batch_size;
    out_data ← gets out_data_;
    call (Output_InputReceived (ExecBatch.Slice out_data (batch_size * n) batch_size));;
    done ← output_counter_Increment;
    if done : bool then MarkFinished else mret tt.

(** [executor->Spawn]: the task is handed to the pool.  A pool that takes
    the task runs it later; a pool that refuses it answers with a status
    that is not OK, and the task never runs. *)
Definition Spawn (i : Z) : M t unit :=
  spawn ← gets (fun n => executor_Spawn (ctx_ n));
  lift (spawn i);;
  modify (fun n => set_spawned (spawned n ++ [i]) n).

(** The emission loop of [OutputResult] over [i = 0 .. ]. *)
Fixpoint output_loop (has_executor : bool) (batches : list Z) : M t unit :=
  match batches with
  | [] => mret tt
  | i :: rest =>
      if has_executor then
        finished ← gets finished_;
        (* bail if StopProducing was called *)
        if finished : bool then mret tt
        else Spawn i;; output_loop has_executor rest
      else OutputNthBatch i;; output_loop has_executor rest
  end.

Definition OutputResult : M t unit :=
  Merge;;
  out_data ← Finalize;
  modify (set_out_data_ out_data);;
  total ← gets (fun n => AtomicCounter.total (output_counter_ n));
  num_output_batches ← lift (deref total);
  call (Output_InputFinished num_output_batches);;
  has_executor ← gets (fun n => executor (ctx_ n));
  output_loop has_executor (Z.of_nat <$> seq 0 (Z.to_nat num_output_batches)).

Definition InputReceived (thread_id : nat) (batch : ExecBatch.t) : M t unit :=
  finished ← gets finished_;
  (* bail if StopProducing was called *)
  if finished : bool then mret tt
  else
    failed ← ErrorIfNotOk (Consume thread_id batch);
    if failed : bool then mret tt
    else
      done ← input_counter_Increment;
      if done : bool then ErrorIfNotOk OutputResult;; mret tt else mret tt.

Definition ErrorReceived (error : Status) : M t unit :=
  call (Output_ErrorReceived error).

Definition InputFinished (total_batches : Z) : M t unit :=
  finished ← gets finished_;
  (* bail if StopProducing was called *)
  if finished : bool then mret tt
  else
    done ← input_counter_SetTotal total_batches;
    if done : bool then ErrorIfNotOk OutputResult;; mret tt else mret tt.

Definition StartProducing : M t unit :=
  modify (set_finished_ false);;
  capacity ← gets (fun n => thread_capacity (ctx_ n));
  modify (fun n => set_local_states_
    (take capacity (local_states_ n)
     ++ replicate (capacity - length (local_states_ n))
          {| grouper := None; agg_states := [] |}) n).

Definition StopProducing : M t unit :=
  input_counter_Cancel;;
  done ← output_counter_Cancel;
  (if done : bool then MarkFinished else mret tt);;
  call Input_StopProducing.

(** What can happen to a started node: its input delivers a batch on
    some thread, declares its total or reports an error; its output
    stops it; the thread pool runs the task that waits at position [k]
    of the spawned ones. *)
Inductive Event :=
| EvInputReceived (thread_id : nat) (batch : ExecBatch.t)
| EvInputFinished (total_batches : Z)
| EvErrorReceived (error : Status)
| EvStopProducing
| EvRunTask (k : nat).

Definition RunTask (k : nat) : M t unit :=
  tasks ← gets spawned;
  match tasks !! k with
  | Some i => modify (set_spawned (delete k tasks));; OutputNthBatch i
  | None => mret tt
  end.

Definition step (e : Event) : M t unit :=
  match e with
  | EvInputReceived thread_id batch => InputReceived thread_id batch
  | EvInputFinished total_batches => InputFinished total_batches
  | EvErrorReceived error => ErrorReceived error
  | EvStopProducing => StopProducing
  | EvRunTask k => RunTask k
  end.

Definition run (events : list Event) : M t unit := forM_ events step.

End GroupByNode.
Arguments t KS : clear implicits.
Arguments ThreadLocalState KS : clear implicits.
End GroupByNode.

(** ** ScalarAggregateNode *)

Inductive FunctionKind := SCALAR | VECTOR | SCALAR_AGGREGATE | HASH_AGGREGATE | META.

#[export] Instance FunctionKind_eq_dec : EqDecision FunctionKind.
Proof. solve_decision. Defined.

(** Modelled from the spec: [FieldRef::FindOne] is declared outside the
    sources.  §7: a "target field reference that does not resolve uniquely
    in the input schema" is [Invalid]; a reference that does resolves to
    the path of its field.  References are by field name. *)
Definition FindOne (ref : string) (schema : Schema) : Result (list nat) :=
  match filter (fun i => field_name <$> schema !! i = Some ref) (seq 0 (length schema)) with
  | [i] => Ok [i]
  | [] => Raise (mkStatus Invalid ("No match for FieldRef " +:+ ref))
  | _ => Raise (mkStatus Invalid ("Multiple matches for FieldRef " +:+ ref))
  end.

(** Modelled from the spec: [ValidateExecNodeInputs] is declared outside
    the sources; an aggregate node has exactly [expected] inputs (§2). *)
Definition ValidateExecNodeInputs {A} (inputs : list A) (expected : nat)
    (kind_name : string) : Result unit :=
  if decide (length inputs = expected) then Ok tt
  else Raise (mkStatus Invalid
    (kind_name +:+ " requires " +:+ pretty expected +:+ " inputs but got "
     +:+ pretty (length inputs))).

Module ScalarAggregateNode.
Section ScalarAggregateNode.
Context {KS Options : Type}.

(** Modelled from the spec: the scalar aggregate kernel interface
    ([kernel.h]) is not among the sources.  §4.5: one accumulator per
    kernel per thread, with [init], [consume], [merge] and [finalize];
    [out_type] resolves the type of the finalized scalar. *)
Record ScalarAggregateKernel := {
  init : Options -> DataType -> Result KS;
  consume : KS -> ExecBatch.t -> Result KS;
  (** [merge src dst]: [src] folded into [dst]. *)
  merge : KS -> KS -> Result KS;
  finalize : KS -> Result Datum;
  out_type : KS -> DataType -> Result DataType
}.

(** A function of the registry: its kind, its kernels by input type and
    its default options. *)
Record Function := {
  kind : FunctionKind;
  DispatchExact : list DataType -> Result ScalarAggregateKernel;
  default_options : option Options
}.

Record Aggregate := {
  function : string;
  options : option Options;
  target : string;
  name : string
}.

Record AggregateNodeOptions := {
  aggregates : list Aggregate;
  keys : list string
}.

(** The plan a node is made in: its execution context and the function
    registry of that context. *)
Record ExecPlan := {
  exec_context : ExecContext;
  GetFunction : string -> Result Function
}.

Record t := mk {
  plan : ExecPlan;
  output_schema : Schema;
  target_field_ids_ : list nat;
  aggs_ : list Aggregate;
  kernels_ : list ScalarAggregateKernel;
  states_ : list (list KS);
  get_thread_index_ : ThreadIndexer.t;
  input_counter_ : AtomicCounter.t;
  finished_ : bool;
  calls : list Call
}.

Definition set_states_ (x : list (list KS)) (n : t) : t :=
  mk (plan n) (output_schema n) (target_field_ids_ n) (aggs_ n) (kernels_ n) x
     (get_thread_index_ n) (input_counter_ n) (finished_ n) (calls n).
Definition set_get_thread_index_ (x : ThreadIndexer.t) (n : t) : t :=
  mk (plan n) (output_schema n) (target_field_ids_ n) (aggs_ n) (kernels_ n) (states_ n)
     x (input_counter_ n) (finished_ n) (calls n).
Definition set_input_counter_ (x : AtomicCounter.t) (n : t) : t :=
  mk (plan n) (output_schema n) (target_field_ids_ n) (aggs_ n) (kernels_ n) (states_ n)
     (get_thread_index_ n) x (finished_ n) (calls n).
Definition set_finished_ (x : bool) (n : t) : t :=
  mk (plan n) (output_schema n) (target_field_ids_ n) (aggs_ n) (kernels_ n) (states_ n)
     (get_thread_index_ n) (input_counter_ n) x (calls n).
Definition set_calls (x : list Call) (n : t) : t :=
  mk (plan n) (output_schema n) (target_field_ids_ n) (aggs_ n) (kernels_ n) (states_ n)
     (get_thread_index_ n) (input_counter_ n) (finished_ n) x.

(** Modelled from the spec: [Kernel::InitAll] is declared outside the
    sources; it initializes every per-thread state of one kernel. *)
Definition InitAll (kernel : ScalarAggregateKernel) (opts : Options)
    (in_type : DataType) (capacity : nat) : Result (list KS) :=
  result_mapM (fun _ => init kernel opts in_type) (seq 0 capacity).

(** What the body of the loop of [Make] builds for one aggregate. *)
Record Made := {
  made_target_field_id : nat;
  made_aggregate : Aggregate;
  made_kernel : ScalarAggregateKernel;
  made_states : list KS;
  made_field : Field
}.

Definition make_aggregate (p : ExecPlan) (input_schema : Schema) (agg : Aggregate)
    : Result Made :=
  let? match_ := FindOne (target agg) input_schema in
  let? target_field_id := deref (match_ !! 0%nat) in
  let? function_ := GetFunction p (function agg) in
  if decide (kind function_ ≠ SCALAR_AGGREGATE) then
    Raise (mkStatus Invalid ("Provided non ScalarAggregateFunction " +:+ function agg))
  else
    let? f := deref (input_schema !! target_field_id) in
    let in_type := field_type f in
    let? kernel := DispatchExact function_ [in_type] in
    let? opts :=
      match options agg with
      | Some o => Ok o
      | None => deref (default_options function_)
      end in
    let? states := InitAll kernel opts in_type (thread_capacity (exec_context p)) in
    (* pick one to resolve the kernel signature *)
    let? state0 := deref (states !! 0%nat) in
    let? descr := out_type kernel state0 in_type in
    Ok {| made_target_field_id := target_field_id;
          made_aggregate :=
            {| function := function agg; options := Some opts;
               target := target agg; name := name agg |};
          made_kernel := kernel;
          made_states := states;
          made_field := field (name agg) descr |}.

Definition Make (p : ExecPlan) (inputs : list Schema) (opts : AggregateNodeOptions)
    : Result t :=
  let? _ := ValidateExecNodeInputs inputs 1 "ScalarAggregateNode" in
  let? input_schema := deref (inputs !! 0%nat) in
  let? made := result_mapM (make_aggregate p input_schema) (aggregates opts) in
  Ok {| plan := p;
        output_schema := made_field <$> made;
        target_field_ids_ := made_target_field_id <$> made;
        aggs_ := made_aggregate <$> made;
        kernels_ := made_kernel <$> made;
        states_ := made_states <$> made;
        get_thread_index_ := ThreadIndexer.init;
        input_counter_ := AtomicCounter.init;
        finished_ := false;
        calls := [] |}.

Definition call (c : Call) : M t unit :=
  modify (fun n => set_calls (calls n ++ [c]) n).

Definition MarkFinished : M t unit := modify (set_finished_ true).

(** Modelled from the spec: [ExecNode::ErrorIfNotOk], as for the
    GroupByNode. *)
Definition ErrorIfNotOk (c : M t unit) : M t bool := fun n =>
  match c n with
  | (Ok _, n') => (Ok false, n')
  | (Raise s, n') => (Ok true, set_calls (calls n' ++ [Output_ErrorReceived s]) n')
  | (Undefined, n') => (Undefined, n')
  end.

Definition input_counter_Increment : M t bool := fun n =>
  let '(b, c) := AtomicCounter.Increment (input_counter_ n) in
  (Ok b, set_input_counter_ c n).
Definition input_counter_SetTotal (total : Z) : M t bool := fun n =>
  let '(b, c) := AtomicCounter.SetTotal (input_counter_ n) total in
  (Ok b, set_input_counter_ c n).
Definition input_counter_Cancel : M t bool := fun n =>
  let '(b, c) := AtomicCounter.Cancel (input_counter_ n) in
  (Ok b, set_input_counter_ c n).
Definition thread_index (thread_id : nat) : M t nat := fun n =>
  let '(i, ix) := ThreadIndexer.index (get_thread_index_ n) thread_id in
  (Ok i, set_get_thread_index_ ix n).

(** The body of the loop of [DoConsume]. *)
Definition consume_kernel (batch : ExecBatch.t) (thread_index : nat) (i : nat)
    : M t unit :=
  kernel ← (ks ← gets kernels_; lift (deref (ks !! i)));
  states ← (ss ← gets states_; lift (deref (ss !! i)));
  state ← lift (deref (states !! thread_index));
  id ← (ids ← gets target_field_ids_; lift (deref (ids !! i)));
  column ← lift (deref (ExecBatch.values batch !! id));
  let single_column_batch := ExecBatch.mk [column] (ExecBatch.length batch) in
  state' ← lift (consume kernel state single_column_batch);
  modify (fun n => set_states_ (<[i := <[thread_index := state']> states]> (states_ n)) n).

Definition DoConsume (batch : ExecBatch.t) (thread_index : nat) : M t unit :=
  ks ← gets kernels_;
  forM_ (seq 0 (length ks)) (consume_kernel batch thread_index).

(** Modelled from the spec: [ScalarAggregateKernel::MergeAll] is declared
    outside the sources.  §4.5: it "fold[s] the per-thread accumulators
    pairwise": every state but the last is merged into the last. *)
Definition MergeAll (kernel : ScalarAggregateKernel) (states : list KS) : Result KS :=
  let? out := deref (last states) in
  foldl (fun acc state => let? dst := acc in merge kernel state dst)
        (Ok out) (take (length states - 1) states).

Definition finish_kernel (i : nat) : M t Datum :=
  kernel ← (ks ← gets kernels_; lift (deref (ks !! i)));
  states ← (ss ← gets states_; lift (deref (ss !! i)));
  modify (fun n => set_states_ (<[i := []]> (states_ n)) n);;
  merged ← lift (MergeAll kernel states);
  lift (finalize kernel merged).

Fixpoint finish_kernels (ks : list nat) : M t (list Datum) :=
  match ks with
  | [] => mret []
  | i :: rest =>
      column ← finish_kernel i;
      columns ← finish_kernels rest;
      mret (column :: columns)
  end.

Definition Finish : M t unit :=
  ks ← gets kernels_;
  columns ← finish_kernels (seq 0 (length ks));
  call (Output_InputReceived (ExecBatch.mk columns 1));;
  MarkFinished.

Definition InputReceived (thread_id : nat) (batch : ExecBatch.t) : M t unit :=
  thread_index ← thread_index thread_id;
  failed ← ErrorIfNotOk (DoConsume batch thread_index);
  if failed : bool then mret tt
  else
    done ← input_counter_Increment;
    if done : bool then ErrorIfNotOk Finish;; mret tt else mret tt.

Definition ErrorReceived (error : Status) : M t unit :=
  call (Output_ErrorReceived error).

Definition InputFinished (total_batches : Z) : M t unit :=
  done ← input_counter_SetTotal total_batches;
  if done : bool then ErrorIfNotOk Finish;; mret tt else mret tt.

Definition StartProducing : M t unit :=
  modify (set_finished_ false);;
  (* Scalar aggregates will only output a single batch *)
  call (Output_InputFinished 1).

Definition PauseProducing (counter : Z) : M t unit :=
  call (Input_PauseProducing counter).

Definition ResumeProducing (counter : Z) : M t unit :=
  call (Input_ResumeProducing counter).

Definition StopProducing : M t unit :=
  done ← input_counter_Cancel;
  (if done : bool then MarkFinished else mret tt);;
  call Input_StopProducing.

Inductive Event :=
| EvInputReceived (thread_id : nat) (batch : ExecBatch.t)
| EvInputFinished (total_batches : Z)
| EvErrorReceived (error : Status)
| EvPauseProducing (counter : Z)
| EvResumeProducing (counter : Z)
| EvStopProducing.

Definition step (e : Event) : M t unit :=
  match e with
  | EvInputReceived thread_id batch => InputReceived thread_id batch
  | EvInputFinished total_batches => InputFinished total_batches
  | EvErrorReceived error => ErrorReceived error
  | EvPauseProducing counter => PauseProducing counter
  | EvResumeProducing counter => ResumeProducing counter
  | EvStopProducing => StopProducing
  end.

Definition run (events : list Event) : M t unit := forM_ events step.

End ScalarAggregateNode.
Arguments ScalarAggregateKernel KS Options : clear implicits.
Arguments Function KS Options : clear implicits.
Arguments Aggregate Options : clear implicits.
Arguments AggregateNodeOptions Options : clear implicits.
Arguments ExecPlan KS Options : clear implicits.
Arguments Made KS Options : clear implicits.
Arguments t KS Options : clear implicits.
End ScalarAggregateNode.

(** ** A scalar aggregate kernel *)

Module ScalarCount.

(** Modelled from the spec: the scalar [count] kernel is not among the
    sources.  Its accumulator is the pair (valid_count, null_count) of
    §4.3, its identity is (0, 0), [merge] adds the pairs and [finalize]
    picks by mode. *)
Definition state := (Z * Z)%type.

Definition consume (s : state) (batch : ExecBatch.t) : Result state :=
  let? column := deref (ExecBatch.values batch !! 0%nat) in
  Ok (foldl (fun acc c => HashCount.bump c acc) s
            (ExecBatch.cells_of (Z.to_nat (ExecBatch.length batch)) column)).

Definition kernel : ScalarAggregateNode.ScalarAggregateKernel state CountMode :=
  {| ScalarAggregateNode.init := fun _ _ => Ok (0, 0);
     ScalarAggregateNode.consume := consume;
     ScalarAggregateNode.merge := fun src dst => Ok (fst dst + fst src, snd dst + snd src);
     ScalarAggregateNode.finalize := fun s => Ok (ScalarDatum (Some (Int64 (fst s))));
     ScalarAggregateNode.out_type := fun _ _ => Ok int64 |}.

Definition count : ScalarAggregateNode.Function state CountMode :=
  {| ScalarAggregateNode.kind := SCALAR_AGGREGATE;
     ScalarAggregateNode.DispatchExact := fun _ => Ok kernel;
     ScalarAggregateNode.default_options := Some ONLY_VALID |}.

(** A function of another kind, as the registry holds many. *)
Definition add : ScalarAggregateNode.Function state CountMode :=
  {| ScalarAggregateNode.kind := SCALAR;
     ScalarAggregateNode.DispatchExact :=
       fun _ => Raise (mkStatus NotImplemented "no kernel");
     ScalarAggregateNode.default_options := None |}.

Definition registry (name : string) : Result (ScalarAggregateNode.Function state CountMode) :=
  if decide (name = "count") then Ok count
  else if decide (name = "add") then Ok add
  else Raise (mkStatus KeyError ("No function registered with name: " +:+ name)).

Definition plan : ScalarAggregateNode.ExecPlan state CountMode :=
  {| ScalarAggregateNode.exec_context :=
       {| exec_chunksize := 2; executor := false;
          executor_Spawn := fun _ => Ok tt; thread_capacity := 4 |};
     ScalarAggregateNode.GetFunction := registry |}.

Definition aggregate (function target : string) : ScalarAggregateNode.Aggregate CountMode :=
  {| ScalarAggregateNode.function := function;
     ScalarAggregateNode.options := None;
     ScalarAggregateNode.target := target;
     ScalarAggregateNode.name := function |}.

Definition options (aggs : list (ScalarAggregateNode.Aggregate CountMode))
  : ScalarAggregateNode.AggregateNodeOptions CountMode :=
  {| ScalarAggregateNode.aggregates := aggs; ScalarAggregateNode.keys := [] |}.

End ScalarCount.

(** ** Scenarios *)

(** The ids a Grouper over one fixed-width key column of [w] bytes gives
    to a sequence of batches of cells (bit patterns). *)
Definition float_key_ids (w : nat) (batches : list (list (option Z))) : list (list nat) :=
  snd (GrouperImpl.ConsumeAll GrouperImpl.empty
         (map (map (KeyEncoder.encode_fixed w)) batches)).

(** Scenario S5: two batches with different dictionaries. *)
Definition dict_ab : DictGrouper.DictionaryArray :=
  {| DictGrouper.dictionary := [Some "a"; Some "b"];
     DictGrouper.indices := [Some 0; Some 1] |}.
Definition dict_cd : DictGrouper.DictionaryArray :=
  {| DictGrouper.dictionary := [Some "c"; Some "d"];
     DictGrouper.indices := [Some 0; Some 1] |}.

Module S1.

(** The float64 values of the argument column, as bit patterns. *)
Definition f_1_0 : Z := 0x3FF0000000000000.
Definition f_0_0 : Z := 0x0000000000000000.
Definition f_4_0 : Z := 0x4010000000000000.
Definition f_3_25 : Z := 0x400A000000000000.
Definition f_0_125 : Z := 0x3FC0000000000000.
Definition f_m0_25 : Z := 0xBFD0000000000000.
Definition f_0_75 : Z := 0x3FE8000000000000.

Definition schema : Schema := [field "argument" float64; field "key" int64].

Definition arg (bits : Z) : Cell := Some (Double bits).
Definition key (v : Z) : Cell := Some (Int64 v).
Definition null : Cell := None.

(** The three chunks of the table of [TEST(GroupBy, CountOnly)], rows
    [(argument, key)]. *)
Definition table : list (list (Cell * Cell)) :=
  [ [ (arg f_1_0, key 1); (null, key 1) ];
    [ (arg f_0_0, key 2); (null, key 3); (arg f_4_0, null);
      (arg f_3_25, key 1); (arg f_0_125, key 2) ];
    [ (arg f_m0_25, key 2); (arg f_0_75, null); (null, key 3) ] ].

Definition batch_of (rows : list (Cell * Cell)) : ExecBatch.t :=
  ExecBatch.mk [ArrayDatum (fst <$> rows); ArrayDatum (snd <$> rows)]
               (Z.of_nat (length rows)).

(** Batches of at most [size] rows cut from a chunk, as the test's
    context with [exec_chunksize = 2] makes them. *)
Fixpoint cut (fuel size : nat) (rows : list (Cell * Cell)) : list (list (Cell * Cell)) :=
  match fuel, rows with
  | O, _ | _, [] => []
  | S fuel', _ => take size rows :: cut fuel' size (drop size rows)
  end.

Definition batches : list ExecBatch.t :=
  batch_of <$> concat ((fun chunk => cut (length chunk) 2 chunk) <$> table).

(** The pool, when there is one, takes every task. *)
Definition context (chunksize : Z) (use_threads : bool) : ExecContext :=
  {| exec_chunksize := chunksize; executor := use_threads;
     executor_Spawn := fun _ => Ok tt; thread_capacity := 4 |}.

(** The plan of the test: key column 1, aggregate [hash_count] over
    column 0 with the default options (count the valid values). *)
Definition node (ctx : ExecContext) : GroupByNode.t HashCount.state :=
  GroupByNode.construct ctx schema [1%nat] [0%nat] [HashCount.kernel ONLY_VALID].

(** The batches arrive on the given threads. *)
Definition arrivals (thread_ids : list nat) (inputs : list ExecBatch.t)
  : list GroupByNode.Event :=
  zip_with GroupByNode.EvInputReceived thread_ids inputs.

(** The batches arrive, the input is declared final, and the pool runs
    its tasks as scheduled. *)
Definition events (thread_ids : list nat) (inputs : list ExecBatch.t)
    (schedule : list nat) : list GroupByNode.Event :=
  arrivals thread_ids inputs
  ++ [GroupByNode.EvInputFinished (Z.of_nat (length inputs))]
  ++ (GroupByNode.EvRunTask <$> schedule).

(** The node after a run of the plan. *)
Definition execute (ctx : ExecContext) (evs : list GroupByNode.Event)
  : Result unit * GroupByNode.t HashCount.state :=
  (GroupByNode.StartProducing ;; GroupByNode.run evs) (node ctx).





Definition count (v : Z) : Cell := Some (Int64 v).

Definition expected : list (list Cell) :=
  [ [count 2; key 1]; [count 3; key 2]; [count 0; key 3]; [count 2; null] ].


(** The finalized result of the scenario: the rows in the order of the
    leader's Grouper when all batches arrive on one thread. *)
Definition result : ExecBatch.t :=
  ExecBatch.mk
    [ArrayDatum [count 2; count 3; count 0; count 2];
     ArrayDatum [key 1; key 2; key 3; null]] 4.

End S1.

(** ** Relations and predicates of the proofs *)

(** A computation keeps a relation between the fields before and after
    it, whatever its outcome. *)
Definition preserves {St A} (R : relation St) (c : M St A) : Prop :=
  ∀ n r n', c n = (r, n') -> R n n'.

(** The calls only grow, the context stays, and every batch delivered in
    between has at most [output_batch_size] rows. *)
Definition extends {KS} (n n' : GroupByNode.t KS) : Prop :=
  GroupByNode.ctx_ n' = GroupByNode.ctx_ n ∧
  ∃ new, GroupByNode.calls n' = GroupByNode.calls n ++ new ∧
         Forall (fun b => ExecBatch.length b ≤ GroupByNode.output_batch_size n)
                (delivered new).

(** The output side of the node is untouched. *)
Definition same_output {KS} (n n' : GroupByNode.t KS) : Prop :=
  GroupByNode.ctx_ n' = GroupByNode.ctx_ n ∧
  GroupByNode.output_counter_ n' = GroupByNode.output_counter_ n ∧
  GroupByNode.finished_ n' = GroupByNode.finished_ n ∧
  GroupByNode.calls n' = GroupByNode.calls n ∧
  GroupByNode.spawned n' = GroupByNode.spawned n ∧
  GroupByNode.out_data_ n' = GroupByNode.out_data_ n.

(** The tasks the pool runs, in the order it runs them: at each step it
    picks the task waiting at position [k]. *)
Fixpoint picks (ks : list nat) (tasks : list Z) : list Z :=
  match ks with
  | [] => []
  | k :: ks' =>
      match tasks !! k with
      | Some i => i :: picks ks' (delete k tasks)
      | None => picks ks' tasks
      end
  end.

(** The call by which task [i] delivers its chunk. *)
Definition chunk {KS} (n : GroupByNode.t KS) (i : Z) : Call :=
  Output_InputReceived
    (ExecBatch.Slice (GroupByNode.out_data_ n)
       (GroupByNode.output_batch_size n * i) (GroupByNode.output_batch_size n)).

(** What [OutputNthBatch] does to a node that is not finished. *)
Definition deliver {KS} (n : GroupByNode.t KS) (i : Z) : GroupByNode.t KS :=
  let n1 := GroupByNode.set_calls (GroupByNode.calls n ++ [chunk n i]) n in
  let '(done, c) := AtomicCounter.Increment (GroupByNode.output_counter_ n) in
  (if done : bool then GroupByNode.set_finished_ true else id)
    (GroupByNode.set_output_counter_ c n1).

(** Either no task waits, or the node is not finished and the output
    counter lacks the waiting tasks at least. *)
Definition tasks_pending {KS} (n : GroupByNode.t KS) : Prop :=
  GroupByNode.spawned n = [] ∨
  (GroupByNode.finished_ n = false ∧
   AtomicCounter.complete_ (GroupByNode.output_counter_ n) = false ∧
   ∃ total,
     AtomicCounter.total_ (GroupByNode.output_counter_ n) = Some total ∧
     AtomicCounter.count_ (GroupByNode.output_counter_ n)
     + Z.of_nat (length (GroupByNode.spawned n)) ≤ total).

(** The tasks a pool takes when it is offered [tasks] in order until it
    refuses one, and the status of the offer: OK, or that of the
    refusal. *)
Fixpoint accepted (spawn : Z -> Result unit) (tasks : list Z) : list Z :=
  match tasks with
  | [] => []
  | i :: rest =>
      match spawn i with
      | Ok _ => i :: accepted spawn rest
      | _ => []
      end
  end.

Fixpoint offered (spawn : Z -> Result unit) (tasks : list Z) : Result unit :=
  match tasks with
  | [] => Ok tt
  | i :: rest => let? _ := spawn i in offered spawn rest
  end.

(** The events by which batches, the input total and pool tasks reach a
    node. *)
Definition is_input_or_task (e : GroupByNode.Event) : Prop :=
  match e with
  | GroupByNode.EvInputReceived _ _
  | GroupByNode.EvInputFinished _
  | GroupByNode.EvRunTask _ => True
  | _ => False
  end.

(** The column of one scalar aggregate: its per-thread states merged, then
    finalized. *)
Definition finish_column {KS Options}
    (ks : ScalarAggregateNode.ScalarAggregateKernel KS Options * list KS) : Result Datum :=
  let? merged := ScalarAggregateNode.MergeAll (fst ks) (snd ks) in
  ScalarAggregateNode.finalize (fst ks) merged.

Definition finish_columns {KS Options}
    (kernels : list (ScalarAggregateNode.ScalarAggregateKernel KS Options))
    (states : list (list KS)) : Result (list Datum) :=
  result_mapM finish_column (zip kernels states).

(** The per-thread states of a kernel as construction leaves them: one per
    thread slot, each the kernel's fresh state. *)
Definition initialized {KS Options} (capacity : nat)
    (kernel : ScalarAggregateNode.ScalarAggregateKernel KS Options) (states : list KS) : Prop :=
  length states = capacity ∧
  ∃ opts in_type, Forall (fun s => ScalarAggregateNode.init kernel opts in_type = Ok s) states.

Definition same_io {KS Options} (n n' : ScalarAggregateNode.t KS Options) : Prop :=
  ScalarAggregateNode.calls n' = ScalarAggregateNode.calls n ∧
  ScalarAggregateNode.input_counter_ n' = ScalarAggregateNode.input_counter_ n ∧
  ScalarAggregateNode.finished_ n' = ScalarAggregateNode.finished_ n ∧
  ScalarAggregateNode.kernels_ n' = ScalarAggregateNode.kernels_ n.

(** The kernels stay and the calls only grow. *)
Definition calls_grow {KS Options} (n n' : ScalarAggregateNode.t KS Options) : Prop :=
  ScalarAggregateNode.kernels_ n' = ScalarAggregateNode.kernels_ n ∧
  ∃ new, ScalarAggregateNode.calls n' = ScalarAggregateNode.calls n ++ new.

(** At most one batch, and of one row. *)
Definition one_row_batches (batches : list ExecBatch.t) : Prop :=
  (length batches ≤ 1)%nat ∧ Forall (fun b => ExecBatch.length b = 1) batches.

(** Nothing is delivered before the input counter completes, and never
    more than one batch. *)
Definition at_most_once {KS Options} (n : ScalarAggregateNode.t KS Options) : Prop :=
  (AtomicCounter.complete_ (ScalarAggregateNode.input_counter_ n) = false ->
   delivered (ScalarAggregateNode.calls n) = []) ∧
  one_row_batches (delivered (ScalarAggregateNode.calls n)).

(** ** The id comparison of the Grouper tests *)

Module TestGrouper.

(** [uint32_t] addition. *)
Definition uint32_add (a b : Z) : Z := (a + b) mod 2 ^ 32.

(** The first loop of [AssertEquivalentIds] on one of the two id
    buffers: the largest id, 0 when there is none. *)
Definition max_id (ids : list Z) : Z :=
  foldl (fun max_id id => if max_id <? id then id else max_id) 0 ids.

(** The four vectors of [AssertEquivalentIds]. *)
Record Maps := {
  right_to_left_present : list bool;
  left_to_right_present : list bool;
  right_to_left : list Z;
  left_to_right : list Z
}.

(** The body of the second loop for one row.  The result says whether
    both [ASSERT_EQ] held; a read or write past the end of a vector is
    undefined. *)
Definition visit (m : Maps) (left_id right_id : Z) : Result (bool * Maps) :=
  let l := Z.to_nat left_id in
  let r := Z.to_nat right_id in
  let? present := deref (left_to_right_present m !! l) in
  let? m1 :=
    if present : bool then Ok m
    else
      let? _ := deref (left_to_right m !! l) in
      Ok {| right_to_left_present := right_to_left_present m;
            left_to_right_present := <[l := true]> (left_to_right_present m);
            right_to_left := right_to_left m;
            left_to_right := <[l := right_id]> (left_to_right m) |} in
  let? present := deref (right_to_left_present m1 !! r) in
  let? m2 :=
    if present : bool then Ok m1
    else
      let? _ := deref (right_to_left m1 !! r) in
      Ok {| right_to_left_present := <[r := true]> (right_to_left_present m1);
            left_to_right_present := left_to_right_present m1;
            right_to_left := <[r := left_id]> (right_to_left m1);
            left_to_right := left_to_right m1 |} in
  let? l' := deref (right_to_left m2 !! r) in
  if decide (left_id = l') then
    let? r' := deref (left_to_right m2 !! l) in
    Ok (bool_decide (right_id = r'), m2)
  else Ok (false, m2).

(** The second loop: it ends at the first [ASSERT_EQ] that fails. *)
Fixpoint visit_all (m : Maps) (ids : list (Z * Z)) : Result bool :=
  match ids with
  | [] => Ok true
  | (left_id, right_id) :: rest =>
      let? v := visit m left_id right_id in
      if fst v then visit_all (snd v) rest else Ok false
  end.

(** [TestGrouper::AssertEquivalentIds] on the two id buffers: [Ok true]
    when no assertion fails. *)
Definition AssertEquivalentIds (left_ids right_ids : list Z) : Result bool :=
  if decide (length left_ids = length right_ids) then
    let max_left_id := max_id left_ids in
    let max_right_id := max_id right_ids in
    let right_size := Z.to_nat (uint32_add max_right_id 1) in
    let left_size := Z.to_nat (uint32_add max_left_id 1) in
    visit_all
      {| right_to_left_present := replicate right_size false;
         left_to_right_present := replicate left_size false;
         right_to_left := replicate right_size 0;
         left_to_right := replicate left_size 0 |}
      (zip left_ids right_ids)
  else Ok false (* #ids unequal *).

End TestGrouper.

(** Two id sequences name the same grouping: rows have the same id on
    the left exactly when they have the same id on the right. *)
Definition consistent_ids (pairs : list (Z * Z)) : Prop :=
  ∀ l1 r1 l2 r2, (l1, r1) ∈ pairs -> (l2, r2) ∈ pairs -> (l1 = l2 ↔ r1 = r2).

Definition equivalent_ids (left_ids right_ids : list Z) : Prop :=
  length left_ids = length right_ids ∧
  ∀ i j l1 r1 l2 r2,
    left_ids !! i = Some l1 -> right_ids !! i = Some r1 ->
    left_ids !! j = Some l2 -> right_ids !! j = Some r2 ->
    (l1 = l2 ↔ r1 = r2).

(** The vectors after the rows [seen]: an id is marked present exactly
    when a seen row has it, and then it is mapped to the id on the other
    side of that row. *)
Definition maps_of (left_size right_size : nat) (seen : list (Z * Z))
    (m : TestGrouper.Maps) : Prop :=
  length (TestGrouper.left_to_right_present m) = left_size ∧
  length (TestGrouper.left_to_right m) = left_size ∧
  length (TestGrouper.right_to_left_present m) = right_size ∧
  length (TestGrouper.right_to_left m) = right_size ∧
  (∀ l r, (l, r) ∈ seen ->
     0 ≤ l ∧ 0 ≤ r ∧
     TestGrouper.left_to_right_present m !! Z.to_nat l = Some true ∧
     TestGrouper.left_to_right m !! Z.to_nat l = Some r ∧
     TestGrouper.right_to_left_present m !! Z.to_nat r = Some true ∧
     TestGrouper.right_to_left m !! Z.to_nat r = Some l) ∧
  (∀ k, TestGrouper.left_to_right_present m !! k = Some true ->
     ∃ l r, (l, r) ∈ seen ∧ Z.to_nat l = k) ∧
  (∀ k, TestGrouper.right_to_left_present m !! k = Some true ->
     ∃ l r, (l, r) ∈ seen ∧ Z.to_nat r = k).

(** ** Chunks of a result *)

(** The row of a batch at position [r]. *)
Definition row_at (b : ExecBatch.t) (r : nat) : list Cell :=
  map (fun d => ExecBatch.cell_at d r) (ExecBatch.values b).

(** The chunks of [out] of [size] rows each, at the given positions. *)
Definition chunks_of (out : ExecBatch.t) (size : Z) (tasks : list Z) : list ExecBatch.t :=
  (fun i => ExecBatch.Slice out (size * i) size) <$> tasks.

(** Tasks wait exactly as long as the node is not finished; while they
    wait, the output counter lacks exactly the waiting tasks. *)
Definition tasks_accounted {KS} (n : GroupByNode.t KS) : Prop :=
  (GroupByNode.spawned n = [] ∧ GroupByNode.finished_ n = true) ∨
  (GroupByNode.spawned n ≠ [] ∧ GroupByNode.finished_ n = false ∧
   AtomicCounter.complete_ (GroupByNode.output_counter_ n) = false ∧
   AtomicCounter.total_ (GroupByNode.output_counter_ n)
     = Some (AtomicCounter.count_ (GroupByNode.output_counter_ n)
             + Z.of_nat (length (GroupByNode.spawned n)))).

(** ** What the output is told *)

(** What the output is told about the data, in order: [inl total] for an
    [InputFinished], [inr batch] for an [InputReceived]. *)
Definition output_data (calls : list Call) : list (Z + ExecBatch.t) :=
  omap (fun c => match c with
                 | Output_InputFinished total => Some (inl total)
                 | Output_InputReceived batch => Some (inr batch)
                 | _ => None
                 end) calls.

(** The output has been told nothing, or one total and then batches; the
    batches and the [waiting] tasks are no more than the total. *)
Definition announced_then_delivered (calls : list Call) (waiting : nat) : Prop :=
  (output_data calls = [] ∧ waiting = 0%nat) ∨
  ∃ total batches,
    output_data calls = inl total :: (inr <$> batches) ∧
    (length batches + waiting ≤ Z.to_nat total)%nat.

(** Nothing is announced, delivered or handed to the pool before the
    input counter completes. *)
Definition output_protocol {KS} (n : GroupByNode.t KS) : Prop :=
  (AtomicCounter.complete_ (GroupByNode.input_counter_ n) = false ->
   output_data (GroupByNode.calls n) = [] ∧ GroupByNode.spawned n = []) ∧
  announced_then_delivered (GroupByNode.calls n) (length (GroupByNode.spawned n)).

(** The calls, the waiting tasks and the input counter are untouched. *)
Definition same_trace {KS} (n n' : GroupByNode.t KS) : Prop :=
  GroupByNode.calls n' = GroupByNode.calls n ∧
  GroupByNode.spawned n' = GroupByNode.spawned n ∧
  GroupByNode.input_counter_ n' = GroupByNode.input_counter_ n.

(** The output counter completes only on a finished node. *)
Definition finished_when_complete {KS} (n : GroupByNode.t KS) : Prop :=
  AtomicCounter.complete_ (GroupByNode.output_counter_ n) = true ->
  GroupByNode.finished_ n = true.

Definition keeps_finished_when_complete {KS} (n n' : GroupByNode.t KS) : Prop :=
  finished_when_complete n -> finished_when_complete n'.

(** ** Descriptions, construction of the GroupByNode, and the factory *)

(** [std::endl], a tab and a double quote. *)
Definition endl : string := String "010"%char "".
Definition tab : string := String "009"%char "".
Definition quote : string := String "034"%char "".

(** What [for (int j = 0; j < indent; ++j) *ss << "  "] writes. *)
Definition indentation (indent : Z) : string :=
  String.concat "" (replicate (Z.to_nat indent) "  ").

Section AggregatesToString.
Context {Options : Type}.
Import ScalarAggregateNode.

(** [FunctionOptions::ToString], declared outside the sources. *)
Variable ToString : Options -> string.

(** What one round of the loop of [AggregatesToString] writes. *)
Definition aggregate_line (input_schema : Schema) (aggs : list (Aggregate Options))
    (target_field_ids : list nat) (indent : Z) (i : nat) : Result string :=
  let? agg := deref (aggs !! i) in
  let? id := deref (target_field_ids !! i) in
  let? f := deref (input_schema !! id) in
  Ok (indentation indent +:+ tab +:+ function agg +:+ "(" +:+ field_name f
      +:+ match options agg with
          | Some o => ", " +:+ ToString o
          | None => ""
          end
      +:+ ")," +:+ endl).

(** [AggregatesToString]: what it writes to the stream. *)
Definition AggregatesToString (input_schema : Schema) (aggs : list (Aggregate Options))
    (target_field_ids : list nat) (indent : Z) : Result string :=
  let? lines := result_mapM (aggregate_line input_schema aggs target_field_ids indent)
                            (seq 0 (length aggs)) in
  Ok ("aggregates=[" +:+ endl +:+ String.concat "" lines +:+ indentation indent +:+ "]").

(** [ScalarAggregateNode::ToStringExtra]; [input_schema] is the output
    schema of the node's input.  The indent is not passed on. *)
Definition ScalarAggregateNode_ToStringExtra {KS} (input_schema : Schema)
    (n : ScalarAggregateNode.t KS Options) (indent : Z) : Result string :=
  AggregatesToString input_schema (aggs_ n) (target_field_ids_ n) 0.

(** What one round of the key loop of [GroupByNode::ToStringExtra]
    writes. *)
Definition key_name (input_schema : Schema) (key_field_ids : list nat) (i : nat)
    : Result string :=
  let? id := deref (key_field_ids !! i) in
  let? f := deref (input_schema !! id) in
  Ok ((if decide (0 < i)%nat then ", " else "") +:+ quote +:+ field_name f +:+ quote).

(** [GroupByNode::ToStringExtra]; [aggs] is the node's field [aggs_]. *)
Definition GroupByNode_ToStringExtra {KS} (aggs : list (Aggregate Options))
    (n : GroupByNode.t KS) (indent : Z) : Result string :=
  let? names := result_mapM (key_name (GroupByNode.input_schema n)
                                      (GroupByNode.key_field_ids_ n))
                            (seq 0 (length (GroupByNode.key_field_ids_ n))) in
  let? aggregates := AggregatesToString (GroupByNode.input_schema n) aggs
                       (GroupByNode.agg_src_field_ids_ n) indent in
  Ok ("keys=[" +:+ String.concat "" names +:+ "], " +:+ aggregates).

End AggregatesToString.

Section GroupByNode_Make.
Context {KS Options : Type}.
Import ScalarAggregateNode.

(** [internal::GetKernels] and [internal::ResolveKernels]
    ([aggregate.cc]), declared outside the sources: the kernels of the
    aggregates for the given input types, and the fields of their
    results. *)
Variable GetKernels :
  ExecContext -> list (Aggregate Options) -> list DataType
  -> Result (list (HashAggregateKernel KS)).
Variable ResolveKernels :
  list (Aggregate Options) -> list (HashAggregateKernel KS) -> list KS
  -> ExecContext -> list DataType -> Result (list Field).

(** What [GroupByNode::Make] hands to the constructor: the fields of the
    node, its output schema and its aggregates. *)
Record GroupByNodeMade := {
  made_node : GroupByNode.t KS;
  made_output_schema : Schema;
  made_aggs : list (Aggregate Options)
}.

(** [GroupByNode::Make]; [inputs] holds the output schema of each input
    and [ctx] is the execution context of the plan. *)
Definition GroupByNode_Make (ctx : ExecContext) (inputs : list Schema)
    (opts : AggregateNodeOptions Options) : Result GroupByNodeMade :=
  let? _ := ValidateExecNodeInputs inputs 1 "GroupByNode" in
  let? input_schema := deref (inputs !! 0%nat) in
  let keys := keys opts in
  let aggs := aggregates opts in
  (* Find input field indices for key fields *)
  let? key_field_ids :=
    result_mapM (fun key => let? match_ := FindOne key input_schema in
                            deref (match_ !! 0%nat)) keys in
  (* Find input field indices for aggregates *)
  let? agg_src_field_ids :=
    result_mapM (fun agg => let? match_ := FindOne (target agg) input_schema in
                            deref (match_ !! 0%nat)) aggs in
  (* Build vector of aggregate source field data types *)
  let? agg_src_descrs :=
    result_mapM (fun id => let? f := deref (input_schema !! id) in Ok (field_type f))
                agg_src_field_ids in
  (* Construct aggregates *)
  let? agg_kernels := GetKernels ctx aggs agg_src_descrs in
  let? agg_states := InitKernels agg_kernels in
  let? agg_result_fields :=
    ResolveKernels aggs agg_kernels agg_states ctx agg_src_descrs in
  (* Aggregate fields come before key fields *)
  let? agg_fields :=
    result_mapM (fun i => let? f := deref (agg_result_fields !! i) in
                          let? agg := deref (aggs !! i) in
                          Ok (field (name agg) (field_type f)))
                (seq 0 (length aggs)) in
  let? key_fields :=
    result_mapM (fun id => deref (input_schema !! id)) key_field_ids in
  Ok {| made_node := GroupByNode.construct ctx input_schema key_field_ids
                       agg_src_field_ids agg_kernels;
        made_output_schema := agg_fields ++ key_fields;
        made_aggs := aggs |}.

(** The factory that [RegisterAggregateNode] adds under the name
    "aggregate": without keys it makes the ScalarAggregateNode, with keys
    the GroupByNode. *)
Definition AggregateNodeFactory {KS'} (p : ExecPlan KS' Options) (inputs : list Schema)
    (opts : AggregateNodeOptions Options)
    : Result (ScalarAggregateNode.t KS' Options + GroupByNodeMade) :=
  if decide (keys opts = []) then
    (* construct scalar agg node *)
    let? node := ScalarAggregateNode.Make p inputs opts in Ok (inl node)
  else
    let? node := GroupByNode_Make (exec_context p) inputs opts in Ok (inr node).

(** The output schema of the node the factory made. *)
Definition factory_output_schema {KS'}
    (node : ScalarAggregateNode.t KS' Options + GroupByNodeMade) : Schema :=
  match node with
  | inl n => output_schema n
  | inr m => made_output_schema m
  end.

End GroupByNode_Make.
Arguments GroupByNodeMade KS Options : clear implicits.

(** ** ScalarAggregateNode: the states after the batches of one thread *)

(** The state of one kernel after it has consumed the column [id] of the
    batches, in order, from the state [s]. *)
Fixpoint consume_batches {KS Options}
    (kernel : ScalarAggregateNode.ScalarAggregateKernel KS Options)
    (id : nat) (s : KS) (batches : list ExecBatch.t) : Result KS :=
  match batches with
  | [] => Ok s
  | batch :: rest =>
      let? column := deref (ExecBatch.values batch !! id) in
      let? s' := ScalarAggregateNode.consume kernel s
                   (ExecBatch.mk [column] (ExecBatch.length batch)) in
      consume_batches kernel id s' rest
  end.

(** The per-thread states of the [i]-th kernel of a node after the
    thread slot [slot] has consumed the batches. *)
Definition consumed_state {KS Options} (n : ScalarAggregateNode.t KS Options)
    (slot : nat) (batches : list ExecBatch.t) (i : nat) : Result (list KS) :=
  let? kernel := deref (ScalarAggregateNode.kernels_ n !! i) in
  let? states := deref (ScalarAggregateNode.states_ n !! i) in
  let? state := deref (states !! slot) in
  let? id := deref (ScalarAggregateNode.target_field_ids_ n !! i) in
  let? state' := consume_batches kernel id state batches in
  Ok (<[slot := state']> states).

Definition consumed_states {KS Options} (n : ScalarAggregateNode.t KS Options)
    (slot : nat) (batches : list ExecBatch.t) : Result (list (list KS)) :=
  result_mapM (consumed_state n slot batches)
              (seq 0 (length (ScalarAggregateNode.kernels_ n))).

(** The thread indexer and the per-thread states of every kernel of a
    node after the arrivals [(thread, batch)], in order: the batch of an
    arrival is consumed by every kernel into the state of the slot of the
    arriving thread. *)
Fixpoint consumed_arrivals {KS Options} (n : ScalarAggregateNode.t KS Options)
    (arrivals : list (nat * ExecBatch.t))
    : Result (ThreadIndexer.t * list (list KS)) :=
  match arrivals with
  | [] => Ok (ScalarAggregateNode.get_thread_index_ n, ScalarAggregateNode.states_ n)
  | (thread_id, batch) :: rest =>
      let '(slot, ix) :=
        ThreadIndexer.index (ScalarAggregateNode.get_thread_index_ n) thread_id in
      let? ss := consumed_states n slot [batch] in
      consumed_arrivals
        (ScalarAggregateNode.set_states_ ss
           (ScalarAggregateNode.set_get_thread_index_ ix n)) rest
  end.


(** ** Further inputs *)

Module Samples.
Import ScalarAggregateNode.

(** A rendering of the count options. *)
Definition CountMode_ToString (mode : CountMode) : string :=
  match mode with
  | ONLY_VALID => "{mode=NON_NULL}"
  | ONLY_NULL => "{mode=NULLS}"
  | ALL => "{mode=ALL}"
  end.

(** A registry of hash aggregates that holds [hash_count] only. *)
Definition GetKernels (ctx : ExecContext) (aggs : list (Aggregate CountMode))
    (in_descrs : list DataType) : Result (list (HashAggregateKernel HashCount.state)) :=
  result_mapM
    (fun agg =>
       if decide (function agg = "hash_count")
       then Ok (HashCount.kernel (default ONLY_VALID (options agg)))
       else Raise (mkStatus KeyError
                     ("No function registered with name: " +:+ function agg)))
    aggs.

(** Every count is an int64. *)
Definition ResolveKernels (aggs : list (Aggregate CountMode))
    (kernels : list (HashAggregateKernel HashCount.state))
    (states : list HashCount.state) (ctx : ExecContext) (in_descrs : list DataType)
    : Result (list Field) :=
  Ok ((fun agg => field (function agg) int64) <$> aggs).

Definition hash_count (target : string) : Aggregate CountMode :=
  {| function := "hash_count"; options := Some ONLY_VALID;
     target := target; name := "n" |}.

Definition grouped (keys : list string) : AggregateNodeOptions CountMode :=
  {| aggregates := [hash_count "argument"]; keys := keys |}.

(** A scalar kernel whose [finalize] fails, and a plan that finds it
    under every name. *)
Definition failing : ScalarAggregateKernel ScalarCount.state CountMode :=
  {| init := fun _ _ => Ok (0, 0);
     consume := ScalarCount.consume;
     merge := fun src dst => Ok (fst dst + fst src, snd dst + snd src);
     finalize := fun _ => Raise (mkStatus Invalid "count does not fit");
     out_type := fun _ _ => Ok int64 |}.

Definition failing_plan : ExecPlan ScalarCount.state CountMode :=
  {| exec_context := {| exec_chunksize := 2; executor := false;
          executor_Spawn := fun _ => Ok tt; thread_capacity := 4 |};
     GetFunction := fun _ => Ok {| kind := SCALAR_AGGREGATE;
                                   DispatchExact := fun _ => Ok failing;
                                   default_options := Some ONLY_VALID |} |}.

(** A context whose pool takes the task of the first chunk and refuses
    every other, as a pool that is shut down meanwhile does. *)
Definition closing : ExecContext :=
  {| exec_chunksize := 2; executor := true;
     executor_Spawn := fun i =>
       if decide (i = 0) then Ok tt
       else Raise (mkStatus Invalid "operation forbidden during or after shutdown");
     thread_capacity := 4 |}.

(** The scalar plan that counts the valid values of the argument. *)
Definition counted : AggregateNodeOptions CountMode :=
  ScalarCount.options [ScalarCount.aggregate "count" "argument"].

End Samples.

(** * Theorems *)

(** ** The Grouper's table *)

Section GrouperImpl_facts.
Context {K : Type} `{EqDecision K}.
Implicit Types (g : GrouperImpl.t K) (k : K) (rows : list K) (ids : list nat).

Lemma find_Some g k id :
  GrouperImpl.find g k = Some id -> g !! id = Some k.
Proof.
  unfold GrouperImpl.find. intros Hf.
  destruct (list_find _ g) as [[i x]|] eqn:E; simplify_eq/=.
  apply list_find_Some in E as (? & -> & _). done.
Qed.

Lemma find_None g k : GrouperImpl.find g k = None -> k ∉ g.
Proof.
  unfold GrouperImpl.find. intros Hf.
  destruct (list_find _ g) as [[i x]|] eqn:E; simplify_eq/=.
  apply list_find_None in E. rewrite Forall_forall in E.
  intros Hin. by apply (E k).
Qed.

(** What one row does to the table: the table only grows at its end, it
    stays duplicate-free, and the id returned is the row's position. *)
Lemma consume_row_spec g k g' id :
  GrouperImpl.consume_row g k = (g', id) ->
  NoDup g ->
  NoDup g' ∧ g `prefix_of` g' ∧ g' !! id = Some k ∧
  (∀ k', k' ∈ g' ↔ k' ∈ g ∨ k' = k).
Proof.
  unfold GrouperImpl.consume_row. intros Hc Hnd.
  destruct (GrouperImpl.find g k) as [i|] eqn:E; simplify_eq.
  - apply find_Some in E. split_and!; [done|done|done|].
    intros k'. split; [by left|]. intros [?| ->]; [done|].
    by eapply list_elem_of_lookup_2.
  - apply find_None in E. split_and!.
    + apply NoDup_app. split_and!; [done| |apply NoDup_singleton].
      intros x Hx ->%list_elem_of_singleton. done.
    + by apply prefix_app_r.
    + by rewrite lookup_app_r, Nat.sub_diag.
    + intros k'. rewrite elem_of_app, list_elem_of_singleton. done.
Qed.

Lemma Consume_spec rows : ∀ g g' ids,
  GrouperImpl.Consume g rows = (g', ids) ->
  NoDup g ->
  NoDup g' ∧ g `prefix_of` g' ∧
  Forall2 (fun k id => g' !! id = Some k) rows ids ∧
  (∀ k, k ∈ g' ↔ k ∈ g ∨ k ∈ rows).
Proof.
  induction rows as [|k rows IH]; intros g g' ids Hc Hnd; simpl in Hc.
  - simplify_eq. split_and!; [done|done|constructor|].
    intros k. rewrite elem_of_nil. tauto.
  - destruct (GrouperImpl.consume_row g k) as [g1 id] eqn:E1.
    destruct (GrouperImpl.Consume g1 rows) as [g2 ids2] eqn:E2. simplify_eq.
    apply consume_row_spec in E1 as (Hnd1 & Hp1 & Hid & Hel1); [|done].
    apply IH in E2 as (Hnd2 & Hp2 & Hids & Hel2); [|done].
    split_and!; [done|by etrans| |].
    + constructor; [|done]. by eapply prefix_lookup_Some.
    + intros k'. rewrite Hel2, Hel1, elem_of_cons. tauto.
Qed.

Lemma Consume_app rows1 : ∀ g rows2,
  GrouperImpl.Consume g (rows1 ++ rows2) =
  let '(g1, ids1) := GrouperImpl.Consume g rows1 in
  let '(g2, ids2) := GrouperImpl.Consume g1 rows2 in
  (g2, ids1 ++ ids2).
Proof.
  induction rows1 as [|k rows1 IH]; intros g rows2; simpl.
  - by destruct (GrouperImpl.Consume g rows2).
  - destruct (GrouperImpl.consume_row g k) as [g1 id].
    rewrite IH.
    destruct (GrouperImpl.Consume g1 rows1) as [g2 ids1].
    by destruct (GrouperImpl.Consume g2 rows2).
Qed.

(** A sequence of calls assigns the ids that one call on the
    concatenated batches assigns. *)
Lemma ConsumeAll_concat batches : ∀ g g' idss,
  GrouperImpl.ConsumeAll g batches = (g', idss) ->
  GrouperImpl.Consume g (concat batches) = (g', concat idss).
Proof.
  induction batches as [|b batches IH]; intros g g' idss Hc; simpl in *.
  - by simplify_eq.
  - destruct (GrouperImpl.Consume g b) as [g1 ids] eqn:E1.
    destruct (GrouperImpl.ConsumeAll g1 batches) as [g2 idss2] eqn:E2. simplify_eq.
    rewrite Consume_app, E1. by rewrite (IH _ _ _ E2).
Qed.

(** Two rows get the same id exactly when their keys are equal. *)
Lemma Consume_equivalence g rows g' ids p q kp kq ip iq :
  GrouperImpl.Consume g rows = (g', ids) -> NoDup g ->
  rows !! p = Some kp -> rows !! q = Some kq ->
  ids !! p = Some ip -> ids !! q = Some iq ->
  ip = iq ↔ kp = kq.
Proof.
  intros Hc Hnd Hp Hq Hip Hiq.
  apply Consume_spec in Hc as (Hnd' & _ & Hids & _); [|done].
  pose proof (Forall2_lookup_lr _ _ _ _ _ _ Hids Hp Hip) as H1.
  pose proof (Forall2_lookup_lr _ _ _ _ _ _ Hids Hq Hiq) as H2.
  split.
  - intros ->. congruence.
  - intros ->. exact (NoDup_lookup _ _ _ _ Hnd' H1 H2).
Qed.

End GrouperImpl_facts.

(** C3 *)
(** C3: for every sequence of consume calls on a Grouper, every group id
    emitted is below [num_groups], [num_groups] is the number of distinct
    keys consumed, and every id below [num_groups] is emitted for a
    consumed row. *)
Theorem grouper_dense_ids {K : Type} `{EqDecision K} (batches : list (list K)) :
  let r := GrouperImpl.ConsumeAll GrouperImpl.empty batches in
  let ids := concat (snd r) in
  Forall (fun id => (id < GrouperImpl.num_groups (fst r))%nat) ids ∧
  GrouperImpl.num_groups (fst r) = length (remove_dups (concat batches)) ∧
  (∀ i, (i < GrouperImpl.num_groups (fst r))%nat ->
        ∃ p k, concat batches !! p = Some k ∧ ids !! p = Some i).
Proof.
  destruct (GrouperImpl.ConsumeAll GrouperImpl.empty batches) as [g idss] eqn:E. simpl.
  apply ConsumeAll_concat in E.
  apply Consume_spec in E as (Hnd & _ & Hids & Hel); [|apply NoDup_nil_2].
  unfold GrouperImpl.num_groups. split_and!.
  - apply Forall_forall. intros id Hid.
    apply list_elem_of_lookup in Hid as [p Hp].
    destruct (Forall2_lookup_r _ _ _ _ _ Hids Hp) as (k & _ & Hk).
    by eapply lookup_lt_Some.
  - apply Permutation_length, NoDup_Permutation; [done|apply NoDup_remove_dups|].
    intros k. rewrite Hel, elem_of_remove_dups, elem_of_nil. tauto.
  - intros i Hi.
    destruct (lookup_lt_is_Some_2 g i Hi) as [k Hk].
    assert (k ∈ concat batches) as Hin.
    { pose proof (proj1 (Hel k)) as Hk'. destruct Hk' as [Hk'|Hk']; [|by apply elem_of_nil in Hk'|done].
      by eapply list_elem_of_lookup_2. }
    apply list_elem_of_lookup in Hin as [p Hp].
    destruct (Forall2_lookup_l _ _ _ _ _ Hids Hp) as (id & Hid & Hg).
    exists p, k. split; [done|]. rewrite Hid. f_equal.
    exact (NoDup_lookup _ _ _ _ Hnd Hg Hk).
Qed.

(** ** MakeGroupings *)

Lemma positions_from_elem id ids : ∀ pos p,
  p ∈ positions_from pos id ids ↔ (pos ≤ p)%nat ∧ ids !! (p - pos)%nat = Some (Some id).
Proof.
  induction ids as [|x ids IH]; intros pos p; simpl.
  - rewrite elem_of_nil, lookup_nil. split; [done|]. intros [_ ?]; discriminate.
  - destruct (decide (x = Some id)) as [->|Hne].
    + rewrite elem_of_cons, IH. split.
      * intros [->|[Hle Hl]].
        -- split; [lia|]. by rewrite Nat.sub_diag.
        -- split; [lia|]. by replace (p - pos)%nat with (S (p - S pos)) by lia.
      * intros [Hle Hl]. destruct (decide (p = pos)) as [->|Hp]; [by left|right].
        split; [lia|]. by replace (p - pos)%nat with (S (p - S pos)) in Hl by lia.
    + rewrite IH. split.
      * intros [Hle Hl]. split; [lia|].
        by replace (p - pos)%nat with (S (p - S pos)) by lia.
      * intros [Hle Hl]. destruct (decide (p = pos)) as [->|Hp].
        { rewrite Nat.sub_diag in Hl. simpl in Hl. congruence. }
        split; [lia|]. by replace (p - pos)%nat with (S (p - S pos)) in Hl by lia.
Qed.

Lemma positions_from_sorted id ids : ∀ pos,
  StronglySorted lt (positions_from pos id ids).
Proof.
  induction ids as [|x ids IH]; intros pos; simpl; [constructor|].
  destruct (decide (x = Some id)); [|done].
  constructor; [done|]. apply Forall_forall. intros p Hp.
  apply positions_from_elem in Hp. lia.
Qed.

Lemma null_count_0 {A} (cells : list (option A)) :
  null_count cells = 0%nat ↔ None ∉ cells.
Proof.
  unfold null_count. rewrite length_zero_iff_nil. split.
  - intros Hf Hin. assert (None ∈ filter (λ c : option A, c = None) cells) as Hin'
      by (by apply list_elem_of_filter).
    rewrite Hf in Hin'. by apply elem_of_nil in Hin'.
  - intros Hn. apply elem_of_nil_inv. intros c [-> Hc]%list_elem_of_filter. done.
Qed.

(** C5: for ids without nulls, [MakeGroupings ids num_groups] is a list of
    length [num_groups] whose i-th element is the ascending list of the
    positions at which [ids] holds [i] (empty when there is none); it is
    [[0,1,2],[3,4],[5],[]] for [0,0,0,1,1,2] and 4 groups; and for ids
    with a null it fails with Invalid "MakeGroupings with null ids". *)
Theorem MakeGroupings_spec (ids : list (option nat)) (num_groups : nat) :
  (None ∉ ids ->
   ∃ groupings, MakeGroupings ids num_groups = Ok groupings ∧
     length groupings = num_groups ∧
     ∀ i, (i < num_groups)%nat ->
       ∃ l, groupings !! i = Some l ∧ StronglySorted lt l ∧
            ∀ p, p ∈ l ↔ ids !! p = Some (Some i)) ∧
  (None ∈ ids ->
   MakeGroupings ids num_groups = Raise (mkStatus Invalid "MakeGroupings with null ids")) ∧
  MakeGroupings [Some 0; Some 0; Some 0; Some 1; Some 1; Some 2]%nat 4
    = Ok [[0; 1; 2]; [3; 4]; [5]; []]%nat.
Proof.
  split_and!; [| |reflexivity].
  - intros Hn. apply null_count_0 in Hn. unfold MakeGroupings.
    rewrite decide_True by done. eexists. split; [done|].
    split; [by rewrite length_map, length_seq|].
    intros i Hi. eexists. split_and!.
    + rewrite list_lookup_fmap, lookup_seq_lt by done. done.
    + apply positions_from_sorted.
    + intros p. rewrite positions_from_elem, Nat.sub_0_r. split; [by intros [_ ?]|intros ?; split; [lia|done]].
  - intros Hn. unfold MakeGroupings. rewrite decide_False.
    + reflexivity.
    + rewrite null_count_0. tauto.
Qed.

(** ** Floating-point keys *)

Example f32_constants :
  Float.decode Float.binary32 Float.f32_pos_zero = Float.Zero false ∧
  Float.decode Float.binary32 Float.f32_neg_zero = Float.Zero true ∧
  Float.decode Float.binary32 Float.f32_pos_inf = Float.Infinity false ∧
  Float.decode Float.binary32 Float.f32_neg_inf = Float.Infinity true ∧
  Float.decode Float.binary32 Float.f32_nan = Float.NaN.
Proof. repeat split; reflexivity. Qed.

Lemma float_key_ids_equivalence w batches p q a b ip iq :
  concat batches !! p = Some a -> concat batches !! q = Some b ->
  concat (float_key_ids w batches) !! p = Some ip ->
  concat (float_key_ids w batches) !! q = Some iq ->
  ip = iq ↔ KeyEncoder.encode_fixed w a = KeyEncoder.encode_fixed w b.
Proof.
  unfold float_key_ids. intros Hp Hq Hip Hiq.
  destruct (GrouperImpl.ConsumeAll _ _) as [g idss] eqn:E. simpl in *.
  apply ConsumeAll_concat in E.
  eapply (Consume_equivalence _ _ _ _ p q); [exact E|apply NoDup_nil_2| | |done|done].
  - rewrite <- (list_fmap_compose) || idtac.
    assert (concat (map (map (KeyEncoder.encode_fixed w)) batches)
            = map (KeyEncoder.encode_fixed w) (concat batches)) as ->.
    { clear. induction batches as [|x l IH]; simpl; [done|]. by rewrite IH, map_app. }
    by rewrite list_lookup_fmap, Hp.
  - assert (concat (map (map (KeyEncoder.encode_fixed w)) batches)
            = map (KeyEncoder.encode_fixed w) (concat batches)) as ->.
    { clear. induction batches as [|x l IH]; simpl; [done|]. by rewrite IH, map_app. }
    by rewrite list_lookup_fmap, Hq.
Qed.

(** The bytes of a cell determine its bit pattern. *)
Lemma le_bytes_inj w : ∀ a b,
  KeyEncoder.le_bytes w a = KeyEncoder.le_bytes w b ->
  a mod 2 ^ (8 * Z.of_nat w) = b mod 2 ^ (8 * Z.of_nat w).
Proof.
  induction w as [|w IH]; intros a b; [by rewrite !Z.mod_1_r|].
  cbn [KeyEncoder.le_bytes]. intros [= H0 Hrest]. apply IH in Hrest.
  replace (8 * Z.of_nat (S w)) with (8 + 8 * Z.of_nat w) by lia.
  rewrite Z.pow_add_r by lia. change (2 ^ 8) with 256.
  rewrite !Z.rem_mul_r by lia. by rewrite H0, Hrest.
Qed.

Lemma encode_fixed_inj w a b :
  0 ≤ a < 2 ^ (8 * Z.of_nat w) -> 0 ≤ b < 2 ^ (8 * Z.of_nat w) ->
  KeyEncoder.encode_fixed w (Some a) = KeyEncoder.encode_fixed w (Some b) -> a = b.
Proof.
  intros Ha Hb [= H]. apply le_bytes_inj in H. by rewrite !Z.mod_small in H.
Qed.

Example float_constants :
  Forall (fun f =>
            Float.decode f (Float.pos_zero f) = Float.Zero false ∧
            Float.decode f (Float.neg_zero f) = Float.Zero true ∧
            Float.decode f (Float.pos_inf f) = Float.Infinity false ∧
            Float.decode f (Float.neg_inf f) = Float.Infinity true ∧
            Float.decode f (Float.nan f) = Float.NaN ∧
            Float.is_nan f (Float.nan f) = true)
         Float.formats ∧
  Float.width <$> Float.formats = [2; 4; 8]%nat ∧
  [Float.pos_zero Float.binary32; Float.neg_zero Float.binary32;
   Float.pos_inf Float.binary32; Float.neg_inf Float.binary32; Float.nan Float.binary32]
  = [Float.f32_pos_zero; Float.f32_neg_zero; Float.f32_pos_inf; Float.f32_neg_inf;
     Float.f32_nan].
Proof. split; [repeat constructor|split; reflexivity]. Qed.

(** C6: over one key column of any of the floating-point types (float16,
    float32, float64), two cells get the same group id exactly when
    their bit patterns are the same.  So +0.0 and -0.0 get different
    group ids, two bitwise-equal NaNs get the same group id, and the keys
    0.0, -0.0, Inf, -Inf, NaN, NaN get the ids 0, 1, 2, 3, 4, 4, in one
    batch as well as in the three batches of the test. *)
Theorem float_key_groups (f : Float.format) :
  f ∈ Float.formats ->
  (∀ batches p q a b ip iq,
     0 ≤ a < 2 ^ (8 * Z.of_nat (Float.width f)) ->
     0 ≤ b < 2 ^ (8 * Z.of_nat (Float.width f)) ->
     concat batches !! p = Some (Some a) ->
     concat batches !! q = Some (Some b) ->
     concat (float_key_ids (Float.width f) batches) !! p = Some ip ->
     concat (float_key_ids (Float.width f) batches) !! q = Some iq ->
     ip = iq ↔ a = b) ∧
  (∀ batches p q ip iq,
     concat batches !! p = Some (Some (Float.pos_zero f)) ->
     concat batches !! q = Some (Some (Float.neg_zero f)) ->
     concat (float_key_ids (Float.width f) batches) !! p = Some ip ->
     concat (float_key_ids (Float.width f) batches) !! q = Some iq ->
     ip ≠ iq) ∧
  (∀ batches p q a b ip iq,
     Float.is_nan f a = true -> a = b ->
     concat batches !! p = Some (Some a) ->
     concat batches !! q = Some (Some b) ->
     concat (float_key_ids (Float.width f) batches) !! p = Some ip ->
     concat (float_key_ids (Float.width f) batches) !! q = Some iq ->
     ip = iq) ∧
  float_key_ids (Float.width f)
    [[Some (Float.pos_zero f); Some (Float.neg_zero f); Some (Float.pos_inf f);
      Some (Float.neg_inf f); Some (Float.nan f); Some (Float.nan f)]]
  = [[0; 1; 2; 3; 4; 4]]%nat ∧
  float_key_ids (Float.width f)
    [[Some (Float.pos_zero f); Some (Float.neg_zero f)];
     [Some (Float.pos_inf f); Some (Float.neg_inf f)];
     [Some (Float.nan f); Some (Float.nan f)]]
  = [[0; 1]; [2; 3]; [4; 4]]%nat.
Proof.
  intros Hf.
  assert (∀ batches p q a b ip iq,
     0 ≤ a < 2 ^ (8 * Z.of_nat (Float.width f)) ->
     0 ≤ b < 2 ^ (8 * Z.of_nat (Float.width f)) ->
     concat batches !! p = Some (Some a) ->
     concat batches !! q = Some (Some b) ->
     concat (float_key_ids (Float.width f) batches) !! p = Some ip ->
     concat (float_key_ids (Float.width f) batches) !! q = Some iq ->
     ip = iq ↔ a = b) as Hbits.
  { intros batches p q a b ip iq Ha Hb Hp Hq Hip Hiq.
    rewrite (float_key_ids_equivalence _ _ _ _ _ _ _ _ Hp Hq Hip Hiq).
    split; [by apply encode_fixed_inj|by intros ->]. }
  split_and!; [exact Hbits| | | |].
  - intros batches p q ip iq Hp Hq Hip Hiq Heq.
    assert (Float.pos_zero f ≠ Float.neg_zero f ∧
            0 ≤ Float.pos_zero f < 2 ^ (8 * Z.of_nat (Float.width f)) ∧
            0 ≤ Float.neg_zero f < 2 ^ (8 * Z.of_nat (Float.width f)))
      as (Hne & Ha & Hb).
    { unfold Float.formats in Hf.
      repeat (apply elem_of_cons in Hf as [->|Hf]);
        [vm_compute; repeat split; easy..|].
      by apply elem_of_nil in Hf. }
    apply Hne. by apply (Hbits batches p q _ _ ip iq Ha Hb Hp Hq Hip Hiq).
  - intros batches p q a b ip iq _ <- Hp Hq Hip Hiq.
    by apply (float_key_ids_equivalence _ _ _ _ _ _ _ _ Hp Hq Hip Hiq).
  - unfold Float.formats in Hf.
    repeat (apply elem_of_cons in Hf as [->|Hf]); [reflexivity..|].
    by apply elem_of_nil in Hf.
  - unfold Float.formats in Hf.
    repeat (apply elem_of_cons in Hf as [->|Hf]); [reflexivity..|].
    by apply elem_of_nil in Hf.
Qed.

(** ** Dictionary keys *)

Lemma DictGrouper_Consume_keeps g b g' ids d :
  DictGrouper.Consume g b = Ok (g', ids) ->
  DictGrouper.dictionary_ g = Some d ->
  DictGrouper.dictionary_ g' = Some d.
Proof.
  unfold DictGrouper.Consume. intros Hc Hd. rewrite Hd in Hc.
  destruct (decide (d = DictGrouper.dictionary b)); simpl in Hc; [|done].
  destruct (GrouperImpl.Consume _ _). by simplify_eq.
Qed.

Lemma DictGrouper_ConsumeAll_keeps batches : ∀ g g' idss d,
  DictGrouper.ConsumeAll g batches = Ok (g', idss) ->
  DictGrouper.dictionary_ g = Some d ->
  DictGrouper.dictionary_ g' = Some d.
Proof.
  induction batches as [|b batches IH]; intros g g' idss d Hc Hd; simpl in Hc.
  - by simplify_eq.
  - destruct (DictGrouper.Consume g b) as [[g1 ids]| |] eqn:E1; simpl in Hc; try done.
    destruct (DictGrouper.ConsumeAll g1 batches) as [[g2 idss2]| |] eqn:E2;
      simpl in Hc; try done.
    simplify_eq. eapply IH; [done|]. by eapply DictGrouper_Consume_keeps.
Qed.

(** C7: over dictionary-encoded keys the first consumed batch fixes the
    dictionary: after any sequence of successful calls the Grouper holds
    the first batch's dictionary, and a batch with a different dictionary
    fails with NotImplemented "Unifying differing dictionaries". *)
Theorem dictionary_fixed_by_first_batch
    (first : DictGrouper.DictionaryArray) (later : list DictGrouper.DictionaryArray)
    (g : DictGrouper.t) (idss : list (list nat)) (b : DictGrouper.DictionaryArray) :
  DictGrouper.ConsumeAll DictGrouper.Make (first :: later) = Ok (g, idss) ->
  DictGrouper.dictionary b ≠ DictGrouper.dictionary first ->
  DictGrouper.dictionary_ g = Some (DictGrouper.dictionary first) ∧
  DictGrouper.Consume g b
    = Raise (mkStatus NotImplemented "Unifying differing dictionaries").
Proof.
  intros Hc Hne. simpl in Hc.
  destruct (DictGrouper.Consume DictGrouper.Make first) as [[g1 ids]| |] eqn:E1;
    simpl in Hc; try done.
  destruct (DictGrouper.ConsumeAll g1 later) as [[g2 idss2]| |] eqn:E2;
    simpl in Hc; try done.
  simplify_eq.
  assert (DictGrouper.dictionary_ g1 = Some (DictGrouper.dictionary first)) as Hd1.
  { unfold DictGrouper.Consume in E1. simpl in E1.
    destruct (GrouperImpl.Consume _ _). by simplify_eq. }
  pose proof (DictGrouper_ConsumeAll_keeps _ _ _ _ _ E2 Hd1) as Hd.
  split; [done|]. unfold DictGrouper.Consume. rewrite Hd.
  rewrite decide_False by done. done.
Qed.

Lemma dictionary_divergence_S5 :
  ∃ g idss,
    DictGrouper.ConsumeAll DictGrouper.Make [dict_ab] = Ok (g, idss) ∧
    DictGrouper.Consume g dict_cd
      = Raise (mkStatus NotImplemented "Unifying differing dictionaries").
Proof.
  eexists _, _. split; [reflexivity|].
  apply (dictionary_fixed_by_first_batch dict_ab [] _ _ dict_cd eq_refl).
  vm_compute. discriminate.
Defined.

(** ** The node monad *)

Section monad_facts.
Context {St : Type}.

Lemma bind_Ok_inv {A B} (c : M St A) (f : A -> M St B) n b n' :
  (c ≫= f) n = (Ok b, n') ->
  ∃ a n0, c n = (Ok a, n0) ∧ f a n0 = (Ok b, n').
Proof.
  unfold mbind, M_bind. destruct (c n) as [[a| |] n0]; intros Hc; simplify_eq.
  by exists a, n0.
Qed.

Lemma bind_Ok {A B} (c : M St A) (f : A -> M St B) n a n0 :
  c n = (Ok a, n0) -> (c ≫= f) n = f a n0.
Proof. unfold mbind, M_bind. by intros ->. Qed.

Context (R : relation St) `{!PreOrder R}.

Lemma preserves_ret {A} (a : A) : preserves R (mret a : M St A).
Proof. intros n r n' [= <- <-]. reflexivity. Qed.

Lemma preserves_gets {A} (f : St -> A) : preserves R (gets f).
Proof. intros n r n' [= <- <-]. reflexivity. Qed.

Lemma preserves_lift {A} (x : Result A) : preserves R (lift x : M St A).
Proof. intros n r n' [= <- <-]. reflexivity. Qed.

Lemma preserves_modify (f : St -> St) :
  (∀ n, R n (f n)) -> preserves R (modify f).
Proof. intros Hf n r n' [= <- <-]. apply Hf. Qed.

Lemma preserves_bind {A B} (c : M St A) (f : A -> M St B) :
  preserves R c -> (∀ a, preserves R (f a)) -> preserves R (c ≫= f).
Proof.
  intros Hc Hf n r n'. unfold mbind, M_bind.
  destruct (c n) as [[a| |] n0] eqn:E; intros H; simplify_eq.
  - etrans; [by eapply Hc|by eapply Hf].
  - by eapply Hc.
  - by eapply Hc.
Qed.

Lemma preserves_forM_ {A} (l : list A) (body : A -> M St unit) :
  (∀ x, preserves R (body x)) -> preserves R (forM_ l body).
Proof.
  intros Hb. induction l as [|x l IH]; simpl.
  - apply preserves_ret.
  - apply preserves_bind; [apply Hb|by intros _].
Qed.
End monad_facts.

Create HintDb preserves.
#[local] Hint Resolve preserves_ret preserves_gets preserves_lift : preserves.

(** ** GroupByNode: a finished node ignores its input *)

Section GroupByNode_inert.
Context {KS : Type}.
Import GroupByNode.
Implicit Types (n : GroupByNode.t KS).

Lemma OutputNthBatch_finished n i :
  finished_ n = true -> OutputNthBatch i n = (Ok tt, n).
Proof.
  intros Hf. unfold OutputNthBatch, mbind, M_bind, gets. by rewrite Hf.
Qed.

Lemma InputReceived_finished n thread_id batch :
  finished_ n = true -> InputReceived thread_id batch n = (Ok tt, n).
Proof.
  intros Hf. unfold InputReceived, mbind, M_bind, gets. by rewrite Hf.
Qed.

Lemma InputFinished_finished n total_batches :
  finished_ n = true -> InputFinished total_batches n = (Ok tt, n).
Proof.
  intros Hf. unfold InputFinished, mbind, M_bind, gets. by rewrite Hf.
Qed.

Lemma RunTask_finished n k :
  finished_ n = true -> ∃ tasks, RunTask k n = (Ok tt, set_spawned tasks n).
Proof.
  intros Hf. unfold RunTask, mbind, M_bind, gets.
  destruct (spawned n !! k) as [i|] eqn:E.
  - exists (delete k (spawned n)). unfold modify.
    by rewrite OutputNthBatch_finished.
  - exists (spawned n). by destruct n.
Qed.

(** C10: once the finished future of a GroupByNode is resolved, every
    InputReceived, InputFinished and OutputNthBatch returns and leaves
    every field of the node as it was: no batch is consumed, no grouper
    or kernel state changes, nothing is delivered.  A sequence of such
    events (a pending task being run by the pool) only removes tasks
    from the pool. *)
Theorem finished_node_is_inert n (events : list Event) :
  finished_ n = true ->
  Forall is_input_or_task events ->
  (∀ thread_id batch, InputReceived thread_id batch n = (Ok tt, n)) ∧
  (∀ total_batches, InputFinished total_batches n = (Ok tt, n)) ∧
  (∀ i, OutputNthBatch i n = (Ok tt, n)) ∧
  ∃ tasks, run events n = (Ok tt, set_spawned tasks n).
Proof.
  intros Hf Hev. split_and!;
    [by intros; apply InputReceived_finished
    |by intros; apply InputFinished_finished
    |by intros; apply OutputNthBatch_finished|].
  revert n Hf. induction Hev as [|e events He _ IH]; intros n Hf.
  - exists (spawned n). by destruct n.
  - assert (∃ tasks, step e n = (Ok tt, set_spawned tasks n)) as [tasks1 H1].
    { destruct e; simpl in *; try done.
      + exists (spawned n). rewrite InputReceived_finished by done. by destruct n.
      + exists (spawned n). rewrite InputFinished_finished by done. by destruct n.
      + by apply RunTask_finished. }
    destruct (IH (set_spawned tasks1 n)) as [tasks2 H2]; [done|].
    exists tasks2. unfold run in *. simpl. unfold mbind, M_bind. rewrite H1, H2.
    by destruct n.
Qed.
End GroupByNode_inert.

Ltac pres_step :=
  first
    [ solve [auto with preserves]
    | apply preserves_ret; try exact _
    | apply preserves_gets; try exact _
    | apply preserves_lift; try exact _
    | apply preserves_bind; [try exact _ .. | intros ?]
    | apply preserves_forM_; [try exact _ .. | intros ?]
    | apply preserves_modify; [try exact _ .. | intros ?; solve [auto]]
    | match goal with
      | |- preserves _ (match ?x with _ => _ end) => destruct x
      end ].
Ltac pres := repeat pres_step.

(** ** GroupByNode: what the parts of a member function leave alone *)

Section GroupByNode_frame.
Context {KS : Type}.
Import GroupByNode.
Implicit Types (n : GroupByNode.t KS).

(** A relation that the writes to the thread indexer, to the input
    counter and to the thread-local states keep. *)
Context (R : relation (GroupByNode.t KS)) `{!PreOrder R}.
Hypothesis R_thread : ∀ n x, R n (set_get_thread_index_ x n).
Hypothesis R_input : ∀ n x, R n (set_input_counter_ x n).
Hypothesis R_local : ∀ n x, R n (set_local_states_ x n).

Lemma preserves_thread_index thread_id : preserves R (thread_index (KS:=KS) thread_id).
Proof.
  intros n r n'. unfold thread_index.
  destruct (ThreadIndexer.index _ _). intros [= <- <-]. apply R_thread.
Qed.

Lemma preserves_input_counter_Increment : preserves R (input_counter_Increment (KS:=KS)).
Proof.
  intros n r n'. unfold input_counter_Increment.
  destruct (AtomicCounter.Increment _). intros [= <- <-]. apply R_input.
Qed.

Lemma preserves_input_counter_SetTotal total :
  preserves R (input_counter_SetTotal (KS:=KS) total).
Proof.
  intros n r n'. unfold input_counter_SetTotal.
  destruct (AtomicCounter.SetTotal _ _). intros [= <- <-]. apply R_input.
Qed.

Lemma preserves_input_counter_Cancel : preserves R (input_counter_Cancel (KS:=KS)).
Proof.
  intros n r n'. unfold input_counter_Cancel.
  destruct (AtomicCounter.Cancel _). intros [= <- <-]. apply R_input.
Qed.

Lemma preserves_local_state i : preserves R (local_state (KS:=KS) i).
Proof. unfold local_state. pres. Qed.

Lemma preserves_set_local_state i s : preserves R (set_local_state (KS:=KS) i s).
Proof. unfold set_local_state. pres. Qed.

Hint Resolve preserves_thread_index preserves_input_counter_Increment
  preserves_input_counter_SetTotal preserves_input_counter_Cancel
  preserves_local_state preserves_set_local_state : preserves.

Lemma preserves_set_grouper i g : preserves R (set_grouper (KS:=KS) i g).
Proof. unfold set_grouper. pres. Qed.

Lemma preserves_set_agg_states i a : preserves R (set_agg_states (KS:=KS) i a).
Proof. unfold set_agg_states. pres. Qed.

Hint Resolve preserves_set_grouper preserves_set_agg_states : preserves.

Lemma preserves_set_agg_state i k a : preserves R (set_agg_state (KS:=KS) i k a).
Proof. unfold set_agg_state. pres. Qed.

Lemma preserves_the_grouper i : preserves R (the_grouper (KS:=KS) i).
Proof. unfold the_grouper. pres. Qed.

Lemma preserves_the_agg_state i k : preserves R (the_agg_state (KS:=KS) i k).
Proof. unfold the_agg_state. pres. Qed.

Hint Resolve preserves_set_agg_state preserves_the_grouper preserves_the_agg_state
  : preserves.

Lemma preserves_InitLocalStateIfNeeded i :
  preserves R (InitLocalStateIfNeeded (KS:=KS) i).
Proof. unfold InitLocalStateIfNeeded. pres. Qed.

Hint Resolve preserves_InitLocalStateIfNeeded : preserves.

Lemma preserves_consume_kernel i batch id_batch k :
  preserves R (consume_kernel (KS:=KS) i batch id_batch k).
Proof. unfold consume_kernel. pres. Qed.

Hint Resolve preserves_consume_kernel : preserves.

Lemma preserves_Consume thread_id batch : preserves R (Consume (KS:=KS) thread_id batch).
Proof. unfold Consume. pres. Qed.

Lemma preserves_merge_kernel i transposition k :
  preserves R (merge_kernel (KS:=KS) i transposition k).
Proof. unfold merge_kernel. pres. Qed.

Hint Resolve preserves_merge_kernel : preserves.

Lemma preserves_merge_state i : preserves R (merge_state (KS:=KS) i).
Proof. unfold merge_state. pres. Qed.

Hint Resolve preserves_merge_state : preserves.

Lemma preserves_Merge : preserves R (Merge (KS:=KS)).
Proof. unfold Merge. pres. Qed.

Lemma preserves_finalize_kernel k : preserves R (finalize_kernel (KS:=KS) k).
Proof. unfold finalize_kernel. pres. Qed.

Hint Resolve preserves_finalize_kernel : preserves.

Lemma preserves_finalize_kernels ks : preserves R (finalize_kernels (KS:=KS) ks).
Proof. induction ks; simpl; pres. Qed.

End GroupByNode_frame.

Lemma delivered_app (c1 c2 : list Call) :
  delivered (c1 ++ c2) = delivered c1 ++ delivered c2.
Proof. apply omap_app. Qed.

Section GroupByNode_chunks.
Context {KS : Type}.
Import GroupByNode.
Implicit Types (n : GroupByNode.t KS).

Lemma extends_preorder : PreOrder (extends (KS:=KS)).
Proof.
  split.
  - intros n. split; [done|]. exists []. by rewrite app_nil_r.
  - intros n1 n2 n3 [Hc1 (new1 & Hn1 & Hf1)] [Hc2 (new2 & Hn2 & Hf2)].
    split; [congruence|]. exists (new1 ++ new2). split.
    + by rewrite Hn2, Hn1, app_assoc.
    + rewrite delivered_app. apply Forall_app. split; [done|].
      unfold output_batch_size in *. by rewrite <- Hc1.
Qed.
#[local] Existing Instance extends_preorder.

(** A write to a field other than the context and the calls. *)
Lemma extends_same n n' :
  ctx_ n' = ctx_ n -> calls n' = calls n -> extends n n'.
Proof. intros Hc Hl. split; [done|]. exists []. by rewrite app_nil_r. Qed.

(** A call that is not a delivery, or that delivers a chunk. *)
Lemma extends_call n c :
  match c with
  | Output_InputReceived b => ExecBatch.length b ≤ output_batch_size n
  | _ => True
  end ->
  extends n (set_calls (calls n ++ [c]) n).
Proof.
  intros Hc. split; [done|]. exists [c]. split; [done|].
  destruct c; simpl; try constructor; done.
Qed.

Lemma preserves_call c :
  (∀ b, c ≠ Output_InputReceived b) -> preserves extends (call (KS:=KS) c).
Proof.
  intros Hc. unfold call. apply preserves_modify. intros n. apply extends_call.
  destruct c; try done. by destruct (Hc batch).
Qed.

Lemma preserves_MarkFinished : preserves extends (MarkFinished (KS:=KS)).
Proof. apply preserves_modify. intros n. by apply extends_same. Qed.

Lemma preserves_ErrorIfNotOk (c : M (GroupByNode.t KS) unit) :
  preserves extends c -> preserves extends (ErrorIfNotOk c).
Proof.
  intros Hc n r n'. unfold ErrorIfNotOk.
  destruct (c n) as [[[]|s|] n0] eqn:E; intros [= <- <-].
  - by eapply Hc.
  - etrans; [by eapply Hc|]. by apply extends_call.
  - by eapply Hc.
Qed.

Lemma preserves_output_counter_Increment :
  preserves extends (output_counter_Increment (KS:=KS)).
Proof.
  intros n r n'. unfold output_counter_Increment.
  destruct (AtomicCounter.Increment _). intros [= <- <-]. by apply extends_same.
Qed.

Lemma preserves_output_counter_SetTotal total :
  preserves extends (output_counter_SetTotal (KS:=KS) total).
Proof.
  intros n r n'. unfold output_counter_SetTotal.
  destruct (AtomicCounter.SetTotal _ _). intros [= <- <-]. by apply extends_same.
Qed.

Lemma preserves_output_counter_Cancel :
  preserves extends (output_counter_Cancel (KS:=KS)).
Proof.
  intros n r n'. unfold output_counter_Cancel.
  destruct (AtomicCounter.Cancel _). intros [= <- <-]. by apply extends_same.
Qed.

Lemma extends_thread n x : extends n (set_get_thread_index_ x n).
Proof. by apply extends_same. Qed.
Lemma extends_input n x : extends n (set_input_counter_ x n).
Proof. by apply extends_same. Qed.
Lemma extends_local n x : extends n (set_local_states_ x n).
Proof. by apply extends_same. Qed.
Lemma extends_out_data n x : extends n (set_out_data_ x n).
Proof. by apply extends_same. Qed.
Lemma extends_spawned n x : extends n (set_spawned x n).
Proof. by apply extends_same. Qed.
Lemma extends_finished n x : extends n (set_finished_ x n).
Proof. by apply extends_same. Qed.
Lemma extends_local_states n x : extends n (set_local_states_ x n).
Proof. by apply extends_same. Qed.

Hint Resolve extends_thread extends_input extends_local extends_out_data
  extends_spawned extends_finished : core.
Hint Resolve preserves_MarkFinished preserves_output_counter_Increment
  preserves_output_counter_SetTotal preserves_output_counter_Cancel
  preserves_ErrorIfNotOk : preserves.
Hint Extern 1 (preserves extends (call _)) =>
  (apply preserves_call; intros ?; discriminate) : preserves.

Ltac frame_lemma l := apply l; first [exact _ | solve [auto]].

Hint Extern 1 (preserves extends (Consume _ _)) =>
  frame_lemma (preserves_Consume (KS:=KS)) : preserves.
Hint Extern 1 (preserves extends Merge) =>
  frame_lemma (preserves_Merge (KS:=KS)) : preserves.
Hint Extern 1 (preserves extends (InitLocalStateIfNeeded _)) =>
  frame_lemma (preserves_InitLocalStateIfNeeded (KS:=KS)) : preserves.
Hint Extern 1 (preserves extends (the_grouper _)) =>
  frame_lemma (preserves_the_grouper (KS:=KS)) : preserves.
Hint Extern 1 (preserves extends (set_grouper _ _)) =>
  frame_lemma (preserves_set_grouper (KS:=KS)) : preserves.
Hint Extern 1 (preserves extends (finalize_kernels _)) =>
  frame_lemma (preserves_finalize_kernels (KS:=KS)) : preserves.
Hint Extern 1 (preserves extends input_counter_Increment) =>
  frame_lemma (preserves_input_counter_Increment (KS:=KS)) : preserves.
Hint Extern 1 (preserves extends (input_counter_SetTotal _)) =>
  frame_lemma (preserves_input_counter_SetTotal (KS:=KS)) : preserves.
Hint Extern 1 (preserves extends input_counter_Cancel) =>
  frame_lemma (preserves_input_counter_Cancel (KS:=KS)) : preserves.

Lemma preserves_Finalize : preserves extends (Finalize (KS:=KS)).
Proof. unfold Finalize. pres. Qed.

(** The one place where a batch is delivered: the chunk is a slice of
    [output_batch_size] rows. *)
Lemma preserves_OutputNthBatch i : preserves extends (OutputNthBatch (KS:=KS) i).
Proof.
  intros n r n'. unfold OutputNthBatch, mbind, M_bind, gets.
  destruct (finished_ n); [by intros [= <- <-]|].
  unfold call, modify, output_counter_Increment, MarkFinished, modify. simpl.
  destruct (AtomicCounter.Increment _) as [[] c]; intros [= <- <-].
  all: split; [done|]; eexists [_]; split; [done|]; simpl.
  all: constructor; [|done]; simpl; lia.
Qed.

Lemma preserves_Spawn i : preserves extends (Spawn (KS:=KS) i).
Proof. unfold Spawn. pres. Qed.

Hint Resolve preserves_Finalize preserves_OutputNthBatch preserves_Spawn : preserves.

Lemma preserves_output_loop has_executor batches :
  preserves extends (output_loop (KS:=KS) has_executor batches).
Proof. induction batches; cbn [output_loop]; pres. Qed.

Hint Resolve preserves_output_loop : preserves.

Lemma preserves_OutputResult : preserves extends (OutputResult (KS:=KS)).
Proof. unfold OutputResult. pres. Qed.

Hint Resolve preserves_OutputResult : preserves.

Lemma preserves_step e : preserves extends (step (KS:=KS) e).
Proof.
  destruct e; simpl.
  - unfold InputReceived. pres.
  - unfold InputFinished. pres.
  - unfold ErrorReceived. pres.
  - unfold StopProducing. pres.
  - unfold RunTask. pres.
Qed.

Lemma preserves_run events : preserves extends (run (KS:=KS) events).
Proof. apply preserves_forM_; [exact _|]. apply preserves_step. Qed.

(** X18: [output_batch_size] is the default 32 * 1024 when the exec
    chunk size is negative as an [int], and the exec chunk size as an
    [int] when that is positive (the chunk size itself when it lies in
    (0, 2^31)); in every run of the node every batch delivered
    downstream has at most [output_batch_size] rows. *)
Theorem chunks_within_output_batch_size n (events : list Event) :
  (to_int (exec_chunksize (ctx_ n)) < 0 -> output_batch_size n = 32 * 1024) ∧
  (0 < to_int (exec_chunksize (ctx_ n)) ->
   output_batch_size n = to_int (exec_chunksize (ctx_ n))) ∧
  (0 < exec_chunksize (ctx_ n) < 2 ^ 31 ->
   output_batch_size n = exec_chunksize (ctx_ n)) ∧
  ∀ r n', run events n = (r, n') ->
    ∃ new, calls n' = calls n ++ new ∧
      Forall (fun b => ExecBatch.length b ≤ output_batch_size n) (delivered new).
Proof.
  split_and!.
  - intros Hc. unfold output_batch_size.
    destruct (Z.ltb_spec (to_int (exec_chunksize (ctx_ n))) 0); [done|lia].
  - intros Hc. unfold output_batch_size.
    destruct (Z.ltb_spec (to_int (exec_chunksize (ctx_ n))) 0); [lia|done].
  - intros Hc. unfold output_batch_size, to_int.
    rewrite Z.mod_small by lia.
    destruct (Z.ltb_spec (exec_chunksize (ctx_ n) + 2 ^ 31 - 2 ^ 31) 0); lia.
  - intros r n' Hrun. by destruct (preserves_run events n r n' Hrun) as [_ ?].
Qed.
End GroupByNode_chunks.

Section GroupByNode_output.
Context {KS : Type}.
Import GroupByNode.
Implicit Types (n : GroupByNode.t KS).

Lemma same_output_preorder : PreOrder (same_output (KS:=KS)).
Proof.
  split.
  - by intros n.
  - intros n1 n2 n3 (?&?&?&?&?&?) (?&?&?&?&?&?). unfold same_output.
    split_and!; congruence.
Qed.
#[local] Existing Instance same_output_preorder.

Lemma Merge_same_output n r n' : Merge n = (r, n') -> same_output n n'.
Proof. apply preserves_Merge; first [exact _|done]. Qed.

(** [Finalize] leaves the output side alone up to its last step, which
    records the number of chunks. *)
Lemma Finalize_Ok n out n1 :
  Finalize n = (Ok out, n1) ->
  ∃ num, CeilDiv (ExecBatch.length out) (output_batch_size n) = Ok num ∧
    ctx_ n1 = ctx_ n ∧ calls n1 = calls n ∧ spawned n1 = spawned n ∧
    output_counter_ n1 = snd (AtomicCounter.SetTotal (output_counter_ n) (to_int num)) ∧
    finished_ n1 =
      fst (AtomicCounter.SetTotal (output_counter_ n) (to_int num)) || finished_ n.
Proof.
  unfold Finalize. intros H.
  apply bind_Ok_inv in H as (? & na & Ha & H).
  apply preserves_InitLocalStateIfNeeded with (R := same_output) in Ha; [|first [exact _|done]..].
  apply bind_Ok_inv in H as (g & nb & Hb & H).
  apply preserves_the_grouper with (R := same_output) in Hb; [|first [exact _|done]..].
  apply bind_Ok_inv in H as (kernels & ? & [= <- <-] & H).
  apply bind_Ok_inv in H as (agg_columns & nc & Hc & H).
  apply preserves_finalize_kernels with (R := same_output) in Hc; [|first [exact _|done]..].
  apply bind_Ok_inv in H as (out_keys & ? & [= Hk <-] & H).
  apply bind_Ok_inv in H as (? & nd & Hd & H).
  apply preserves_set_grouper with (R := same_output) in Hd; [|first [exact _|done]..].
  assert (same_output n nd) as (Hctx & Hoc & Hfin & Hcalls & Hsp & _).
  { etrans; [done|]. etrans; [done|]. by etrans. }
  clear Ha Hb Hc Hd.
  unfold mbind, M_bind, gets, lift, output_counter_SetTotal, MarkFinished, modify,
    mret, M_ret in H.
  unfold output_batch_size in *. rewrite Hctx in H.
  destruct (CeilDiv _ _) as [num| |] eqn:Hnum; try done.
  rewrite Hoc in H. exists num.
  destruct (AtomicCounter.SetTotal _ _) as [[] c]; simplify_eq; simpl;
    by rewrite ?Hfin.
Qed.

Lemma OutputNthBatch_running n i :
  finished_ n = false -> OutputNthBatch i n = (Ok tt, deliver n i).
Proof.
  intros Hfin. unfold OutputNthBatch, deliver, mbind, M_bind, gets. rewrite Hfin.
  unfold call, modify, output_counter_Increment, MarkFinished, modify. simpl.
  by destruct (AtomicCounter.Increment _) as [[] c].
Qed.

Lemma RunTask_Some n k i :
  spawned n !! k = Some i ->
  RunTask k n = OutputNthBatch i (set_spawned (delete k (spawned n)) n).
Proof. intros Hk. unfold RunTask, mbind, M_bind, gets, modify. by rewrite Hk. Qed.

Lemma RunTask_None n k : spawned n !! k = None -> RunTask k n = (Ok tt, n).
Proof. intros Hk. unfold RunTask, mbind, M_bind, gets. by rewrite Hk. Qed.

(** Without an executor the loop delivers the chunks itself, one after
    the other. *)
Lemma output_loop_serial m : ∀ j n,
  finished_ n = false ->
  output_counter_ n = AtomicCounter.mk (Z.of_nat j) (Some (Z.of_nat (j + m))) false ->
  ∃ n', output_loop false (Z.of_nat <$> seq j m) n = (Ok tt, n') ∧
    calls n' = calls n ++ (chunk n <$> (Z.of_nat <$> seq j m)) ∧
    spawned n' = spawned n.
Proof.
  induction m as [|m IH]; intros j n Hfin Hoc.
  - exists n. simpl. by rewrite app_nil_r.
  - cbn [seq fmap list_fmap output_loop].
    rewrite (bind_Ok _ _ _ _ _ (OutputNthBatch_running n _ Hfin)).
    unfold deliver. rewrite Hoc. unfold AtomicCounter.Increment.
    cbn [AtomicCounter.count_ AtomicCounter.total_ AtomicCounter.complete_].
    destruct (decide _) as [Heq|Hne].
    + assert (m = 0%nat) as -> by (injection Heq; lia).
      simpl. eexists. split; [done|]. done.
    + assert (m ≠ 0%nat) as Hm by (intros ->; apply Hne; f_equal; lia).
      cbn [id].
      set (n1 := set_output_counter_ _ _).
      destruct (IH (S j) n1) as (n' & Hrun & Hcalls & Hsp).
      { done. }
      { subst n1. simpl. f_equal; [lia|]. f_equal. lia. }
      exists n'. split; [done|]. rewrite Hcalls. subst n1. simpl.
      rewrite <- app_assoc. done.
Qed.

(** The pool takes the task, or refuses it and nothing changes. *)
Lemma Spawn_cases i n :
  Spawn i n = (Ok tt, set_spawned (spawned n ++ [i]) n) ∨
  (∃ s, Spawn i n = (Raise s, n)) ∨ Spawn i n = (Undefined, n).
Proof.
  unfold Spawn, mbind, M_bind, gets, lift, modify.
  destruct (executor_Spawn (ctx_ n) i) as [[]|s|]; eauto.
Qed.

(** With an executor the loop only hands the tasks to the pool, in
    ascending order, and ends at the first task the pool refuses. *)
Lemma output_loop_spawn batches : ∀ n,
  finished_ n = false ->
  output_loop true batches n
  = (offered (executor_Spawn (ctx_ n)) batches,
     set_spawned (spawned n ++ accepted (executor_Spawn (ctx_ n)) batches) n).
Proof.
  induction batches as [|i batches IH]; intros n Hfin.
  - simpl. rewrite app_nil_r. by destruct n.
  - cbn [output_loop offered accepted].
    unfold mbind at 1, M_bind at 1, gets at 1. rewrite Hfin.
    unfold Spawn, mbind, M_bind, gets, lift, modify.
    destruct (executor_Spawn (ctx_ n) i) as [[]| |] eqn:Hi; simpl.
    + rewrite IH by done. destruct n; simpl.
      by rewrite <- app_assoc.
    + rewrite app_nil_r. by destruct n.
    + rewrite app_nil_r. by destruct n.
Qed.

Lemma deliver_pending n k i :
  tasks_pending n -> spawned n !! k = Some i ->
  tasks_pending (deliver (set_spawned (delete k (spawned n)) n) i).
Proof.
  intros [Hnil|(Hfin & Hc & total & Ht & Hle)] Hk; [by rewrite Hnil in Hk|].
  pose proof (lookup_lt_Some _ _ _ Hk) as Hlt.
  pose proof (length_delete (spawned n) k (mk_is_Some _ _ Hk)) as Hlen.
  unfold deliver, AtomicCounter.Increment, AtomicCounter.DoneOnce.
  cbn [output_counter_ set_spawned].
  cbn [AtomicCounter.count_ AtomicCounter.total_ AtomicCounter.complete_].
  rewrite Hc, Ht.
  destruct (decide _) as [Heq|Hne].
  - left. simpl. apply nil_length_inv. injection Heq. lia.
  - right. simpl. split_and!; [done..|]. exists total. split; [done|]. lia.
Qed.

Lemma deliver_calls n i : calls (deliver n i) = calls n ++ [chunk n i].
Proof.
  unfold deliver. by destruct (AtomicCounter.Increment _) as [[] c].
Qed.

Lemma chunk_deliver n i j : chunk (deliver n i) j = chunk n j.
Proof.
  unfold deliver. by destruct (AtomicCounter.Increment _) as [[] c].
Qed.

Lemma spawned_deliver n i : spawned (deliver n i) = spawned n.
Proof.
  unfold deliver. by destruct (AtomicCounter.Increment _) as [[] c].
Qed.

Lemma run_tasks ks : ∀ n,
  tasks_pending n ->
  ∃ n', run (EvRunTask <$> ks) n = (Ok tt, n') ∧
    calls n' = calls n ++ (chunk n <$> picks ks (spawned n)).
Proof.
  induction ks as [|k ks IH]; intros n Hp.
  - exists n. simpl. by rewrite app_nil_r.
  - cbn [fmap list_fmap run forM_ step picks].
    destruct (spawned n !! k) as [i|] eqn:Hk.
    + assert (finished_ n = false) as Hfin.
      { destruct Hp as [Hnil|(Hfin & _)]; [by rewrite Hnil in Hk|done]. }
      pose proof (deliver_pending n k i Hp Hk) as Hp'.
      set (n0 := set_spawned (delete k (spawned n)) n) in *.
      assert (RunTask k n = (Ok tt, deliver n0 i)) as Hrun.
      { rewrite (RunTask_Some _ _ _ Hk). by apply OutputNthBatch_running. }
      rewrite (bind_Ok _ _ _ _ _ Hrun).
      destruct (IH _ Hp') as (n' & Hrun' & Hcalls).
      exists n'. split; [done|]. rewrite Hcalls, deliver_calls, spawned_deliver.
      rewrite <- app_assoc. simpl. f_equal. f_equal.
      apply list_fmap_ext. intros ? j _. by rewrite chunk_deliver.
    + rewrite (bind_Ok _ _ _ _ _ (RunTask_None _ _ Hk)).
      destruct (IH n Hp) as (n' & Hrun & Hcalls). by exists n'.
Qed.
End GroupByNode_output.

Section GroupByNode_order.
Context {KS : Type}.
Import GroupByNode.
Implicit Types (n : GroupByNode.t KS).

Lemma delivered_chunks n (f : Z -> ExecBatch.t) (tasks : list Z) :
  (∀ i, chunk n i = Output_InputReceived (f i)) ->
  delivered (chunk n <$> tasks) = f <$> tasks.
Proof.
  intros Hf. induction tasks as [|i tasks IH]; [done|].
  rewrite !fmap_cons, Hf. unfold delivered in *. cbn [omap list_omap].
  by rewrite IH.
Qed.

Lemma SetTotal_init k :
  AtomicCounter.SetTotal AtomicCounter.init k =
  (bool_decide (k = 0), AtomicCounter.mk 0 (Some k) (bool_decide (k = 0))).
Proof.
  unfold AtomicCounter.SetTotal, AtomicCounter.init, AtomicCounter.DoneOnce. simpl.
  destruct (decide (0 = k)) as [<-|Hne]; [done|].
  rewrite !bool_decide_eq_false_2 by lia. done.
Qed.

(** A pool that takes every task. *)
Lemma accepted_all spawn (tasks : list Z) :
  (∀ i, spawn i = Ok tt) ->
  accepted spawn tasks = tasks ∧ offered spawn tasks = Ok tt.
Proof.
  intros Hall. induction tasks as [|i tasks [IH1 IH2]]; simpl; [done|].
  by rewrite Hall, IH1, IH2.
Qed.

Lemma accepted_length spawn (tasks : list Z) :
  (length (accepted spawn tasks) ≤ length tasks)%nat.
Proof.
  induction tasks as [|i tasks IH]; simpl; [done|].
  destruct (spawn i); simpl; lia.
Qed.

(** C2, amended: when merge and finalize succeed on a node that has not
    produced output yet: without an executor [OutputResult] succeeds and
    delivers the chunks in ascending row-index order.  With an executor
    it delivers nothing itself: it hands the chunks to the pool as tasks
    in ascending order, up to the first task the pool refuses, whose
    status it then returns; and the chunks of the tasks the pool took
    are delivered in the order in which the pool runs them. *)
Theorem output_order n (out : ExecBatch.t) n1 :
  finished_ n = false ->
  output_counter_ n = AtomicCounter.init ->
  spawned n = [] ->
  (Merge ;; Finalize) n = (Ok out, n1) ->
  ∃ num n2,
    CeilDiv (ExecBatch.length out) (output_batch_size n) = Ok num ∧
    let chunks :=
      fmap (fun i => ExecBatch.Slice out (output_batch_size n * i) (output_batch_size n)) in
    let tasks := Z.of_nat <$> seq 0 (Z.to_nat (to_int num)) in
    if executor (ctx_ n) then
      OutputResult n = (offered (executor_Spawn (ctx_ n)) tasks, n2) ∧
      delivered (calls n2) = delivered (calls n) ∧
      spawned n2 = accepted (executor_Spawn (ctx_ n)) tasks ∧
      ∀ ks, ∃ n3, run (EvRunTask <$> ks) n2 = (Ok tt, n3) ∧
        delivered (calls n3) = delivered (calls n) ++ chunks (picks ks (spawned n2))
    else
      OutputResult n = (Ok tt, n2) ∧
      delivered (calls n2) = delivered (calls n) ++ chunks tasks.
Proof.
  intros Hfin Hoc Hsp H.
  apply bind_Ok_inv in H as ([] & nm & HMerge & HFinalize).
  pose proof (Merge_same_output _ _ _ HMerge) as (Hctx & Hoc' & Hfin' & Hcalls & Hsp' & _).
  destruct (Finalize_Ok _ _ _ HFinalize) as (num & Hnum & Hctx1 & Hcalls1 & Hsp1 & Hoc1 & Hfin1).
  assert (output_batch_size nm = output_batch_size n) as Hbs
    by (unfold output_batch_size; by rewrite Hctx).
  rewrite Hbs in Hnum. rewrite Hoc', Hoc, SetTotal_init in Hoc1, Hfin1.
  simpl in Hoc1, Hfin1. rewrite Hfin', Hfin, orb_false_r in Hfin1.
  set (k := to_int num) in *.
  exists num.
  set (n1' := set_calls (calls n1 ++ [Output_InputFinished k]) (set_out_data_ out n1)).
  assert (∀ i, chunk n1' i = Output_InputReceived
    (ExecBatch.Slice out (output_batch_size n * i) (output_batch_size n))) as Hchunk.
  { intros i. unfold chunk, output_batch_size. subst n1'. simpl. by rewrite Hctx1, Hctx. }
  assert (delivered (calls n1') = delivered (calls n)) as Hdel.
  { subst n1'. simpl. rewrite delivered_app, Hcalls1, Hcalls. simpl. by rewrite app_nil_r. }
  assert (OutputResult n =
          output_loop (executor (ctx_ n)) (Z.of_nat <$> seq 0 (Z.to_nat k)) n1') as ->.
  { unfold OutputResult. rewrite (bind_Ok _ _ _ _ _ HMerge).
    rewrite (bind_Ok _ _ _ _ _ HFinalize).
    unfold mbind, M_bind, modify, gets, lift, call, modify.
    cbn [output_counter_ set_out_data_ AtomicCounter.total]. rewrite Hoc1.
    cbn [AtomicCounter.total_ deref ctx_ set_calls set_out_data_].
    by rewrite Hctx1, Hctx. }
  set (tasks := Z.of_nat <$> seq 0 (Z.to_nat k)).
  assert (spawned n1' = []) as Hsp1'.
  { subst n1'. simpl. by rewrite Hsp1, Hsp'. }
  assert (output_counter_ n1' = AtomicCounter.mk 0 (Some k) (bool_decide (k = 0))) as Hoc1'
    by (by subst n1').
  assert (finished_ n1' = bool_decide (k = 0)) as Hfin1' by (by subst n1').
  assert (ctx_ n1' = ctx_ n) as Hctx1' by (subst n1'; simpl; by rewrite Hctx1, Hctx).
  clearbody n1'.
  assert (tasks = [] ∨ (0 < k ∧ length tasks = Z.to_nat k ∧ finished_ n1' = false ∧
            output_counter_ n1' = AtomicCounter.mk 0 (Some k) false)) as Hk.
  { destruct (decide (0 < k)) as [Hpos|Hneg].
    - right. assert (bool_decide (k = 0) = false) as Hb
        by (apply bool_decide_eq_false_2; lia).
      rewrite Hb in Hfin1', Hoc1'. split_and!; [done| |done|done].
      subst tasks. by rewrite length_fmap, length_seq.
    - left. subst tasks. by replace (Z.to_nat k) with 0%nat by lia. }
  destruct (executor (ctx_ n)).
  - (* the tasks are handed to the pool *)
    set (spawn := executor_Spawn (ctx_ n)).
    assert (∃ n2, output_loop true tasks n1' = (offered spawn tasks, n2) ∧
              calls n2 = calls n1' ∧ spawned n2 = accepted spawn tasks ∧
              tasks_pending n2 ∧
              ∀ i, chunk n2 i = chunk n1' i) as (n2 & Hloop & Hc2 & Hs2 & Hp2 & Hch2).
    { destruct Hk as [->|(Hpos & Hlen & Hf & Hc)].
      - exists n1'. split_and!; [done..|by left|done].
      - exists (set_spawned (spawned n1' ++ accepted spawn tasks) n1').
        rewrite output_loop_spawn by done. rewrite Hsp1', Hctx1'. simpl.
        split_and!; [done..| |done].
        right. simpl. rewrite Hf, Hc. simpl. split_and!; [done..|].
        exists k. split; [done|].
        pose proof (accepted_length spawn tasks). lia. }
    exists n2. split; [done|]. cbv zeta.
    split_and!; [done|by rewrite Hc2|done|].
    intros ks. destruct (run_tasks ks n2 Hp2) as (n3 & Hrun & Hc3).
    exists n3. split; [done|].
    rewrite Hc3, delivered_app, Hc2, Hdel. f_equal.
    apply delivered_chunks. intros i. by rewrite Hch2, Hchunk.
  - (* the loop delivers the chunks itself *)
    assert (∃ n2, output_loop false tasks n1' = (Ok tt, n2) ∧
              calls n2 = calls n1' ++ (chunk n1' <$> tasks)) as (n2 & Hloop & Hc2).
    { destruct Hk as [->|(Hpos & Hlen & Hf & Hc)].
      - exists n1'. by rewrite app_nil_r.
      - destruct (output_loop_serial (Z.to_nat k) 0 n1' Hf) as (n2 & ? & ? & _).
        { rewrite Hc. simpl. f_equal. f_equal. lia. }
        by exists n2. }
    exists n2. split; [done|]. cbv zeta. split; [done|].
    rewrite Hc2, delivered_app, Hdel. f_equal.
    by apply delivered_chunks.
Qed.
End GroupByNode_order.

(** ** Loops over results *)

Lemma result_mapM_app {A B} (f : A -> Result B) (l1 l2 : list A) :
  result_mapM f (l1 ++ l2) =
  let? ys1 := result_mapM f l1 in
  let? ys2 := result_mapM f l2 in
  Ok (ys1 ++ ys2).
Proof.
  induction l1 as [|x l1 IH]; simpl.
  - by destruct (result_mapM f l2).
  - destruct (f x); simpl; [|done..]. rewrite IH.
    destruct (result_mapM f l1); simpl; [|done..].
    by destruct (result_mapM f l2).
Qed.

Lemma result_mapM_length {A B} (f : A -> Result B) (l : list A) ys :
  result_mapM f l = Ok ys -> length ys = length l.
Proof.
  revert ys. induction l as [|x l IH]; intros ys; simpl.
  - by intros [= <-].
  - destruct (f x); simpl; [|done..].
    destruct (result_mapM f l); simpl; [|done..].
    intros [= <-]. simpl. f_equal. by apply IH.
Qed.

(** ** ScalarAggregateNode: construction *)

Section ScalarAggregateNode_Make.
Context {KS Options : Type}.
Import ScalarAggregateNode.
Implicit Types (p : ExecPlan KS Options) (agg : Aggregate Options).

Lemma FindOne_Ok ref schema path :
  FindOne ref schema = Ok path -> ∃ i, path = [i].
Proof.
  unfold FindOne. destruct (filter _ _) as [|i [|j l]]; intros H; simplify_eq.
  by exists i.
Qed.

(** The kind test of one aggregate. *)
Lemma make_aggregate_kind p input_schema agg f :
  GetFunction p (function agg) = Ok f ->
  kind f ≠ SCALAR_AGGREGATE ->
  is_ok (make_aggregate p input_schema agg) = false ∧
  (is_ok (FindOne (target agg) input_schema) = true ->
   make_aggregate p input_schema agg =
   Raise (mkStatus Invalid ("Provided non ScalarAggregateFunction " +:+ function agg))).
Proof.
  intros Hf Hk. unfold make_aggregate.
  destruct (FindOne (target agg) input_schema) as [path| |] eqn:E; simpl; [|done..].
  apply FindOne_Ok in E as [i ->]. simpl. rewrite Hf. simpl.
  by rewrite decide_True.
Qed.

(** C9, amended: when the function named by an aggregate resolves in the
    registry and its kind is not SCALAR_AGGREGATE, construction of the
    zero-key node fails; it fails with Invalid "Provided non
    ScalarAggregateFunction <name>" when construction gets as far as
    this aggregate's function, that is, when the aggregates before it
    construct and its target resolves. *)
Theorem Make_rejects_non_scalar_aggregate p (inputs : list Schema)
    (opts : AggregateNodeOptions Options) pre agg post f :
  aggregates opts = pre ++ agg :: post ->
  GetFunction p (function agg) = Ok f ->
  kind f ≠ SCALAR_AGGREGATE ->
  is_ok (Make p inputs opts) = false ∧
  ∀ input_schema,
    inputs = [input_schema] ->
    is_ok (result_mapM (make_aggregate p input_schema) pre) = true ->
    is_ok (FindOne (target agg) input_schema) = true ->
    Make p inputs opts =
    Raise (mkStatus Invalid ("Provided non ScalarAggregateFunction " +:+ function agg)).
Proof.
  intros Haggs Hf Hk. split.
  - unfold Make. destruct (ValidateExecNodeInputs _ _ _); simpl; [|done..].
    destruct (deref (inputs !! 0%nat)) as [input_schema| |]; simpl; [|done..].
    rewrite Haggs, result_mapM_app.
    destruct (result_mapM _ pre); simpl; [|done..].
    destruct (make_aggregate_kind p input_schema agg f Hf Hk) as [Hno _].
    by destruct (make_aggregate p input_schema agg).
  - intros input_schema -> Hpre Hfind. unfold Make. simpl.
    rewrite Haggs, result_mapM_app.
    destruct (result_mapM _ pre); simpl in *; [|done..].
    destruct (make_aggregate_kind p input_schema agg f Hf Hk) as [_ Hraise].
    by rewrite Hraise.
Qed.
End ScalarAggregateNode_Make.

(** ** The atomic counter *)

Lemma DoneOnce_once c b c' :
  AtomicCounter.DoneOnce c = (b, c') ->
  AtomicCounter.complete_ c' = true ∧ b = negb (AtomicCounter.complete_ c).
Proof. unfold AtomicCounter.DoneOnce. by intros [= <- <-]. Qed.

Lemma Increment_once c b c' :
  AtomicCounter.Increment c = (b, c') ->
  (b = true -> AtomicCounter.complete_ c = false ∧ AtomicCounter.complete_ c' = true) ∧
  (AtomicCounter.complete_ c = true -> AtomicCounter.complete_ c' = true).
Proof.
  unfold AtomicCounter.Increment. destruct (decide _).
  - intros [Hc ->]%DoneOnce_once. simpl in *. split; [|done].
    by destruct (AtomicCounter.complete_ c).
  - by intros [= <- <-].
Qed.

Lemma SetTotal_once c total b c' :
  AtomicCounter.SetTotal c total = (b, c') ->
  (b = true -> AtomicCounter.complete_ c = false ∧ AtomicCounter.complete_ c' = true) ∧
  (AtomicCounter.complete_ c = true -> AtomicCounter.complete_ c' = true).
Proof.
  unfold AtomicCounter.SetTotal. destruct (decide _).
  - intros [Hc ->]%DoneOnce_once. simpl in *. split; [|done].
    by destruct (AtomicCounter.complete_ c).
  - by intros [= <- <-].
Qed.

(** ** ScalarAggregateNode: the single output batch *)

Section ScalarAggregateNode_output.
Context {KS Options : Type}.
Import ScalarAggregateNode.
Implicit Types (n : ScalarAggregateNode.t KS Options).

Lemma same_io_preorder : PreOrder (same_io (KS:=KS) (Options:=Options)).
Proof.
  split.
  - by intros n.
  - intros n1 n2 n3 (?&?&?&?) (?&?&?&?). unfold same_io. split_and!; congruence.
Qed.
#[local] Existing Instance same_io_preorder.

Lemma scalar_preserves_thread_index thread_id :
  preserves same_io (thread_index (KS:=KS) (Options:=Options) thread_id).
Proof.
  intros n r n'. unfold thread_index.
  destruct (ThreadIndexer.index _ _). by intros [= <- <-].
Qed.

Lemma same_io_states n x : same_io n (set_states_ x n).
Proof. done. Qed.
Hint Resolve same_io_states : core.

Lemma scalar_preserves_consume_kernel batch thread_index i :
  preserves same_io (consume_kernel (KS:=KS) (Options:=Options) batch thread_index i).
Proof. unfold consume_kernel. pres. Qed.
Hint Resolve scalar_preserves_consume_kernel : preserves.

Lemma scalar_preserves_DoConsume batch thread_index :
  preserves same_io (DoConsume (KS:=KS) (Options:=Options) batch thread_index).
Proof. unfold DoConsume. pres. Qed.

Lemma scalar_preserves_finish_kernel i :
  preserves same_io (finish_kernel (KS:=KS) (Options:=Options) i).
Proof. unfold finish_kernel. pres. Qed.
Hint Resolve scalar_preserves_finish_kernel : preserves.

Lemma scalar_preserves_finish_kernels ks :
  preserves same_io (finish_kernels (KS:=KS) (Options:=Options) ks).
Proof. induction ks; cbn [finish_kernels]; pres. Qed.

Lemma finish_kernels_length ks : ∀ n columns n',
  finish_kernels ks n = (Ok columns, n') -> length columns = length ks.
Proof.
  induction ks as [|k ks IH]; intros n columns n'; cbn [finish_kernels].
  - by intros [= <- <-].
  - intros H. apply bind_Ok_inv in H as (c & n1 & _ & H).
    apply bind_Ok_inv in H as (cs & n2 & H2 & [= <- <-]).
    simpl. f_equal. by eapply IH.
Qed.

(** Whatever its outcome, [Finish] delivers at most one batch, and that
    batch has one row and one column per kernel. *)
Lemma Finish_calls n r n' :
  Finish n = (r, n') ->
  input_counter_ n' = input_counter_ n ∧ kernels_ n' = kernels_ n ∧
  ((r ≠ Ok tt ∧ calls n' = calls n) ∨
   (r = Ok tt ∧ finished_ n' = true ∧
    ∃ columns, length columns = length (kernels_ n) ∧
      calls n' = calls n ++ [Output_InputReceived (ExecBatch.mk columns 1)])).
Proof.
  unfold Finish. unfold mbind at 1, M_bind at 1, gets at 1.
  unfold mbind at 1, M_bind at 1.
  destruct (finish_kernels _ n) as [[columns|s|] n1] eqn:E.
  - pose proof (finish_kernels_length _ _ _ _ E) as Hlen.
    rewrite length_seq in Hlen.
    apply scalar_preserves_finish_kernels in E as (Hc & Hi & Hf & Hk).
    intros [= <- <-]. simpl. split_and!; [done..|]. right.
    split_and!; [done..|]. exists columns. by rewrite Hc.
  - apply scalar_preserves_finish_kernels in E as (Hc & Hi & Hf & Hk).
    intros [= <- <-]. split_and!; [done..|]. by left.
  - apply scalar_preserves_finish_kernels in E as (Hc & Hi & Hf & Hk).
    intros [= <- <-]. split_and!; [done..|]. by left.
Qed.

(** The loop of [Finish] computes the columns of [finish_columns]. *)
Lemma finish_kernels_columns ks : ∀ ss j n columns,
  drop j (kernels_ n) = ks -> drop j (states_ n) = ss ->
  length ks = length ss ->
  result_mapM finish_column (zip ks ss) = Ok columns ->
  ∃ n', finish_kernels (seq j (length ks)) n = (Ok columns, n').
Proof.
  induction ks as [|k ks IH]; intros ss j n columns Hks Hss Hlen Hcols.
  - destruct ss; [|done]. simpl in *. simplify_eq. by eexists.
  - destruct ss as [|s ss]; [done|]. simpl in Hlen, Hcols.
    unfold finish_column at 1 in Hcols. simpl in Hcols.
    destruct (MergeAll k s) as [merged| |] eqn:Hm; simpl in Hcols; [|done..].
    destruct (finalize k merged) as [column| |] eqn:Hf; simpl in Hcols; [|done..].
    destruct (result_mapM finish_column (zip ks ss)) as [cols| |] eqn:Hr;
      simpl in Hcols; [|done..].
    simplify_eq.
    assert (kernels_ n !! j = Some k) as Hk.
    { rewrite <- (Nat.add_0_r j), <- lookup_drop, Hks. done. }
    assert (states_ n !! j = Some s) as Hs.
    { rewrite <- (Nat.add_0_r j), <- lookup_drop, Hss. done. }
    set (n1 := set_states_ (<[j := []]> (states_ n)) n).
    assert (finish_kernel j n = (Ok column, n1)) as H1.
    { unfold finish_kernel, mbind, M_bind, gets, lift, modify. rewrite Hk, Hs.
      cbn -[MergeAll]. by rewrite Hm, Hf. }
    destruct (IH ss (S j) n1 cols) as (n' & H2).
    + simpl. by rewrite (drop_S _ _ _ Hk) in Hks; simplify_eq.
    + subst n1. simpl. rewrite drop_insert_lt by lia.
      by rewrite (drop_S _ _ _ Hs) in Hss; simplify_eq.
    + lia.
    + done.
    + exists n'. cbn [length seq finish_kernels].
      rewrite (bind_Ok _ _ _ _ _ H1), (bind_Ok _ _ _ _ _ H2). done.
Qed.

Lemma Finish_columns n columns :
  length (states_ n) = length (kernels_ n) ->
  finish_columns (kernels_ n) (states_ n) = Ok columns ->
  ∃ n', Finish n = (Ok tt, n') ∧ finished_ n' = true ∧
    calls n' = calls n ++ [Output_InputReceived (ExecBatch.mk columns 1)].
Proof.
  intros Hlen Hcols.
  destruct (finish_kernels_columns (kernels_ n) (states_ n) 0 n columns)
    as (n1 & H1); [done..|].
  pose proof H1 as (Hc & _)%scalar_preserves_finish_kernels.
  eexists. unfold Finish. unfold mbind at 1, M_bind at 1, gets at 1.
  rewrite (bind_Ok _ _ _ _ _ H1). split_and!; [done..|]. simpl. by rewrite Hc.
Qed.
End ScalarAggregateNode_output.

Section ScalarAggregateNode_runs.
Context {KS Options : Type}.
Import ScalarAggregateNode.
Implicit Types (n : ScalarAggregateNode.t KS Options).

Lemma ErrorIfNotOk_inv (c : M (ScalarAggregateNode.t KS Options) unit) n r n' :
  ErrorIfNotOk c n = (r, n') ->
  (c n = (Ok tt, n') ∧ r = Ok false) ∨
  (∃ s n0, c n = (Raise s, n0) ∧ r = Ok true ∧
     n' = set_calls (calls n0 ++ [Output_ErrorReceived s]) n0) ∨
  (c n = (Undefined, n') ∧ r = Undefined).
Proof.
  unfold ErrorIfNotOk. destruct (c n) as [[[]|s|] n0]; intros [= <- <-]; eauto 10.
Qed.

Lemma at_most_once_same_io n n' : same_io n n' -> at_most_once n -> at_most_once n'.
Proof. intros (Hc & Hi & _) H. unfold at_most_once. by rewrite Hc, Hi. Qed.

(** A call that delivers no batch. *)
Lemma at_most_once_call n c :
  (∀ b, c ≠ Output_InputReceived b) ->
  at_most_once n -> at_most_once (set_calls (calls n ++ [c]) n).
Proof.
  intros Hc H. unfold at_most_once. simpl. rewrite delivered_app.
  assert (delivered [c] = []) as ->.
  { destruct c; try done. by destruct (Hc batch). }
  by rewrite app_nil_r.
Qed.

(** A counter operation that did not complete the counter. *)
Lemma at_most_once_counter n c :
  (AtomicCounter.complete_ (input_counter_ n) = true -> AtomicCounter.complete_ c = true) ->
  at_most_once n -> at_most_once (set_input_counter_ c n).
Proof.
  intros Hc [H1 H2]. split; [|done]. simpl. intros Hf. apply H1.
  destruct (AtomicCounter.complete_ (input_counter_ n)); [|done].
  by rewrite Hc in Hf.
Qed.

(** The operation that completed the counter runs [Finish]: the one
    batch. *)
Lemma at_most_once_Finish n c r n' :
  AtomicCounter.complete_ (input_counter_ n) = false ->
  AtomicCounter.complete_ c = true ->
  at_most_once n ->
  ErrorIfNotOk Finish (set_input_counter_ c n) = (r, n') ->
  at_most_once n'.
Proof.
  intros Hn Hc [H1 _] HF. specialize (H1 Hn).
  assert (∀ n0 r0, Finish (set_input_counter_ c n) = (r0, n0) ->
            AtomicCounter.complete_ (input_counter_ n0) = true ∧
            one_row_batches (delivered (calls n0))) as HFin.
  { intros n0 r0 [Hi [_ [[_ Hcalls]|(_ & _ & columns & _ & Hcalls)]]]%Finish_calls;
      (split; [by rewrite Hi|]); rewrite Hcalls; simpl; rewrite ?delivered_app, H1.
    - split; [simpl; lia|constructor].
    - split; [simpl; lia|]. by repeat constructor. }
  apply ErrorIfNotOk_inv in HF as [[HF ->]|[(s & n0 & HF & -> & ->)|[HF ->]]];
    apply HFin in HF as [Hc' Hone].
  - split; [by rewrite Hc'|done].
  - split; [simpl; by rewrite Hc'|]. simpl. rewrite delivered_app. simpl.
    by rewrite app_nil_r.
  - split; [by rewrite Hc'|done].
Qed.

Lemma step_at_most_once e n r n' :
  step e n = (r, n') -> at_most_once n -> at_most_once n'.
Proof.
  destruct e; simpl; intros Hs HI.
  - (* InputReceived *)
    unfold InputReceived in Hs. unfold mbind at 1, M_bind at 1 in Hs.
    destruct (thread_index thread_id n) as [[i|s|] na] eqn:Ei;
      pose proof (scalar_preserves_thread_index _ _ _ _ Ei) as Ha;
      apply (at_most_once_same_io _ _ Ha) in HI; simplify_eq; try done.
    unfold mbind at 1, M_bind at 1 in Hs.
    destruct (ErrorIfNotOk (DoConsume batch i) na) as [rb nb] eqn:Eb.
    apply ErrorIfNotOk_inv in Eb as [[Eb ->]|[(s & n0 & Eb & -> & ->)|[Eb ->]]];
      pose proof (scalar_preserves_DoConsume _ _ _ _ _ Eb) as Hb;
      apply (at_most_once_same_io _ _ Hb) in HI.
    + unfold mbind at 1, M_bind at 1, input_counter_Increment at 1 in Hs.
      destruct (AtomicCounter.Increment (input_counter_ nb)) as [[] c] eqn:Ec;
        apply Increment_once in Ec as [Hc1 Hc2].
      * destruct (Hc1 eq_refl) as [Hn Hc].
        unfold mbind at 1, M_bind at 1 in Hs.
        destruct (ErrorIfNotOk Finish (set_input_counter_ c nb)) as [rf nf] eqn:Ef.
        pose proof (at_most_once_Finish _ _ _ _ Hn Hc HI Ef).
        destruct rf; cbv [mret M_ret] in Hs; by simplify_eq.
      * cbv [mret M_ret] in Hs. simplify_eq. by apply at_most_once_counter.
    + cbv [mret M_ret] in Hs. simplify_eq. by apply at_most_once_call.
    + by simplify_eq.
  - (* InputFinished *)
    unfold InputFinished in Hs.
    unfold mbind at 1, M_bind at 1, input_counter_SetTotal at 1 in Hs.
    destruct (AtomicCounter.SetTotal (input_counter_ n) total_batches) as [[] c] eqn:Ec;
      apply SetTotal_once in Ec as [Hc1 Hc2].
    + destruct (Hc1 eq_refl) as [Hn Hc].
      unfold mbind at 1, M_bind at 1 in Hs.
      destruct (ErrorIfNotOk Finish (set_input_counter_ c n)) as [rf nf] eqn:Ef.
      pose proof (at_most_once_Finish _ _ _ _ Hn Hc HI Ef).
      destruct rf; cbv [mret M_ret] in Hs; by simplify_eq.
    + cbv [mret M_ret] in Hs. simplify_eq. by apply at_most_once_counter.
  - (* ErrorReceived *)
    injection Hs as <- <-. by apply at_most_once_call.
  - injection Hs as <- <-. by apply at_most_once_call.
  - injection Hs as <- <-. by apply at_most_once_call.
  - (* StopProducing *)
    unfold StopProducing, mbind, M_bind, input_counter_Cancel, MarkFinished, modify,
      call, modify in Hs.
    destruct (AtomicCounter.Cancel (input_counter_ n)) as [[] c] eqn:Ec;
      apply DoneOnce_once in Ec as [Hc _]; simpl in Hs; simplify_eq;
      destruct HI as [H1 H2]; unfold at_most_once; simpl;
      rewrite delivered_app, app_nil_r; (split; [by rewrite Hc|done]).
Qed.

Lemma run_at_most_once events : ∀ n r n',
  run events n = (r, n') -> at_most_once n -> at_most_once n'.
Proof.
  induction events as [|e events IH]; intros n r n'; cbn [run forM_].
  - by intros [= <- <-].
  - unfold mbind, M_bind. destruct (step e n) as [[[]|s|] n1] eqn:E; intros H HI;
      pose proof (step_at_most_once _ _ _ _ E HI); [by eapply IH|by simplify_eq..].
Qed.
End ScalarAggregateNode_runs.

Lemma result_mapM_Forall2 {A B} (f : A -> Result B) (l : list A) ys :
  result_mapM f l = Ok ys -> Forall2 (fun x y => f x = Ok y) l ys.
Proof.
  revert ys. induction l as [|x l IH]; intros ys; simpl.
  - intros [= <-]. constructor.
  - destruct (f x) eqn:E; simpl; [|done..].
    destruct (result_mapM f l); simpl; [|done..].
    intros [= <-]. constructor; [done|]. by apply IH.
Qed.

Section ScalarAggregateNode_complete.
Context {KS Options : Type}.
Import ScalarAggregateNode.
Implicit Types (n : ScalarAggregateNode.t KS Options).

Lemma calls_grow_preorder : PreOrder (calls_grow (KS:=KS) (Options:=Options)).
Proof.
  split.
  - intros n. split; [done|]. exists []. by rewrite app_nil_r.
  - intros n1 n2 n3 [Hk1 (new1 & H1)] [Hk2 (new2 & H2)]. split; [congruence|].
    exists (new1 ++ new2). by rewrite H2, H1, app_assoc.
Qed.

Lemma same_io_calls_grow n n' : same_io n n' -> calls_grow n n'.
Proof. intros (Hc & _ & _ & Hk). split; [done|]. exists []. by rewrite app_nil_r. Qed.

Lemma no_error_app c1 c2 : no_error (c1 ++ c2) = no_error c1 && no_error c2.
Proof. apply forallb_app. Qed.

(** One batch received, without a failure being forwarded: the counter
    is incremented, and the increment that completes it runs [Finish],
    which delivers the batch. *)
Lemma InputReceived_Ok n thread_id batch n' :
  InputReceived thread_id batch n = (Ok tt, n') ->
  no_error (calls n') = true ->
  kernels_ n' = kernels_ n ∧
  input_counter_ n' = snd (AtomicCounter.Increment (input_counter_ n)) ∧
  if fst (AtomicCounter.Increment (input_counter_ n)) then
    finished_ n' = true ∧
    ∃ columns, length columns = length (kernels_ n) ∧
      calls n' = calls n ++ [Output_InputReceived (ExecBatch.mk columns 1)]
  else calls n' = calls n.
Proof.
  unfold InputReceived. intros Hs Hne.
  apply bind_Ok_inv in Hs as (i & na & Ha & Hs).
  apply scalar_preserves_thread_index in Ha as (Hca & Hia & _ & Hka).
  apply bind_Ok_inv in Hs as (failed & nb & Hb & Hs).
  apply ErrorIfNotOk_inv in Hb as [[Hb [= ->]]|[(s & n0 & Hb & [= ->] & ->)|[_ ?]]]; [| |done].
  - apply scalar_preserves_DoConsume in Hb as (Hcb & Hib & _ & Hkb).
    unfold mbind at 1, M_bind at 1, input_counter_Increment at 1 in Hs.
    rewrite Hib, Hia in Hs.
    destruct (AtomicCounter.Increment (input_counter_ n)) as [[] c] eqn:Ec; simpl.
    + apply bind_Ok_inv in Hs as (r & nf & Hf & Hs). cbv [mret M_ret] in Hs.
      simplify_eq.
      apply ErrorIfNotOk_inv in Hf as [[Hf _]|[(s & n0 & Hf & _ & ->)|[_ ?]]]; [| |done].
      * apply Finish_calls in Hf
          as (Hi & Hk & [[? _]|(_ & Hfin & columns & Hlen & Hc)]); [done|].
        simpl in *. split_and!; [congruence|done|done|].
        exists columns. split; [congruence|]. by rewrite Hc, Hcb, Hca.
      * simpl in Hne. rewrite no_error_app in Hne. simpl in Hne.
        by rewrite andb_false_r in Hne.
    + cbv [mret M_ret] in Hs. simplify_eq. simpl.
      split_and!; [congruence|done|congruence].
  - cbv [mret M_ret] in Hs. simplify_eq. simpl in Hne.
    rewrite no_error_app in Hne. simpl in Hne. by rewrite andb_false_r in Hne.
Qed.

Lemma InputFinished_Ok n total n' :
  InputFinished total n = (Ok tt, n') ->
  no_error (calls n') = true ->
  kernels_ n' = kernels_ n ∧
  input_counter_ n' = snd (AtomicCounter.SetTotal (input_counter_ n) total) ∧
  if fst (AtomicCounter.SetTotal (input_counter_ n) total) then
    finished_ n' = true ∧
    ∃ columns, length columns = length (kernels_ n) ∧
      calls n' = calls n ++ [Output_InputReceived (ExecBatch.mk columns 1)]
  else calls n' = calls n.
Proof.
  unfold InputFinished. intros Hs Hne.
  unfold mbind at 1, M_bind at 1, input_counter_SetTotal at 1 in Hs.
  destruct (AtomicCounter.SetTotal (input_counter_ n) total) as [[] c] eqn:Ec; simpl.
  - apply bind_Ok_inv in Hs as (r & nf & Hf & Hs). cbv [mret M_ret] in Hs.
    simplify_eq.
    apply ErrorIfNotOk_inv in Hf as [[Hf _]|[(s & n0 & Hf & _ & ->)|[_ ?]]]; [| |done].
    + apply Finish_calls in Hf
        as (Hi & Hk & [[? _]|(_ & Hfin & columns & Hlen & Hc)]); [done|].
      simpl in *. split_and!; [done..|]. by exists columns.
    + simpl in Hne. rewrite no_error_app in Hne. simpl in Hne.
      by rewrite andb_false_r in Hne.
  - cbv [mret M_ret] in Hs. by simplify_eq.
Qed.

(** The calls of a run only grow. *)
Lemma step_calls_grow e n r n' : step e n = (r, n') -> calls_grow n n'.
Proof.
  pose proof calls_grow_preorder.
  assert (∀ n c, calls_grow n (set_calls (calls n ++ [c]) n)) as Hcall.
  { intros n0 c. split; [done|]. by exists [c]. }
  assert (∀ n1 r1 n2, ErrorIfNotOk Finish n1 = (r1, n2) -> calls_grow n1 n2) as HF.
  { intros n1 r1 n2 Hf.
    apply ErrorIfNotOk_inv in Hf as [[Hf _]|[(s & n0 & Hf & _ & ->)|[Hf _]]];
      apply Finish_calls in Hf as (_ & Hk & [[_ Hc]|(_ & _ & columns & _ & Hc)]).
    all: try (split; [done|]; eexists; by rewrite Hc, ?app_nil_r).
    all: split; [done|]; simpl; rewrite Hc, ?app_nil_r; eexists; done || by rewrite <- app_assoc. }
  destruct e; simpl; intros Hs.
  - unfold InputReceived in Hs. unfold mbind at 1, M_bind at 1 in Hs.
    destruct (thread_index thread_id n) as [[i|s|] na] eqn:Ei;
      pose proof (same_io_calls_grow _ _ (scalar_preserves_thread_index _ _ _ _ Ei)) as Ha;
      simplify_eq; try done.
    unfold mbind at 1, M_bind at 1 in Hs.
    destruct (ErrorIfNotOk (DoConsume batch i) na) as [rb nb] eqn:Eb.
    apply ErrorIfNotOk_inv in Eb as [[Eb ->]|[(s & n0 & Eb & -> & ->)|[Eb ->]]];
      pose proof (same_io_calls_grow _ _ (scalar_preserves_DoConsume _ _ _ _ _ Eb)) as Hb.
    + unfold mbind at 1, M_bind at 1, input_counter_Increment at 1 in Hs.
      destruct (AtomicCounter.Increment (input_counter_ nb)) as [[] c].
      * unfold mbind at 1, M_bind at 1 in Hs.
        destruct (ErrorIfNotOk Finish (set_input_counter_ c nb)) as [rf nf] eqn:Ef.
        apply HF in Ef.
        assert (calls_grow n nf).
        { etrans; [done|]. etrans; [done|]. etrans; [|done]. by split; [|exists []; rewrite app_nil_r]. }
        destruct rf; cbv [mret M_ret] in Hs; by simplify_eq.
      * cbv [mret M_ret] in Hs. simplify_eq. etrans; [done|]. etrans; [done|].
        by split; [|exists []; rewrite app_nil_r].
    + cbv [mret M_ret] in Hs. simplify_eq. etrans; [done|]. etrans; [done|]. apply Hcall.
    + simplify_eq. by etrans.
  - unfold InputFinished in Hs.
    unfold mbind at 1, M_bind at 1, input_counter_SetTotal at 1 in Hs.
    destruct (AtomicCounter.SetTotal (input_counter_ n) total_batches) as [[] c].
    + unfold mbind at 1, M_bind at 1 in Hs.
      destruct (ErrorIfNotOk Finish (set_input_counter_ c n)) as [rf nf] eqn:Ef.
      apply HF in Ef.
      assert (calls_grow n nf).
      { etrans; [|done]. by split; [|exists []; rewrite app_nil_r]. }
      destruct rf; cbv [mret M_ret] in Hs; by simplify_eq.
    + cbv [mret M_ret] in Hs. simplify_eq. by split; [|exists []; rewrite app_nil_r].
  - injection Hs as <- <-. apply Hcall.
  - injection Hs as <- <-. apply Hcall.
  - injection Hs as <- <-. apply Hcall.
  - unfold StopProducing, mbind, M_bind, input_counter_Cancel, MarkFinished, modify,
      call, modify in Hs.
    destruct (AtomicCounter.Cancel (input_counter_ n)) as [[] c]; simpl in Hs;
      simplify_eq; (split; [done|]); by eexists [_].
Qed.

Lemma run_calls_grow events : ∀ n r n', run events n = (r, n') -> calls_grow n n'.
Proof.
  pose proof calls_grow_preorder.
  induction events as [|e events IH]; intros n r n'; cbn [run forM_].
  - by intros [= <- <-].
  - unfold mbind, M_bind. destruct (step e n) as [[[]|s|] n1] eqn:E; intros Hr;
      apply step_calls_grow in E.
    + etrans; [done|]. by eapply IH.
    + by simplify_eq.
    + by simplify_eq.
Qed.

Lemma no_error_grow n n' :
  calls_grow n n' -> no_error (calls n') = true -> no_error (calls n) = true.
Proof.
  intros [_ (new & ->)]. rewrite no_error_app. by intros [? _]%andb_prop.
Qed.

(** Batches received while the count stays away from the total: nothing
    is delivered. *)
Lemma run_arrivals_before (inputs : list (nat * ExecBatch.t)) : ∀ n n' count total,
  input_counter_ n = AtomicCounter.mk count total false ->
  (∀ j, 0 < j ≤ Z.of_nat (length inputs) -> total ≠ Some (count + j)) ->
  run (uncurry EvInputReceived <$> inputs) n = (Ok tt, n') ->
  no_error (calls n') = true ->
  kernels_ n' = kernels_ n ∧ calls n' = calls n ∧
  input_counter_ n' = AtomicCounter.mk (count + Z.of_nat (length inputs)) total false.
Proof.
  induction inputs as [|[tid b] inputs IH]; intros n n' count total Hic Htot Hrun Hne.
  - injection Hrun as <-. split_and!; [done..|]. rewrite Hic. f_equal. simpl. lia.
  - cbn [fmap list_fmap run forM_ step uncurry] in Hrun.
    apply bind_Ok_inv in Hrun as ([] & n1 & H1 & Hrun).
    pose proof (run_calls_grow _ _ _ _ Hrun) as Hg.
    apply InputReceived_Ok in H1 as (Hk1 & Hi1 & Hc1); [|by eapply no_error_grow].
    rewrite Hic in Hi1, Hc1. unfold AtomicCounter.Increment in Hi1, Hc1.
    cbn [AtomicCounter.count_ AtomicCounter.total_ AtomicCounter.complete_] in Hi1, Hc1.
    rewrite decide_False in Hi1, Hc1
      by (intros Heq; apply (Htot 1); [simpl length; lia|done]).
    simpl in Hi1, Hc1.
    apply IH with (count := count + 1) (total := total) in Hrun as (Hk & Hc & Hi);
      [|done| |done].
    + split_and!; [congruence|congruence|]. rewrite Hi. f_equal. simpl length. lia.
    + intros j Hj. replace (count + 1 + j) with (count + (1 + j)) by lia.
      apply Htot. simpl length. lia.
Qed.

Lemma run_app (l1 l2 : list Event) n n' :
  run (l1 ++ l2) n = (Ok tt, n') ->
  ∃ n1, run l1 n = (Ok tt, n1) ∧ run l2 n1 = (Ok tt, n').
Proof.
  revert n. induction l1 as [|e l1 IH]; intros n; cbn [app run forM_].
  - intros Hr. by exists n.
  - intros Hr. apply bind_Ok_inv in Hr as ([] & n0 & He & Hr).
    apply IH in Hr as (n1 & H1 & H2). exists n1. split; [|done].
    by rewrite (bind_Ok _ _ _ _ _ He).
Qed.

(** Batches received up to the total: the last one runs [Finish]. *)
Lemma run_arrivals_complete (inputs : list (nat * ExecBatch.t)) n n' count :
  inputs ≠ [] ->
  input_counter_ n
    = AtomicCounter.mk count (Some (count + Z.of_nat (length inputs))) false ->
  run (uncurry EvInputReceived <$> inputs) n = (Ok tt, n') ->
  no_error (calls n') = true ->
  finished_ n' = true ∧
  ∃ columns, length columns = length (kernels_ n) ∧
    calls n' = calls n ++ [Output_InputReceived (ExecBatch.mk columns 1)].
Proof.
  destruct inputs as [|x inputs _] using rev_ind; [done|]. intros _ Hic Hrun Hne.
  destruct x as [tid b]. rewrite length_app in Hic. simpl in Hic.
  rewrite fmap_app in Hrun. apply run_app in Hrun as (n1 & H1 & H2).
  cbn [fmap list_fmap run forM_ step uncurry] in H2.
  apply bind_Ok_inv in H2 as ([] & n2 & H2 & [= <-]).
  apply run_arrivals_before
    with (count := count) (total := Some (count + Z.of_nat (length inputs + 1)))
    in H1 as (Hk1 & Hc1 & Hi1); [|done| |].
  - apply InputReceived_Ok in H2 as (Hk2 & Hi2 & Hc2); [|done].
    rewrite Hi1 in Hi2, Hc2. unfold AtomicCounter.Increment in Hi2, Hc2.
    cbn [AtomicCounter.count_ AtomicCounter.total_ AtomicCounter.complete_] in Hi2, Hc2.
    rewrite decide_True in Hi2, Hc2 by (f_equal; lia).
    simpl in Hc2. destruct Hc2 as (Hfin & columns & Hlen & Hc).
    split; [done|]. exists columns. split; [congruence|]. by rewrite Hc, Hc1.
  - intros j Hj [= Heq]. lia.
  - eapply no_error_grow; [|done].
    eapply (step_calls_grow (EvInputReceived tid b)). exact H2.
Qed.

(** A run in which the input delivers its batches and declares their
    number, and no failure is forwarded. *)
Lemma run_complete (before after : list (nat * ExecBatch.t)) n n' :
  input_counter_ n = AtomicCounter.init ->
  run ((uncurry EvInputReceived <$> before)
       ++ EvInputFinished (Z.of_nat (length before + length after))
       :: (uncurry EvInputReceived <$> after)) n = (Ok tt, n') ->
  no_error (calls n') = true ->
  finished_ n' = true ∧
  ∃ columns, length columns = length (kernels_ n) ∧
    calls n' = calls n ++ [Output_InputReceived (ExecBatch.mk columns 1)].
Proof.
  intros Hic Hrun Hne.
  apply run_app in Hrun as (n1 & H1 & H2).
  cbn [run forM_ step] in H2.
  apply bind_Ok_inv in H2 as ([] & n2 & H2 & H3).
  change (forM_ (uncurry EvInputReceived <$> after) step) with
    (run (KS:=KS) (Options:=Options) (uncurry EvInputReceived <$> after)) in H3.
  pose proof (run_calls_grow _ _ _ _ H3) as Hg3.
  pose proof (no_error_grow _ _ Hg3 Hne) as Hne2.
  pose proof (step_calls_grow (EvInputFinished _) _ _ _ H2) as Hg2.
  pose proof (no_error_grow _ _ Hg2 Hne2) as Hne1.
  apply run_arrivals_before with (count := 0) (total := None) in H1
    as (Hk1 & Hc1 & Hi1); [|done|done|done].
  apply InputFinished_Ok in H2 as (Hk2 & Hi2 & Hc2); [|done].
  rewrite Hi1 in Hi2, Hc2. unfold AtomicCounter.SetTotal in Hi2, Hc2.
  cbn [AtomicCounter.count_ AtomicCounter.total_ AtomicCounter.complete_] in Hi2, Hc2.
  destruct after as [|x after].
  - injection H3 as <-.
    rewrite decide_True in Hi2, Hc2 by (cbn [length]; lia).
    simpl in Hc2. destruct Hc2 as (Hfin & columns & Hlen & Hc).
    split; [done|]. exists columns. split; [congruence|]. by rewrite Hc, Hc1.
  - rewrite decide_False in Hi2, Hc2 by (cbn [length]; lia).
    cbn [fst snd] in Hi2, Hc2.
    apply run_arrivals_complete with (count := 0 + Z.of_nat (length before)) in H3
      as (Hfin & columns & Hlen & Hc); [|done| |done].
    + split; [done|]. exists columns. split; [congruence|]. by rewrite Hc, Hc2, Hc1.
    + rewrite Hi2. f_equal. f_equal. rewrite Nat2Z.inj_add. lia.
Qed.
End ScalarAggregateNode_complete.

Section ScalarAggregateNode_zero_input.
Context {KS Options : Type}.
Import ScalarAggregateNode.
Implicit Types (n : ScalarAggregateNode.t KS Options).

Lemma make_aggregate_initialized (p : ExecPlan KS Options) input_schema agg m :
  make_aggregate p input_schema agg = Ok m ->
  initialized (thread_capacity (exec_context p)) (made_kernel m) (made_states m).
Proof.
  unfold make_aggregate. intros H.
  destruct (FindOne _ _); simpl in H; [|done..].
  destruct (deref _); simpl in H; [|done..].
  destruct (GetFunction _ _) as [f| |]; simpl in H; [|done..].
  destruct (decide _); [done|].
  destruct (deref (input_schema !! _)) as [fld| |]; simpl in H; [|done..].
  destruct (DispatchExact _ _) as [kernel| |]; simpl in H; [|done..].
  destruct (match options agg with Some o => _ | None => _ end) as [o| |];
    simpl in H; [|done..].
  destruct (InitAll _ _ _ _) as [states| |] eqn:Hinit; simpl in H; [|done..].
  destruct (deref (states !! _)); simpl in H; [|done..].
  destruct (out_type _ _ _); simpl in H; [|done..].
  simplify_eq. simpl. unfold InitAll in Hinit. split.
  - apply result_mapM_length in Hinit. by rewrite length_seq in Hinit.
  - exists o, (field_type fld). apply result_mapM_Forall2 in Hinit.
    apply Forall_forall. intros s Hs.
    apply list_elem_of_lookup in Hs as [i Hi].
    by destruct (Forall2_lookup_r _ _ _ _ _ Hinit Hi) as (_ & _ & ?).
Qed.

Lemma Make_Ok (p : ExecPlan KS Options) inputs opts node :
  Make p inputs opts = Ok node ->
  input_counter_ node = AtomicCounter.init ∧ calls node = [] ∧
  Forall2 (initialized (thread_capacity (exec_context p)))
          (kernels_ node) (states_ node).
Proof.
  unfold Make. intros H.
  destruct (ValidateExecNodeInputs _ _ _); simpl in H; [|done..].
  destruct (deref _) as [input_schema| |]; simpl in H; [|done..].
  destruct (result_mapM _ _) as [made| |] eqn:Hmade; simpl in H; [|done..].
  simplify_eq. simpl. split_and!; [done..|].
  apply result_mapM_Forall2 in Hmade.
  apply Forall2_fmap, Forall_Forall2_diag, Forall_forall. intros m Hm.
  apply list_elem_of_lookup in Hm as [i Hi].
  destruct (Forall2_lookup_r _ _ _ _ _ Hmade Hi) as (agg & _ & Hagg).
  by eapply make_aggregate_initialized.
Qed.

End ScalarAggregateNode_zero_input.

(** ** Scenario S1: grouped count *)

Example S1_argument_values :
  Float.decode Float.binary64 S1.f_1_0 = Float.Finite false 1 0 ∧
  Float.decode Float.binary64 S1.f_0_0 = Float.Zero false ∧
  Float.decode Float.binary64 S1.f_4_0 = Float.Finite false 1 2 ∧
  Float.decode Float.binary64 S1.f_3_25 = Float.Finite false 13 (-2) ∧
  Float.decode Float.binary64 S1.f_0_125 = Float.Finite false 1 (-3) ∧
  Float.decode Float.binary64 S1.f_m0_25 = Float.Finite true 1 (-2) ∧
  Float.decode Float.binary64 S1.f_0_75 = Float.Finite false 3 (-2).
Proof. repeat split; reflexivity. Qed.

Example S1_batches_cut :
  S1.batches =
  S1.batch_of <$>
    [ [ (S1.arg S1.f_1_0, S1.key 1); (S1.null, S1.key 1) ];
      [ (S1.arg S1.f_0_0, S1.key 2); (S1.null, S1.key 3) ];
      [ (S1.arg S1.f_4_0, S1.null); (S1.arg S1.f_3_25, S1.key 1) ];
      [ (S1.arg S1.f_0_125, S1.key 2) ];
      [ (S1.arg S1.f_m0_25, S1.key 2); (S1.arg S1.f_0_75, S1.null) ];
      [ (S1.null, S1.key 3) ] ].
Proof. reflexivity. Qed.





(** ** The theorems at concrete inputs *)

Lemma grouper_dense_ids_witness :
  ∃ p k,
    concat [[3; 3]; [27; 81; 81]]%nat !! p = Some k ∧
    concat (snd (GrouperImpl.ConsumeAll GrouperImpl.empty [[3; 3]; [27; 81; 81]]%nat)) !! p
      = Some 2%nat.
Proof.
  apply (proj2 (proj2 (grouper_dense_ids [[3; 3]; [27; 81; 81]]%nat)) 2%nat).
  vm_compute. lia.
Defined.

Lemma MakeGroupings_spec_witness :
  (∃ groupings,
     MakeGroupings [Some 2; Some 1; Some 2; Some 1; Some 1; Some 2]%nat 5 = Ok groupings ∧
     length groupings = 5%nat ∧
     ∀ i, (i < 5)%nat ->
       ∃ l, groupings !! i = Some l ∧ StronglySorted lt l ∧
            ∀ p, p ∈ l ↔
              [Some 2; Some 1; Some 2; Some 1; Some 1; Some 2]%nat !! p = Some (Some i)) ∧
  MakeGroupings [Some 0; None; Some 1]%nat 5
    = Raise (mkStatus Invalid "MakeGroupings with null ids").
Proof.
  split.
  - apply (proj1 (MakeGroupings_spec _ 5)).
    intros H. repeat (apply elem_of_cons in H as [H|H]; [discriminate|]).
    by apply elem_of_nil in H.
  - apply (proj1 (proj2 (MakeGroupings_spec _ 5))).
    apply list_elem_of_further, list_elem_of_here.
Defined.

Lemma float_key_groups_witness :
  concat (float_key_ids 8 [[Some (Float.pos_zero Float.binary64)];
                           [Some (Float.neg_zero Float.binary64)]]) !! 0%nat
    = Some 0%nat ∧
  concat (float_key_ids 8 [[Some (Float.pos_zero Float.binary64)];
                           [Some (Float.neg_zero Float.binary64)]]) !! 1%nat
    = Some 1%nat ∧
  (0 ≠ 1)%nat.
Proof.
  split; [reflexivity|]. split; [reflexivity|].
  assert (Float.binary64 ∈ Float.formats) as Hf by (vm_compute; repeat constructor).
  apply (proj1 (proj2 (float_key_groups Float.binary64 Hf))
           [[Some (Float.pos_zero Float.binary64)];
            [Some (Float.neg_zero Float.binary64)]] 0%nat 1%nat);
    reflexivity.
Defined.

Lemma finished_node_is_inert_witness :
  ∃ tasks,
    GroupByNode.run
      [GroupByNode.EvInputReceived 0 (S1.batch_of [(S1.null, S1.key 4)]);
       GroupByNode.EvInputFinished 3; GroupByNode.EvRunTask 0]
      (snd (S1.execute (S1.context 2 false)
              (S1.events [0; 0; 0]%nat (S1.batch_of <$> S1.table) [])))
    = (Ok tt,
       GroupByNode.set_spawned tasks
         (snd (S1.execute (S1.context 2 false)
                 (S1.events [0; 0; 0]%nat (S1.batch_of <$> S1.table) [])))).
Proof.
  apply finished_node_is_inert.
  - vm_compute. reflexivity.
  - repeat constructor.
Defined.

(** C1: at an exec chunk size of 0, which is "less than or equal to 0",
    the guard [result < 0] of [output_batch_size] does not hold: the
    batch size is 0 and not the default 32 * 1024. *)
Lemma output_batch_size_at_zero :
  exec_chunksize (GroupByNode.ctx_ (S1.node (S1.context 0 false))) ≤ 0 ∧
  GroupByNode.output_batch_size (S1.node (S1.context 0 false)) = 0 ∧
  GroupByNode.output_batch_size (S1.node (S1.context 0 false)) ≠ 32 * 1024.
Proof. split; [simpl; lia|]. split; [reflexivity|]. vm_compute. discriminate. Qed.

(** With that batch size the chunk count of a non-empty result is a
    division by zero. *)
Example finalize_at_zero_chunksize :
  fst (S1.execute (S1.context 0 false)
         (S1.events [0; 0; 0]%nat (S1.batch_of <$> S1.table) [])) = Undefined.
Proof. vm_compute. reflexivity. Qed.

(** The default exec chunk size of a context, the largest [int64_t], is
    negative as an [int]. *)
Example output_batch_size_default :
  GroupByNode.output_batch_size (S1.node (S1.context (2 ^ 63 - 1) false)) = 32 * 1024.
Proof. reflexivity. Qed.

Lemma chunks_within_output_batch_size_witness :
  GroupByNode.output_batch_size (S1.node (S1.context 2 false)) = 2 ∧
  ∃ new,
    GroupByNode.calls
      (snd (GroupByNode.run (S1.events [0; 0; 0]%nat (S1.batch_of <$> S1.table) [])
              (snd (GroupByNode.StartProducing (S1.node (S1.context 2 false))))))
    = GroupByNode.calls (snd (GroupByNode.StartProducing (S1.node (S1.context 2 false))))
      ++ new ∧
    Forall (fun b => ExecBatch.length b ≤
              GroupByNode.output_batch_size
                (snd (GroupByNode.StartProducing (S1.node (S1.context 2 false)))))
           (delivered new).
Proof.
  split.
  - apply (proj1 (proj2 (proj2
      (chunks_within_output_batch_size (S1.node (S1.context 2 false)) [])))).
    simpl. lia.
  - eapply (proj2 (proj2 (proj2 (chunks_within_output_batch_size _ _)))).
    apply surjective_pairing.
Defined.

(** C2, the claim as stated: with an executor, when the pool runs the
    second task first, rows [2, 4) of the result are delivered before rows
    [0, 2). *)
Lemma pool_delivers_out_of_order :
  executor (S1.context 2 true) = true ∧
  GroupByNode.out_data_
    (snd (S1.execute (S1.context 2 true)
            (S1.events [0; 0; 0; 0; 0; 0]%nat S1.batches [1; 0]%nat))) = S1.result ∧
  delivered (GroupByNode.calls
    (snd (S1.execute (S1.context 2 true)
            (S1.events [0; 0; 0; 0; 0; 0]%nat S1.batches [1; 0]%nat))))
  = [ExecBatch.Slice S1.result (2 * 1) 2; ExecBatch.Slice S1.result (2 * 0) 2] ∧
  ExecBatch.Slice S1.result (2 * 1) 2 ≠ ExecBatch.Slice S1.result (2 * 0) 2.
Proof.
  split; [reflexivity|]. split; [vm_compute; reflexivity|].
  split; [vm_compute; reflexivity|]. vm_compute. discriminate.
Qed.

Lemma output_order_witness :
  ∃ n2,
    GroupByNode.OutputResult
      (snd (S1.execute (S1.context 2 false)
              (S1.arrivals [0; 0; 0; 0; 0; 0]%nat S1.batches)))
    = (Ok tt, n2) ∧
    delivered (GroupByNode.calls n2)
    = [ExecBatch.Slice S1.result (2 * 0) 2; ExecBatch.Slice S1.result (2 * 1) 2].
Proof.
  set (n := snd (S1.execute (S1.context 2 false)
                   (S1.arrivals [0; 0; 0; 0; 0; 0]%nat S1.batches))).
  assert (executor (GroupByNode.ctx_ n) = false) as Hex by (vm_compute; reflexivity).
  destruct (output_order n S1.result
              (snd ((GroupByNode.Merge ;; GroupByNode.Finalize) n)))
    as (num & n2 & Hnum & H); [vm_compute; reflexivity..|].
  cbv zeta in H. rewrite Hex in H. destruct H as [Hout Hdel].
  exists n2. split; [exact Hout|].
  vm_compute in Hnum. injection Hnum as <-. exact Hdel.
Defined.

(** C9, the claim as stated: the function [add] resolves in the registry
    and is not a scalar aggregate, yet the construction of [add(nokey)]
    fails with another status: the target of an aggregate is looked up
    before its function. *)
Lemma Make_fails_before_kind_test :
  ScalarCount.registry "add" = Ok ScalarCount.add ∧
  ScalarAggregateNode.kind ScalarCount.add ≠ SCALAR_AGGREGATE ∧
  ScalarAggregateNode.Make ScalarCount.plan [S1.schema]
    (ScalarCount.options [ScalarCount.aggregate "add" "nokey"])
  = Raise (mkStatus Invalid "No match for FieldRef nokey") ∧
  mkStatus Invalid "No match for FieldRef nokey"
  ≠ mkStatus Invalid "Provided non ScalarAggregateFunction add".
Proof. split_and!; [reflexivity|discriminate|reflexivity|discriminate]. Qed.

Lemma Make_rejects_non_scalar_aggregate_witness :
  ScalarAggregateNode.Make ScalarCount.plan [S1.schema]
    (ScalarCount.options
       [ScalarCount.aggregate "count" "argument"; ScalarCount.aggregate "add" "argument"])
  = Raise (mkStatus Invalid "Provided non ScalarAggregateFunction add").
Proof.
  apply (proj2 (Make_rejects_non_scalar_aggregate ScalarCount.plan [S1.schema]
    (ScalarCount.options
       [ScalarCount.aggregate "count" "argument"; ScalarCount.aggregate "add" "argument"])
    [ScalarCount.aggregate "count" "argument"] (ScalarCount.aggregate "add" "argument") []
    ScalarCount.add eq_refl eq_refl ltac:(discriminate)) S1.schema);
    reflexivity.
Defined.


(** ** The id comparison of the Grouper tests *)

Section AssertEquivalentIds.
Import TestGrouper.

Lemma max_id_ge ids : ∀ m0, m0 ≤ foldl (fun max_id id => if max_id <? id then id else max_id) m0 ids ∧
  Forall (fun id => id ≤ foldl (fun max_id id => if max_id <? id then id else max_id) m0 ids) ids.
Proof.
  induction ids as [|id ids IH]; intros m0; simpl.
  - split; [lia|constructor].
  - destruct (IH (if m0 <? id then id else m0)) as [H1 H2].
    destruct (Z.ltb_spec m0 id); (split; [lia|constructor; [lia|done]]).
Qed.

Lemma max_id_bound ids b :
  0 ≤ b -> Forall (fun id => id ≤ b) ids -> max_id ids ≤ b.
Proof.
  unfold max_id. intros Hb. generalize 0 Hb. clear Hb.
  induction ids as [|id ids IH]; intros m0 Hm H; simpl; [done|].
  inversion_clear H. apply IH; [|done]. by destruct (Z.ltb_spec m0 id).
Qed.

Lemma consistent_of_maps ls rs seen m :
  maps_of ls rs seen m -> consistent_ids seen.
Proof.
  intros (_ & _ & _ & _ & Hs & _) l1 r1 l2 r2 H1 H2.
  destruct (Hs _ _ H1) as (? & ? & _ & Ha1 & _ & Hb1).
  destruct (Hs _ _ H2) as (? & ? & _ & Ha2 & _ & Hb2).
  split; intros ->; congruence.
Qed.

(** One row: either both assertions hold and the vectors account for the
    row too, or one fails and the row contradicts a row seen before. *)
Lemma visit_spec ls rs seen m l r :
  maps_of ls rs seen m ->
  0 ≤ l -> (Z.to_nat l < ls)%nat -> 0 ≤ r -> (Z.to_nat r < rs)%nat ->
  ∃ ok m', visit m l r = Ok (ok, m') ∧
    if ok then maps_of ls rs (seen ++ [(l, r)]) m'
    else ¬ consistent_ids (seen ++ [(l, r)]).
Proof.
  intros (Hlp & Hl & Hrp & Hr & Hs & Hpl & Hpr) Hl0 Hll Hr0 Hrr.
  assert (∀ x y, x ∈ seen -> x ∈ seen ++ [y]) as Hold
    by (intros; apply elem_of_app; by left).
  assert (∀ x, x ∈ seen ++ [x]) as Hnew
    by (intros; apply elem_of_app; right; by apply list_elem_of_singleton).
  unfold visit.
  destruct (left_to_right_present m !! Z.to_nat l) as [lp|] eqn:Elp;
    [|apply lookup_ge_None in Elp; lia].
  destruct (right_to_left_present m !! Z.to_nat r) as [rp|] eqn:Erp;
    [|apply lookup_ge_None in Erp; lia].
  destruct (left_to_right m !! Z.to_nat l) as [r0|] eqn:El;
    [|apply lookup_ge_None in El; lia].
  destruct (right_to_left m !! Z.to_nat r) as [l0|] eqn:Er;
    [|apply lookup_ge_None in Er; lia].
  cbn [deref result_bind].
  destruct lp, rp; cbn [deref result_bind right_to_left_present left_to_right_present
                          right_to_left left_to_right];
    rewrite ?Erp, ?Er, ?El; cbn [deref result_bind right_to_left_present
                          left_to_right_present right_to_left left_to_right];
    rewrite ?list_lookup_insert_eq by lia; cbn [deref result_bind];
    rewrite ?Er, ?El; cbn [deref result_bind].
  - (* both ids were seen *)
    destruct (Hpl _ Elp) as (l1 & r1 & Hin1 & Hk1).
    destruct (Hpr _ Erp) as (l2 & r2 & Hin2 & Hk2).
    destruct (Hs _ _ Hin1) as (? & ? & _ & Ha1 & _ & _).
    destruct (Hs _ _ Hin2) as (? & ? & _ & _ & _ & Hb2).
    assert (l1 = l) as -> by lia. assert (r2 = r) as -> by lia.
    assert (r1 = r0) as -> by congruence. assert (l2 = l0) as -> by congruence.
    destruct (decide (l = l0)) as [<-|Hne]; cbn [deref result_bind]; rewrite ?El;
      cbn [deref result_bind].
    + destruct (decide (r = r0)) as [<-|Hne].
      * rewrite bool_decide_eq_true_2 by done. eexists _, _. split; [done|]. simpl.
        split_and!; [done..| | |].
        -- intros l' r' [Hin|[= -> ->]%list_elem_of_singleton]%elem_of_app; by apply Hs.
        -- intros k Hk. destruct (Hpl _ Hk) as (l' & r' & ? & ?).
           exists l', r'. split; [|done]. by apply Hold.
        -- intros k Hk. destruct (Hpr _ Hk) as (l' & r' & ? & ?).
           exists l', r'. split; [|done]. by apply Hold.
      * rewrite bool_decide_eq_false_2 by done. eexists _, _. split; [done|]. simpl.
        intros Hc. apply Hne. symmetry.
        by apply (Hc l r0 l r); [apply Hold|apply Hnew|].
    + eexists _, _. split; [done|]. simpl.
      intros Hc. apply Hne. symmetry.
      by apply (Hc l0 r l r); [apply Hold|apply Hnew|].
  - (* the left id was seen, the right one was not *)
    destruct (Hpl _ Elp) as (l1 & r1 & Hin1 & Hk1).
    destruct (Hs _ _ Hin1) as (? & ? & _ & Ha1 & Hrp1 & _).
    assert (l1 = l) as -> by lia. assert (r1 = r0) as -> by congruence.
    assert (r ≠ r0) as Hne by (intros ->; congruence).
    rewrite decide_True by done. rewrite ?El. cbn [deref result_bind].
    rewrite bool_decide_eq_false_2 by done. eexists _, _. split; [done|]. simpl.
    intros Hc. apply Hne. symmetry.
    by apply (Hc l r0 l r); [apply Hold|apply Hnew|].
  - (* the right id was seen, the left one was not *)
    destruct (Hpr _ Erp) as (l2 & r2 & Hin2 & Hk2).
    destruct (Hs _ _ Hin2) as (? & ? & Hlp2 & _ & _ & Hb2).
    assert (r2 = r) as -> by lia. assert (l2 = l0) as -> by congruence.
    assert (l ≠ l0) as Hne by (intros ->; congruence).
    rewrite decide_False by done. eexists _, _. split; [done|]. simpl.
    intros Hc. apply Hne. symmetry.
    by apply (Hc l0 r l r); [apply Hold|apply Hnew|].
  - (* both ids are new *)
    rewrite decide_True by done. rewrite ?list_lookup_insert_eq by lia.
    cbn [deref result_bind].
    rewrite bool_decide_eq_true_2 by done. eexists _, _. split; [done|]. simpl.
    unfold maps_of; simpl; rewrite ?length_insert; split_and!; [done..| | |].
    + intros l' r' [Hin|[= -> ->]%list_elem_of_singleton]%elem_of_app.
      * destruct (Hs _ _ Hin) as (? & ? & Ha & Hb & Hc & Hd).
        assert (Z.to_nat l' ≠ Z.to_nat l) by (intros Heq; congruence).
        assert (Z.to_nat r' ≠ Z.to_nat r) by (intros Heq; congruence).
        rewrite !list_lookup_insert_ne by done. done.
      * rewrite !list_lookup_insert_eq by lia. done.
    + intros k Hk. destruct (decide (k = Z.to_nat l)) as [->|Hne].
      * exists l, r. split; [|done]. apply Hnew.
      * rewrite list_lookup_insert_ne in Hk by done.
        destruct (Hpl _ Hk) as (l' & r' & ? & ?).
        exists l', r'. split; [|done]. by apply Hold.
    + intros k Hk. destruct (decide (k = Z.to_nat r)) as [->|Hne].
      * exists l, r. split; [|done]. apply Hnew.
      * rewrite list_lookup_insert_ne in Hk by done.
        destruct (Hpr _ Hk) as (l' & r' & ? & ?).
        exists l', r'. split; [|done]. by apply Hold.
Qed.

Lemma visit_all_spec ls rs ids : ∀ seen m,
  maps_of ls rs seen m ->
  Forall (fun p => 0 ≤ p.1 ∧ (Z.to_nat p.1 < ls)%nat ∧ 0 ≤ p.2 ∧ (Z.to_nat p.2 < rs)%nat) ids ->
  ∃ b, visit_all m ids = Ok b ∧ (b = true ↔ consistent_ids (seen ++ ids)).
Proof.
  induction ids as [|[l r] ids IH]; intros seen m Hm Hids.
  - exists true. split; [done|]. rewrite app_nil_r. split; [|done].
    intros _. by eapply consistent_of_maps.
  - apply Forall_cons in Hids as [(? & ? & ? & ?) Hrest]. cbn [fst snd] in *.
    cbn [visit_all].
    destruct (visit_spec ls rs seen m l r) as (ok & m' & -> & Hok); [done..|].
    cbn [result_bind fst snd]. destruct ok.
    + destruct (IH _ _ Hok Hrest) as (b & -> & Hb). exists b. split; [done|].
      by rewrite <- app_assoc in Hb.
    + exists false. split; [done|]. split; [done|]. intros Hc. exfalso. apply Hok.
      intros l1 r1 l2 r2 Hin1 Hin2. apply Hc.
      * rewrite cons_middle, app_assoc. apply elem_of_app. by left.
      * rewrite cons_middle, app_assoc. apply elem_of_app. by left.
Qed.

Lemma consistent_equivalent left_ids right_ids :
  length left_ids = length right_ids ->
  consistent_ids (zip left_ids right_ids) ↔ equivalent_ids left_ids right_ids.
Proof.
  intros Hlen. split.
  - intros Hc. split; [done|]. intros i j l1 r1 l2 r2 Hl1 Hr1 Hl2 Hr2.
    apply Hc.
    + apply list_elem_of_lookup. exists i. apply lookup_zip_with_Some. eauto.
    + apply list_elem_of_lookup. exists j. apply lookup_zip_with_Some. eauto.
  - intros [_ He] l1 r1 l2 r2 [i Hi]%list_elem_of_lookup [j Hj]%list_elem_of_lookup.
    apply lookup_zip_with_Some in Hi as (? & ? & [= <- <-] & ? & ?).
    apply lookup_zip_with_Some in Hj as (? & ? & [= <- <-] & ? & ?).
    by eapply He.
Qed.

(** X1: on ids below the largest uint32, [AssertEquivalentIds] is defined,
    and it passes exactly when the two buffers have the same length and any
    two rows have the same id on the left exactly when they have the same id
    on the right. *)
Theorem AssertEquivalentIds_spec (left_ids right_ids : list Z) :
  Forall (fun id => 0 ≤ id < 2 ^ 32 - 1) left_ids ->
  Forall (fun id => 0 ≤ id < 2 ^ 32 - 1) right_ids ->
  ∃ passed, AssertEquivalentIds left_ids right_ids = Ok passed ∧
    (passed = true ↔ equivalent_ids left_ids right_ids).
Proof.
  intros Hleft Hright. unfold AssertEquivalentIds.
  destruct (decide (length left_ids = length right_ids)) as [Hlen|Hlen].
  - assert (∀ ids, Forall (fun id => 0 ≤ id < 2 ^ 32 - 1) ids ->
              0 ≤ max_id ids < 2 ^ 32 - 1 ∧ Forall (fun id => id ≤ max_id ids) ids) as Hmax.
    { intros ids Hids. destruct (max_id_ge ids 0) as [H0 Hge]. split; [|done].
      split; [done|].
      assert (max_id ids ≤ 2 ^ 32 - 2); [|lia].
      apply max_id_bound; [lia|]. eapply Forall_impl; [exact Hids|]. intros x Hx. cbv beta in *. lia. }
    destruct (Hmax _ Hleft) as [Hml Hgl]. destruct (Hmax _ Hright) as [Hmr Hgr].
    unfold uint32_add. rewrite !Z.mod_small by lia.
    cbv zeta.
    match goal with
    | |- context [visit_all ?m _] =>
        destruct (visit_all_spec (Z.to_nat (max_id left_ids + 1))
                    (Z.to_nat (max_id right_ids + 1)) (zip left_ids right_ids) [] m)
          as (b & Hb & Hspec)
    end.
    + unfold maps_of. cbn [right_to_left_present left_to_right_present
                             right_to_left left_to_right].
      rewrite !length_replicate. split_and!; [done..| | |].
      * intros l r Hin. by apply elem_of_nil in Hin.
      * intros k [[=] _]%lookup_replicate.
      * intros k [[=] _]%lookup_replicate.
    + apply Forall_forall. intros [l r] [i Hi]%list_elem_of_lookup.
      apply lookup_zip_with_Some in Hi as (? & ? & [= <- <-] & Hl & Hr).
      rewrite Forall_forall in Hleft, Hright, Hgl, Hgr.
      apply list_elem_of_lookup_2 in Hl, Hr.
      specialize (Hleft _ Hl). specialize (Hright _ Hr).
      specialize (Hgl _ Hl). specialize (Hgr _ Hr). simpl. lia.
    + exists b. split; [exact Hb|]. rewrite Hspec. simpl.
      by apply consistent_equivalent.
  - exists false. split; [done|]. split; [done|]. by intros [? _].
Qed.
End AssertEquivalentIds.

(** ** Slicing a batch into chunks *)

Lemma rows_row_at b :
  ExecBatch.rows b = row_at b <$> seq 0 (Z.to_nat (ExecBatch.length b)).
Proof. done. Qed.

Lemma cell_at_slice d (offset len : Z) r :
  0 ≤ offset -> (r < Z.to_nat len)%nat ->
  ExecBatch.cell_at (ExecBatch.slice_datum offset len d) r
  = ExecBatch.cell_at d (Z.to_nat offset + r).
Proof.
  intros Ho Hr. destruct d as [cells|c]; simpl; [|done].
  by rewrite lookup_take_lt, lookup_drop by done.
Qed.

Lemma rows_Slice b (offset len : Z) :
  0 ≤ offset ->
  ExecBatch.rows (ExecBatch.Slice b offset len)
  = row_at b <$> seq (Z.to_nat offset)
                     (Z.to_nat (Z.min len (ExecBatch.length b - offset))).
Proof.
  intros Ho. unfold ExecBatch.rows, ExecBatch.Slice, row_at. simpl.
  set (m := Z.to_nat (Z.min len (ExecBatch.length b - offset))).
  assert (m ≤ Z.to_nat len)%nat as Hm by lia.
  replace (seq (Z.to_nat offset) m) with (Nat.add (Z.to_nat offset) <$> seq 0 m)
    by (rewrite fmap_add_seq; f_equal; lia).
  change (map ?f ?l) with (f <$> l). rewrite <- list_fmap_compose.
  apply list_fmap_ext. intros i r Hr. simpl.
  apply lookup_seq in Hr as [-> Hr]. simpl.
  rewrite <- list_fmap_compose. apply list_fmap_ext. intros j d _. simpl.
  apply cell_at_slice; lia.
Qed.

(** The first [k] chunks of [size] rows hold the first [k * size] rows
    of the batch, in order. *)
Lemma rows_chunks out (size : Z) (k : nat) :
  0 < size ->
  concat (ExecBatch.rows <$> chunks_of out size (Z.of_nat <$> seq 0 k))
  = row_at out <$> seq 0 (Z.to_nat (Z.min (Z.of_nat k * size) (ExecBatch.length out))).
Proof.
  intros Hs. unfold chunks_of. induction k as [|k IH].
  - by replace (Z.to_nat (Z.min (Z.of_nat 0 * size) (ExecBatch.length out)))
      with 0%nat by lia.
  - rewrite seq_S, !fmap_app, concat_app, IH. simpl. rewrite app_nil_r.
    rewrite rows_Slice by lia. rewrite <- fmap_app. f_equal.
    set (len := ExecBatch.length out).
    destruct (decide (Z.of_nat k * size ≤ len)) as [Hle|Hgt].
    + replace (Z.to_nat (Z.min (Z.of_nat k * size) len)) with (Z.to_nat (size * Z.of_nat k))
        by lia.
      replace (Z.to_nat (Z.min (Z.of_nat (S k) * size) len))
        with (Z.to_nat (size * Z.of_nat k)
              + Z.to_nat (Z.min size (len - size * Z.of_nat k)))%nat by lia.
      by rewrite seq_app.
    + replace (Z.to_nat (Z.min size (len - size * Z.of_nat k))) with 0%nat by lia.
      simpl. rewrite app_nil_r. f_equal. lia.
Qed.

Lemma CeilDiv_Ok value divisor num :
  0 ≤ value -> 0 ≤ divisor -> CeilDiv value divisor = Ok num ->
  0 ≤ num ≤ value ∧ (value = 0 ∨ 0 < divisor) ∧ value ≤ num * divisor.
Proof.
  intros Hv Hd. unfold CeilDiv.
  destruct (Z.eqb_spec value 0) as [->|Hv0]; [intros [= <-]; lia|].
  destruct (Z.eqb_spec divisor 0) as [->|Hd0]; [done|].
  intros [= <-].
  pose proof (Z.quot_pos (value - 1) divisor ltac:(lia) ltac:(lia)).
  pose proof (Z.quot_le_upper_bound (value - 1) divisor (value - 1) ltac:(lia)).
  rewrite Z.quot_div_nonneg by lia.
  pose proof (Z.mul_div_le (value - 1) divisor ltac:(lia)).
  pose proof (Z.mul_succ_div_gt (value - 1) divisor ltac:(lia)).
  rewrite Z.quot_div_nonneg in * by lia.
  split; [|split; [lia|nia]]. split; [lia|].
  assert ((value - 1) `div` divisor ≤ value - 1); [|lia].
  apply Z.div_le_upper_bound; nia.
Qed.

(** All the chunks together hold all the rows. *)
Lemma rows_all_chunks out (size num : Z) :
  0 ≤ ExecBatch.length out -> 0 ≤ size ->
  CeilDiv (ExecBatch.length out) size = Ok num ->
  concat (ExecBatch.rows <$> chunks_of out size (Z.of_nat <$> seq 0 (Z.to_nat num)))
  = ExecBatch.rows out.
Proof.
  intros Hlen Hsize Hnum.
  destruct (CeilDiv_Ok _ _ _ Hlen Hsize Hnum) as (Hn & Hs & Hcover).
  destruct Hs as [H0|Hpos].
  - assert (num = 0) as -> by lia. simpl.
    unfold ExecBatch.rows. by rewrite H0.
  - rewrite rows_chunks by done. rewrite rows_row_at. do 2 f_equal. lia.
Qed.

(** ** GroupByNode: the chunks are the result *)

Section GroupByNode_result.
Context {KS : Type}.
Import GroupByNode.
Implicit Types (n : GroupByNode.t KS).
#[local] Existing Instance same_output_preorder.

Lemma output_batch_size_nonneg n : 0 ≤ output_batch_size n.
Proof.
  unfold output_batch_size.
  destruct (Z.ltb_spec (to_int (exec_chunksize (ctx_ n))) 0); lia.
Qed.

Lemma to_int_small z : 0 ≤ z < 2 ^ 31 -> to_int z = z.
Proof. intros Hz. unfold to_int. rewrite Z.mod_small; lia. Qed.

Lemma Finalize_length n out n1 :
  Finalize n = (Ok out, n1) -> 0 ≤ ExecBatch.length out.
Proof.
  unfold Finalize. intros H.
  apply bind_Ok_inv in H as (? & na & _ & H).
  apply bind_Ok_inv in H as (g & nb & _ & H).
  apply bind_Ok_inv in H as (kernels & ? & _ & H).
  apply bind_Ok_inv in H as (agg_columns & nc & _ & H).
  apply bind_Ok_inv in H as (out_keys & ? & _ & H).
  apply bind_Ok_inv in H as (? & nd & _ & H).
  apply bind_Ok_inv in H as (? & ne & _ & H).
  apply bind_Ok_inv in H as (? & nf & _ & H).
  apply bind_Ok_inv in H as (? & ng & _ & H).
  apply bind_Ok_inv in H as (? & nh & _ & H).
  injection H as <- _. simpl. lia.
Qed.

(** [OutputResult] up to its loop: the result is stored, its number of
    chunks is recorded in the output counter and announced downstream. *)
Lemma OutputResult_loop n out n1 :
  finished_ n = false ->
  output_counter_ n = AtomicCounter.init ->
  spawned n = [] ->
  (Merge ;; Finalize) n = (Ok out, n1) ->
  ∃ num n1',
    CeilDiv (ExecBatch.length out) (output_batch_size n) = Ok num ∧
    0 ≤ ExecBatch.length out ∧
    OutputResult n
    = output_loop (executor (ctx_ n)) (Z.of_nat <$> seq 0 (Z.to_nat (to_int num))) n1' ∧
    ctx_ n1' = ctx_ n ∧ out_data_ n1' = out ∧
    calls n1' = calls n ++ [Output_InputFinished (to_int num)] ∧
    spawned n1' = [] ∧
    output_counter_ n1'
    = AtomicCounter.mk 0 (Some (to_int num)) (bool_decide (to_int num = 0)) ∧
    finished_ n1' = bool_decide (to_int num = 0).
Proof.
  intros Hfin Hoc Hsp H.
  apply bind_Ok_inv in H as ([] & nm & HMerge & HFinalize).
  pose proof (Merge_same_output _ _ _ HMerge) as (Hctx & Hoc' & Hfin' & Hcalls & Hsp' & _).
  destruct (Finalize_Ok _ _ _ HFinalize) as (num & Hnum & Hctx1 & Hcalls1 & Hsp1 & Hoc1 & Hfin1).
  assert (output_batch_size nm = output_batch_size n) as Hbs
    by (unfold output_batch_size; by rewrite Hctx).
  rewrite Hbs in Hnum. rewrite Hoc', Hoc, SetTotal_init in Hoc1, Hfin1.
  simpl in Hoc1, Hfin1. rewrite Hfin', Hfin, orb_false_r in Hfin1.
  exists num,
    (set_calls (calls n1 ++ [Output_InputFinished (to_int num)]) (set_out_data_ out n1)).
  split_and!; [done|by eapply Finalize_length| |simpl; congruence|done|
               simpl; congruence|simpl; congruence|done|done].
  unfold OutputResult. rewrite (bind_Ok _ _ _ _ _ HMerge).
  rewrite (bind_Ok _ _ _ _ _ HFinalize).
  unfold mbind, M_bind, modify, gets, lift, call, modify.
  cbn [output_counter_ set_out_data_ AtomicCounter.total]. rewrite Hoc1.
  cbn [AtomicCounter.total_ deref ctx_ set_calls set_out_data_].
  by rewrite Hctx1, Hctx.
Qed.

(** Without an executor the loop delivers every chunk, and the last
    delivery finishes the node. *)
Lemma output_loop_serial_all m : ∀ j n,
  finished_ n = false ->
  output_counter_ n = AtomicCounter.mk (Z.of_nat j) (Some (Z.of_nat (j + S m))) false ->
  ∃ n', output_loop false (Z.of_nat <$> seq j (S m)) n = (Ok tt, n') ∧
    calls n' = calls n ++ (chunk n <$> (Z.of_nat <$> seq j (S m))) ∧
    spawned n' = spawned n ∧ finished_ n' = true.
Proof.
  induction m as [|m IH]; intros j n Hfin Hoc.
  - cbn [seq fmap list_fmap output_loop].
    rewrite (bind_Ok _ _ _ _ _ (OutputNthBatch_running n _ Hfin)).
    unfold deliver. rewrite Hoc. unfold AtomicCounter.Increment.
    cbn [AtomicCounter.count_ AtomicCounter.total_ AtomicCounter.complete_].
    rewrite decide_True by (f_equal; lia). simpl. eexists. done.
  - cbn [seq fmap list_fmap output_loop].
    rewrite (bind_Ok _ _ _ _ _ (OutputNthBatch_running n _ Hfin)).
    unfold deliver. rewrite Hoc. unfold AtomicCounter.Increment.
    cbn [AtomicCounter.count_ AtomicCounter.total_ AtomicCounter.complete_].
    rewrite decide_False by (intros [= ?]; lia). cbn [id].
    set (n1 := set_output_counter_ _ _).
    destruct (IH (S j) n1) as (n' & Hrun & Hcalls & Hsp & Hf).
    { done. }
    { subst n1. simpl. f_equal; [lia|]. f_equal. lia. }
    exists n'. split; [done|]. rewrite Hcalls, Hsp, Hf. subst n1. simpl.
    rewrite <- app_assoc. done.
Qed.

Lemma chunk_chunks_of n (tasks : list Z) :
  chunk n <$> tasks
  = Output_InputReceived <$> chunks_of (out_data_ n) (output_batch_size n) tasks.
Proof. unfold chunks_of. by rewrite <- list_fmap_compose. Qed.

(** X2: without an executor, [OutputResult] announces the number of chunks
    and then delivers that many batches; their rows, in the order of
    delivery, are the rows of the finalized result. *)
Theorem serial_output_is_result n (out : ExecBatch.t) n1 :
  finished_ n = false ->
  output_counter_ n = AtomicCounter.init ->
  spawned n = [] ->
  executor (ctx_ n) = false ->
  (Merge ;; Finalize) n = (Ok out, n1) ->
  ExecBatch.length out < 2 ^ 31 ->
  ∃ n2 batches,
    OutputResult n = (Ok tt, n2) ∧
    calls n2 = calls n ++ Output_InputFinished (Z.of_nat (length batches))
                       :: (Output_InputReceived <$> batches) ∧
    concat (ExecBatch.rows <$> batches) = ExecBatch.rows out ∧
    finished_ n2 = true.
Proof.
  intros Hfin Hoc Hsp Hex H Hlen.
  destruct (OutputResult_loop _ _ _ Hfin Hoc Hsp H)
    as (num & n1' & Hnum & Hlen0 & -> & Hctx & Hout & Hcalls & Hsp1 & Hoc1 & Hfin1).
  destruct (CeilDiv_Ok _ _ _ Hlen0 (output_batch_size_nonneg n) Hnum) as (Hn & _ & _).
  rewrite to_int_small in * by lia. rewrite Hex.
  assert (output_batch_size n1' = output_batch_size n) as Hbs
    by (unfold output_batch_size; by rewrite Hctx).
  set (tasks := Z.of_nat <$> seq 0 (Z.to_nat num)).
  assert (length (chunks_of out (output_batch_size n) tasks) = Z.to_nat num) as Hlenb.
  { unfold chunks_of, tasks. by rewrite !length_fmap, length_seq. }
  assert (∃ n2, output_loop false tasks n1' = (Ok tt, n2) ∧
            calls n2 = calls n1' ++ (chunk n1' <$> tasks) ∧ finished_ n2 = true)
    as (n2 & Hloop & Hc2 & Hf2).
  { destruct (Z.to_nat num) as [|m] eqn:Hm.
    - exists n1'. simpl. rewrite app_nil_r. split_and!; [done..|].
      rewrite Hfin1. apply bool_decide_eq_true_2. lia.
    - destruct (output_loop_serial_all m 0 n1') as (n2 & ? & ? & _ & ?).
      + rewrite Hfin1. apply bool_decide_eq_false_2. lia.
      + rewrite Hoc1. rewrite bool_decide_eq_false_2 by lia. f_equal. f_equal. lia.
      + by exists n2. }
  exists n2, (chunks_of out (output_batch_size n) tasks).
  split_and!; [done| |by eapply rows_all_chunks; [|apply output_batch_size_nonneg|]|done].
  rewrite Hc2, Hcalls, chunk_chunks_of, Hout, Hbs, Hlenb, <- app_assoc.
  simpl. do 3 f_equal. lia.
Qed.
End GroupByNode_result.

(** ** GroupByNode: the chunks a thread pool delivers *)

Lemma picks_submseteq (ks : list nat) : ∀ tasks : list Z, picks ks tasks ⊆+ tasks.
Proof.
  induction ks as [|k ks IH]; intros tasks; simpl.
  - apply submseteq_nil_l.
  - destruct (tasks !! k) as [i|] eqn:Hk; [|done].
    rewrite (delete_Permutation tasks k i Hk) at 2.
    by apply submseteq_skip.
Qed.

Section GroupByNode_pool.
Context {KS : Type}.
Import GroupByNode.
Implicit Types (n : GroupByNode.t KS).

Lemma deliver_accounted n k i :
  tasks_accounted n -> spawned n !! k = Some i ->
  tasks_accounted (deliver (set_spawned (delete k (spawned n)) n) i).
Proof.
  intros [[Hnil _]|(_ & Hfin & Hc & Ht)] Hk; [by rewrite Hnil in Hk|].
  pose proof (lookup_lt_Some _ _ _ Hk) as Hlt.
  pose proof (length_delete (spawned n) k (mk_is_Some _ _ Hk)) as Hlen.
  unfold deliver, AtomicCounter.Increment, AtomicCounter.DoneOnce.
  cbn [output_counter_ set_spawned].
  cbn [AtomicCounter.count_ AtomicCounter.total_ AtomicCounter.complete_].
  rewrite Hc, Ht.
  destruct (decide _) as [Heq|Hne].
  - left. simpl. split; [|done]. apply nil_length_inv. injection Heq. lia.
  - right. simpl. split_and!; [|done..|f_equal; lia].
    intros Hnil. apply Hne. f_equal. rewrite Hnil in Hlen. simpl in Hlen. lia.
Qed.

(** The pool runs tasks in any order: each task that waits delivers its
    chunk, and the task that leaves none waiting finishes the node. *)
Lemma run_tasks_accounted ks : ∀ n,
  tasks_accounted n ->
  ∃ n', run (EvRunTask <$> ks) n = (Ok tt, n') ∧
    calls n' = calls n ++ (chunk n <$> picks ks (spawned n)) ∧
    tasks_accounted n' ∧
    (length (picks ks (spawned n)) + length (spawned n') = length (spawned n))%nat.
Proof.
  induction ks as [|k ks IH]; intros n Hp.
  - exists n. simpl. by rewrite app_nil_r.
  - cbn [fmap list_fmap run forM_ step picks].
    destruct (spawned n !! k) as [i|] eqn:Hk.
    + assert (finished_ n = false) as Hfin.
      { destruct Hp as [[Hnil _]|(_ & Hfin & _)]; [by rewrite Hnil in Hk|done]. }
      pose proof (deliver_accounted n k i Hp Hk) as Hp'.
      pose proof (length_delete (spawned n) k (mk_is_Some _ _ Hk)) as Hlen.
      pose proof (lookup_lt_Some _ _ _ Hk) as Hlt.
      set (n0 := set_spawned (delete k (spawned n)) n) in *.
      assert (RunTask k n = (Ok tt, deliver n0 i)) as Hrun.
      { rewrite (RunTask_Some _ _ _ Hk). by apply OutputNthBatch_running. }
      rewrite (bind_Ok _ _ _ _ _ Hrun).
      destruct (IH _ Hp') as (n' & Hrun' & Hcalls & Hacc & Hl).
      exists n'. split; [done|]. rewrite Hcalls, deliver_calls.
      rewrite spawned_deliver in Hl |- *.
      split_and!; [|done|].
      * rewrite <- app_assoc. simpl. f_equal. f_equal.
        apply list_fmap_ext. intros ? j _. by rewrite chunk_deliver.
      * subst n0. simpl in *. lia.
    + rewrite (bind_Ok _ _ _ _ _ (RunTask_None _ _ Hk)).
      destruct (IH n Hp) as (n' & Hrun & Hcalls & Hacc & Hl). by exists n'.
Qed.

(** X3: with an executor whose pool takes every task, when merge and
    finalize succeed on a node that has produced no output yet and the
    result has fewer than 2^31 rows, [OutputResult] announces the number
    of chunks and hands one task per chunk to the pool.  However the pool
    orders the tasks, the batches delivered and the tasks still waiting
    add up to the announced number; once no task waits, the node is
    finished and the rows delivered are the rows of the finalized result,
    up to the order of the chunks. *)
Theorem pool_output_is_result n (out : ExecBatch.t) n1 :
  finished_ n = false ->
  output_counter_ n = AtomicCounter.init ->
  spawned n = [] ->
  executor (ctx_ n) = true ->
  (∀ i, executor_Spawn (ctx_ n) i = Ok tt) ->
  (Merge ;; Finalize) n = (Ok out, n1) ->
  ExecBatch.length out < 2 ^ 31 ->
  ∃ n2 total,
    OutputResult n = (Ok tt, n2) ∧
    calls n2 = calls n ++ [Output_InputFinished (Z.of_nat total)] ∧
    length (spawned n2) = total ∧
    ∀ ks, ∃ n3 batches,
      run (EvRunTask <$> ks) n2 = (Ok tt, n3) ∧
      calls n3 = calls n2 ++ (Output_InputReceived <$> batches) ∧
      (length batches + length (spawned n3) = total)%nat ∧
      (spawned n3 = [] ->
       finished_ n3 = true ∧
       concat (ExecBatch.rows <$> batches) ≡ₚ ExecBatch.rows out).
Proof.
  intros Hfin Hoc Hsp Hex Hpool H Hlen.
  destruct (OutputResult_loop _ _ _ Hfin Hoc Hsp H)
    as (num & n1' & Hnum & Hlen0 & -> & Hctx & Hout & Hcalls & Hsp1 & Hoc1 & Hfin1).
  destruct (CeilDiv_Ok _ _ _ Hlen0 (output_batch_size_nonneg n) Hnum) as (Hn & _ & _).
  rewrite to_int_small in * by lia. rewrite Hex.
  assert (output_batch_size n1' = output_batch_size n) as Hbs
    by (unfold output_batch_size; by rewrite Hctx).
  set (tasks := Z.of_nat <$> seq 0 (Z.to_nat num)).
  assert (length tasks = Z.to_nat num) as Hlt
    by (unfold tasks; by rewrite length_fmap, length_seq).
  destruct (accepted_all _ tasks Hpool) as [Hacc Hoff].
  assert (∃ n2, output_loop true tasks n1' = (Ok tt, n2) ∧
            calls n2 = calls n1' ∧ spawned n2 = tasks ∧ tasks_accounted n2 ∧
            ∀ i, chunk n2 i = chunk n1' i) as (n2 & Hloop & Hc2 & Hs2 & Hp2 & Hch2).
  { destruct (decide (num = 0)) as [->|Hne].
    - exists n1'. split_and!; [done..| |done]. left. by rewrite Hfin1.
    - assert (finished_ n1' = false) as Hf
        by (rewrite Hfin1; by apply bool_decide_eq_false_2).
      exists (set_spawned (spawned n1' ++ tasks) n1').
      rewrite output_loop_spawn by done. rewrite Hctx, Hacc, Hoff, Hsp1. simpl.
      split_and!; [done..| |done].
      right. simpl. rewrite Hf, Hoc1. simpl.
      rewrite bool_decide_eq_false_2 by done.
      split_and!; [|done..|f_equal; lia].
      intros Hnil. rewrite Hnil in Hlt. simpl in Hlt. lia. }
  exists n2, (Z.to_nat num). split_and!; [done| |by rewrite Hs2|].
  { rewrite Hc2, Hcalls. do 3 f_equal. lia. }
  intros ks. destruct (run_tasks_accounted ks n2 Hp2) as (n3 & Hrun & Hc3 & Hp3 & Hl3).
  exists n3, (chunks_of out (output_batch_size n) (picks ks tasks)).
  split_and!; [done| | |].
  - rewrite Hc3, Hs2. f_equal.
    rewrite (list_fmap_ext (chunk n2) (chunk n1') _ (fun _ i _ => Hch2 i)).
    by rewrite chunk_chunks_of, Hout, Hbs.
  - unfold chunks_of. rewrite length_fmap. rewrite Hs2 in Hl3. lia.
  - intros Hnil. split.
    + destruct Hp3 as [[_ ?]|[? _]]; done.
    + rewrite Hnil, Hs2 in Hl3. simpl in Hl3.
      assert (picks ks tasks ≡ₚ tasks) as Hperm.
      { apply submseteq_length_Permutation; [apply picks_submseteq|lia]. }
      unfold chunks_of. rewrite Hperm.
      fold (chunks_of out (output_batch_size n) tasks). subst tasks.
      by erewrite (rows_all_chunks out (output_batch_size n) num);
        [|done|apply output_batch_size_nonneg|done].
Qed.
End GroupByNode_pool.

(** ** The atomic counter, once more *)

Lemma counter_complete (op : AtomicCounter.t -> bool * AtomicCounter.t) c b c' :
  (op = AtomicCounter.DoneOnce ∨ op = AtomicCounter.Increment ∨
   op = AtomicCounter.Cancel ∨ ∃ total, op = fun c => AtomicCounter.SetTotal c total) ->
  op c = (b, c') ->
  AtomicCounter.complete_ c' = b || AtomicCounter.complete_ c.
Proof.
  assert (∀ c b c', AtomicCounter.DoneOnce c = (b, c') ->
            AtomicCounter.complete_ c' = b || AtomicCounter.complete_ c) as HD.
  { intros c0 b0 c0' [= <- <-]. simpl. by destruct (AtomicCounter.complete_ c0). }
  intros [->|[->|[->|[total ->]]]]; [apply HD| |apply HD|].
  - unfold AtomicCounter.Increment. destruct (decide _); [|by intros [= <- <-]].
    intros H%HD. by rewrite H.
  - unfold AtomicCounter.SetTotal. destruct (decide _); [|by intros [= <- <-]].
    intros H%HD. by rewrite H.
Qed.

Lemma Increment_complete c b c' :
  AtomicCounter.Increment c = (b, c') ->
  AtomicCounter.complete_ c' = b || AtomicCounter.complete_ c.
Proof. apply (counter_complete AtomicCounter.Increment); auto. Qed.

Lemma SetTotal_complete c total b c' :
  AtomicCounter.SetTotal c total = (b, c') ->
  AtomicCounter.complete_ c' = b || AtomicCounter.complete_ c.
Proof. apply (counter_complete (fun c => AtomicCounter.SetTotal c total)); eauto. Qed.

(** ** GroupByNode: what touches only the thread-local side *)

Section GroupByNode_frame_local.
Context {KS : Type}.
Import GroupByNode.
Implicit Types (n : GroupByNode.t KS).

(** A relation that the writes to the thread indexer and to the
    thread-local states keep. *)
Context (R : relation (GroupByNode.t KS)) `{!PreOrder R}.
Hypothesis R_thread : ∀ n x, R n (set_get_thread_index_ x n).
Hypothesis R_local : ∀ n x, R n (set_local_states_ x n).

Lemma local_thread_index thread_id : preserves R (thread_index (KS:=KS) thread_id).
Proof.
  intros n r n'. unfold thread_index.
  destruct (ThreadIndexer.index _ _). intros [= <- <-]. apply R_thread.
Qed.

Lemma local_local_state i : preserves R (local_state (KS:=KS) i).
Proof. unfold local_state. pres. Qed.

Lemma local_set_local_state i s : preserves R (set_local_state (KS:=KS) i s).
Proof. unfold set_local_state. pres. Qed.

Hint Resolve local_thread_index local_local_state local_set_local_state : preserves.

Lemma local_set_grouper i g : preserves R (set_grouper (KS:=KS) i g).
Proof. unfold set_grouper. pres. Qed.

Lemma local_set_agg_states i a : preserves R (set_agg_states (KS:=KS) i a).
Proof. unfold set_agg_states. pres. Qed.

Hint Resolve local_set_grouper local_set_agg_states : preserves.

Lemma local_set_agg_state i k a : preserves R (set_agg_state (KS:=KS) i k a).
Proof. unfold set_agg_state. pres. Qed.

Lemma local_the_grouper i : preserves R (the_grouper (KS:=KS) i).
Proof. unfold the_grouper. pres. Qed.

Lemma local_the_agg_state i k : preserves R (the_agg_state (KS:=KS) i k).
Proof. unfold the_agg_state. pres. Qed.

Hint Resolve local_set_agg_state local_the_grouper local_the_agg_state : preserves.

Lemma local_InitLocalStateIfNeeded i : preserves R (InitLocalStateIfNeeded (KS:=KS) i).
Proof. unfold InitLocalStateIfNeeded. pres. Qed.

Hint Resolve local_InitLocalStateIfNeeded : preserves.

Lemma local_consume_kernel i batch id_batch k :
  preserves R (consume_kernel (KS:=KS) i batch id_batch k).
Proof. unfold consume_kernel. pres. Qed.

Hint Resolve local_consume_kernel : preserves.

Lemma local_Consume thread_id batch : preserves R (Consume (KS:=KS) thread_id batch).
Proof. unfold Consume. pres. Qed.

Lemma local_merge_kernel i transposition k :
  preserves R (merge_kernel (KS:=KS) i transposition k).
Proof. unfold merge_kernel. pres. Qed.

Hint Resolve local_merge_kernel : preserves.

Lemma local_merge_state i : preserves R (merge_state (KS:=KS) i).
Proof. unfold merge_state. pres. Qed.

Hint Resolve local_merge_state : preserves.

Lemma local_Merge : preserves R (Merge (KS:=KS)).
Proof. unfold Merge. pres. Qed.

Lemma local_finalize_kernel k : preserves R (finalize_kernel (KS:=KS) k).
Proof. unfold finalize_kernel. pres. Qed.

Hint Resolve local_finalize_kernel : preserves.

Lemma local_finalize_kernels ks : preserves R (finalize_kernels (KS:=KS) ks).
Proof. induction ks; simpl; pres. Qed.

Hint Resolve local_finalize_kernels : preserves.

(** [Finalize] writes to the output counter and to the finished future
    as well. *)
Hypothesis R_output : ∀ n x, R n (set_output_counter_ x n).
Hypothesis R_finished : ∀ n x, R n (set_finished_ x n).

Lemma local_Finalize : preserves R (Finalize (KS:=KS)).
Proof.
  assert (∀ total, preserves R (output_counter_SetTotal (KS:=KS) total)) as HS.
  { intros total n r n'. unfold output_counter_SetTotal.
    destruct (AtomicCounter.SetTotal _ _). intros [= <- <-]. apply R_output. }
  assert (preserves R (MarkFinished (KS:=KS))) as HM.
  { apply preserves_modify. intros n. apply R_finished. }
  unfold Finalize. pres.
Qed.
End GroupByNode_frame_local.

(** ** GroupByNode: what the output is told *)

Lemma output_data_app (c1 c2 : list Call) :
  output_data (c1 ++ c2) = output_data c1 ++ output_data c2.
Proof. apply omap_app. Qed.

Section GroupByNode_protocol.
Context {KS : Type}.
Import GroupByNode.
Implicit Types (n : GroupByNode.t KS).

Lemma same_trace_preorder : PreOrder (same_trace (KS:=KS)).
Proof.
  split.
  - by intros n.
  - intros n1 n2 n3 (?&?&?) (?&?&?). unfold same_trace. split_and!; congruence.
Qed.
#[local] Existing Instance same_trace_preorder.

Lemma Consume_same_trace thread_id batch n r n' :
  Consume thread_id batch n = (r, n') -> same_trace n n'.
Proof. apply local_Consume; first [exact _|done]. Qed.

Lemma Merge_same_trace n r n' : Merge n = (r, n') -> same_trace n n'.
Proof. apply local_Merge; first [exact _|done]. Qed.

Lemma Finalize_same_trace n r n' : Finalize n = (r, n') -> same_trace n n'.
Proof. apply local_Finalize; first [exact _|done]. Qed.

(** A failure is forwarded, or nothing is. *)
Lemma ErrorIfNotOk_cases (c : M (GroupByNode.t KS) unit) n r n' :
  ErrorIfNotOk c n = (r, n') ->
  ∃ r0 n0, c n = (r0, n0) ∧
    (n' = n0 ∨ ∃ s, n' = set_calls (calls n0 ++ [Output_ErrorReceived s]) n0).
Proof.
  unfold ErrorIfNotOk. destruct (c n) as [[[]|s|] n0]; intros [= <- <-]; eauto 10.
Qed.

Lemma OutputNthBatch_cases n i :
  OutputNthBatch i n = (Ok tt, n) ∨ OutputNthBatch i n = (Ok tt, deliver n i).
Proof.
  destruct (finished_ n) eqn:Hf.
  - left. by apply OutputNthBatch_finished.
  - right. by apply OutputNthBatch_running.
Qed.

Lemma input_counter_deliver n i : input_counter_ (deliver n i) = input_counter_ n.
Proof. unfold deliver. by destruct (AtomicCounter.Increment _) as [[] c]. Qed.

(** A change that tells the output nothing. *)
Lemma output_protocol_same n n' :
  output_data (calls n') = output_data (calls n) ->
  spawned n' = spawned n ->
  (AtomicCounter.complete_ (input_counter_ n) = true ->
   AtomicCounter.complete_ (input_counter_ n') = true) ->
  output_protocol n -> output_protocol n'.
Proof.
  intros Hd Hs Hc [HA HB]. unfold output_protocol, announced_then_delivered in *.
  rewrite Hd, Hs. split; [|done]. intros Hf. apply HA.
  destruct (AtomicCounter.complete_ (input_counter_ n)); [|done]. by rewrite Hc in Hf.
Qed.

Lemma output_protocol_error n s :
  output_protocol n -> output_protocol (set_calls (calls n ++ [Output_ErrorReceived s]) n).
Proof.
  apply output_protocol_same; [|done..]. simpl.
  by rewrite output_data_app, app_nil_r.
Qed.

Lemma announced_error n s waiting :
  announced_then_delivered (calls n) waiting ->
  announced_then_delivered (calls n ++ [Output_ErrorReceived s]) waiting.
Proof.
  unfold announced_then_delivered. by rewrite output_data_app, app_nil_r.
Qed.

(** The emission loop: every round delivers a chunk, hands a task to
    the pool, or stops. *)
Lemma output_loop_protocol has_executor (tasks : list Z) : ∀ n r n' total batches,
  output_data (calls n) = inl total :: (inr <$> batches) ->
  (length batches + length (spawned n) + length tasks ≤ Z.to_nat total)%nat ->
  output_loop has_executor tasks n = (r, n') ->
  input_counter_ n' = input_counter_ n ∧
  ∃ batches',
    output_data (calls n') = inl total :: (inr <$> batches') ∧
    (length batches' + length (spawned n') ≤ Z.to_nat total)%nat.
Proof.
  induction tasks as [|i tasks IH]; intros n r n' total batches Hd Hl;
    cbn [output_loop].
  - intros [= <- <-]. split; [done|]. exists batches. split; [done|]. simpl in Hl. lia.
  - simpl in Hl. destruct has_executor.
    + unfold mbind at 1, M_bind at 1, gets at 1. destruct (finished_ n).
      * intros [= <- <-]. split; [done|]. exists batches. split; [done|]. lia.
      * unfold mbind at 1, M_bind at 1.
        destruct (Spawn_cases i n) as [->|[[s ->]| ->]].
        -- intros Hr.
           eapply IH in Hr as [Hi Hb]; [| |]; simpl in *; [done|exact Hd|].
           rewrite length_app. simpl. lia.
        -- intros [= <- <-]. split; [done|]. exists batches. split; [done|]. lia.
        -- intros [= <- <-]. split; [done|]. exists batches. split; [done|]. lia.
    + unfold mbind at 1, M_bind at 1.
      destruct (OutputNthBatch_cases n i) as [->| ->]; intros Hr.
      * eapply IH in Hr; [done|exact Hd|lia].
      * eapply (IH _ _ _ total (batches ++ [ExecBatch.Slice (out_data_ n)
                  (output_batch_size n * i) (output_batch_size n)])) in Hr
          as [Hi Hb].
        -- by rewrite input_counter_deliver in Hi.
        -- rewrite deliver_calls, output_data_app, Hd. simpl.
           by rewrite fmap_app.
        -- rewrite spawned_deliver, length_app. simpl. lia.
Qed.

(** [OutputResult] on a node that has told its output nothing. *)
Lemma OutputResult_protocol n r n' :
  output_data (calls n) = [] -> spawned n = [] ->
  OutputResult n = (r, n') ->
  input_counter_ n' = input_counter_ n ∧
  announced_then_delivered (calls n') (length (spawned n')).
Proof.
  intros Hd Hs. unfold OutputResult. unfold mbind at 1, M_bind at 1.
  destruct (Merge n) as [rm nm] eqn:Em.
  apply Merge_same_trace in Em as (Hc1 & Hs1 & Hi1).
  assert (∀ m : GroupByNode.t KS, calls m = calls n -> spawned m = spawned n ->
            input_counter_ m = input_counter_ n ->
            input_counter_ m = input_counter_ n ∧
            announced_then_delivered (calls m) (length (spawned m))) as Hnothing.
  { intros m Hc Hsp Hi. split; [done|]. left. by rewrite Hc, Hsp, Hd, Hs. }
  destruct rm as [[]|s|]; [|intros [= <- <-]; by apply Hnothing..].
  unfold mbind at 1, M_bind at 1.
  destruct (Finalize nm) as [rf n1] eqn:Ef.
  apply Finalize_same_trace in Ef as (Hc2 & Hs2 & Hi2).
  destruct rf as [out|s|]; [|intros [= <- <-]; apply Hnothing; congruence..].
  unfold mbind at 1, M_bind at 1, modify at 1.
  unfold mbind at 1, M_bind at 1, gets at 1.
  unfold mbind at 1, M_bind at 1, lift at 1.
  destruct (AtomicCounter.total _) as [total|]; simpl deref;
    [|intros [= <- <-]; apply Hnothing; simpl; congruence].
  unfold mbind at 1, M_bind at 1, call at 1, modify at 1.
  unfold mbind at 1, M_bind at 1, gets at 1.
  intros Hr. eapply (output_loop_protocol _ _ _ _ _ total []) in Hr as [Hi (batches & Hb & Hl)].
  - split; [simpl in Hi; congruence|]. right. by exists total, batches.
  - simpl. rewrite output_data_app, Hc2, Hc1, Hd. done.
  - simpl. rewrite Hs2, Hs1, Hs, length_fmap, length_seq. simpl. lia.
Qed.

(** The counter operation that completes the input counter runs
    [OutputResult]: the one announcement. *)
Lemma output_protocol_OutputResult n c r n' :
  AtomicCounter.complete_ (input_counter_ n) = false ->
  AtomicCounter.complete_ c = true ->
  output_protocol n ->
  ErrorIfNotOk OutputResult (set_input_counter_ c n) = (r, n') ->
  output_protocol n'.
Proof.
  intros Hn Hc [HA _] HE. destruct (HA Hn) as [Hd Hs].
  apply ErrorIfNotOk_cases in HE as (r0 & n0 & H0 & Hn').
  apply OutputResult_protocol in H0 as [Hi Hshape]; [|done..].
  simpl in Hi. destruct Hn' as [->|[s ->]].
  - split; [|done]. by rewrite Hi, Hc.
  - split; [simpl; by rewrite Hi, Hc|]. by apply announced_error.
Qed.

Lemma step_protocol e n r n' :
  step e n = (r, n') -> output_protocol n -> output_protocol n'.
Proof.
  destruct e; simpl; intros Hs HP.
  - (* InputReceived *)
    unfold InputReceived in Hs. unfold mbind at 1, M_bind at 1, gets at 1 in Hs.
    destruct (finished_ n); [by injection Hs as <- <-|].
    unfold mbind at 1, M_bind at 1 in Hs.
    destruct (ErrorIfNotOk (Consume thread_id batch) n) as [rb nb] eqn:Eb.
    assert (output_protocol nb) as HPb.
    { apply ErrorIfNotOk_cases in Eb as (r0 & n0 & H0 & Hn').
      apply Consume_same_trace in H0 as (Hc0 & Hs0 & Hi0).
      assert (output_protocol n0)
        by (eapply output_protocol_same; [..|exact HP]; congruence).
      destruct Hn' as [->|[s ->]]; [done|by apply output_protocol_error]. }
    destruct rb as [[]|s|]; [by injection Hs as <- <-| |by injection Hs as <- <-..].
    unfold mbind at 1, M_bind at 1, input_counter_Increment at 1 in Hs.
    destruct (AtomicCounter.Increment (input_counter_ nb)) as [[] c] eqn:Ec.
    + apply Increment_once in Ec as [Hc1 _]. destruct (Hc1 eq_refl) as [Hn Hc].
      unfold mbind at 1, M_bind at 1 in Hs.
      destruct (ErrorIfNotOk OutputResult (set_input_counter_ c nb)) as [rf nf] eqn:Ef.
      pose proof (output_protocol_OutputResult _ _ _ _ Hn Hc HPb Ef).
      destruct rf; cbv [mret M_ret] in Hs; by simplify_eq.
    + apply Increment_complete in Ec. simpl in Ec. injection Hs as <- <-.
      eapply output_protocol_same; [..|exact HPb]; simpl; congruence.
  - (* InputFinished *)
    unfold InputFinished in Hs. unfold mbind at 1, M_bind at 1, gets at 1 in Hs.
    destruct (finished_ n); [by injection Hs as <- <-|].
    unfold mbind at 1, M_bind at 1, input_counter_SetTotal at 1 in Hs.
    destruct (AtomicCounter.SetTotal (input_counter_ n) total_batches) as [[] c] eqn:Ec.
    + apply SetTotal_once in Ec as [Hc1 _]. destruct (Hc1 eq_refl) as [Hn Hc].
      unfold mbind at 1, M_bind at 1 in Hs.
      destruct (ErrorIfNotOk OutputResult (set_input_counter_ c n)) as [rf nf] eqn:Ef.
      pose proof (output_protocol_OutputResult _ _ _ _ Hn Hc HP Ef).
      destruct rf; cbv [mret M_ret] in Hs; by simplify_eq.
    + apply SetTotal_complete in Ec. simpl in Ec. injection Hs as <- <-.
      eapply output_protocol_same; [..|exact HP]; simpl; congruence.
  - (* ErrorReceived *)
    injection Hs as <- <-. by apply output_protocol_error.
  - (* StopProducing *)
    unfold StopProducing, mbind, M_bind, input_counter_Cancel, output_counter_Cancel,
      MarkFinished, modify, call, modify in Hs.
    unfold AtomicCounter.Cancel, AtomicCounter.DoneOnce in Hs. simpl in Hs.
    destruct HP as [_ HB].
    destruct (AtomicCounter.complete_ (output_counter_ n)); simpl in Hs;
      injection Hs as <- <-; (split; [done|]); simpl;
      unfold announced_then_delivered; by rewrite output_data_app, app_nil_r.
  - (* a task of the pool *)
    unfold RunTask in Hs. unfold mbind at 1, M_bind at 1, gets at 1 in Hs.
    destruct (spawned n !! k) as [i|] eqn:Hk; [|by injection Hs as <- <-].
    unfold mbind at 1, M_bind at 1, modify at 1 in Hs.
    pose proof (length_delete (spawned n) k (mk_is_Some _ _ Hk)) as Hlen.
    pose proof (lookup_lt_Some _ _ _ Hk) as Hlt.
    destruct HP as [HA HB].
    assert (AtomicCounter.complete_ (input_counter_ n) = true) as Hc.
    { destruct (AtomicCounter.complete_ (input_counter_ n)); [done|].
      destruct (HA eq_refl) as [_ Hnil]. by rewrite Hnil in Hk. }
    destruct HB as [[_ H0]|(total & batches & Hd & Hl)]; [lia|].
    set (n0 := set_spawned (delete k (spawned n)) n) in *.
    destruct (OutputNthBatch_cases n0 i) as [H1|H1]; rewrite H1 in Hs;
      injection Hs as <- <-.
    + split; [by simpl; rewrite Hc|]. right. exists total, batches.
      split; [done|]. simpl. lia.
    + split; [by rewrite input_counter_deliver; simpl; rewrite Hc|].
      right. eexists total, (batches ++ [_]).
      rewrite deliver_calls, output_data_app, spawned_deliver. simpl. rewrite Hd.
      split; [by rewrite fmap_app|]. rewrite length_app. simpl. lia.
Qed.

Lemma run_protocol events : ∀ n r n',
  run events n = (r, n') -> output_protocol n -> output_protocol n'.
Proof.
  induction events as [|e events IH]; intros n r n'; cbn [run forM_].
  - by intros [= <- <-].
  - unfold mbind, M_bind. destruct (step e n) as [[[]|s|] n1] eqn:E; intros H HI;
      pose proof (step_protocol _ _ _ _ E HI); [by eapply IH|by simplify_eq..].
Qed.

(** X4: in every run of a node that has told its output nothing yet, the
    output is told one total at most, no batch before the total, and never
    more batches than the total, the tasks still waiting in the pool
    included. *)
Theorem one_total_then_batches n (events : list Event) r n' :
  calls n = [] -> spawned n = [] ->
  run events n = (r, n') ->
  output_data (calls n') = [] ∨
  ∃ total batches,
    output_data (calls n') = inl total :: (inr <$> batches) ∧
    (length batches + length (spawned n') ≤ Z.to_nat total)%nat.
Proof.
  intros Hc Hs Hrun.
  assert (output_protocol n) as HP.
  { split; [by rewrite Hc, Hs|]. left. by rewrite Hc, Hs. }
  destruct (run_protocol _ _ _ _ Hrun HP) as [_ [[? _]|?]]; [by left|by right].
Qed.
End GroupByNode_protocol.

(** ** GroupByNode: stopping *)

Section GroupByNode_stop.
Context {KS : Type}.
Import GroupByNode.
Implicit Types (n : GroupByNode.t KS).

Lemma keeps_finished_when_complete_preorder :
  PreOrder (keeps_finished_when_complete (KS:=KS)).
Proof.
  split.
  - intros n H. exact H.
  - intros n1 n2 n3 H1 H2 H. by apply H2, H1.
Qed.
#[local] Existing Instance keeps_finished_when_complete_preorder.

(** A write to a field other than the output counter and the finished
    future. *)
Lemma keeps_finished_same n n' :
  output_counter_ n' = output_counter_ n -> finished_ n' = finished_ n ->
  keeps_finished_when_complete n n'.
Proof. intros Hc Hf H. unfold finished_when_complete. by rewrite Hc, Hf. Qed.

(** An operation on the output counter, followed by [MarkFinished] when
    the operation completed the counter. *)
Lemma keeps_finished_counter {A} (op : AtomicCounter.t -> bool * AtomicCounter.t)
    (k : M (GroupByNode.t KS) A) :
  (op = AtomicCounter.Increment ∨ op = AtomicCounter.Cancel ∨
   ∃ total, op = fun c => AtomicCounter.SetTotal c total) ->
  preserves keeps_finished_when_complete k ->
  preserves keeps_finished_when_complete
    (done ← (fun n => let '(b, c) := op (output_counter_ n) in
                      (Ok b, set_output_counter_ c n));
     (if done : bool then MarkFinished else mret tt);; k).
Proof.
  intros Hop Hk n r n'. unfold mbind, M_bind.
  destruct (op (output_counter_ n)) as [b c] eqn:E.
  apply counter_complete in E; [|destruct Hop as [->|[->|[total ->]]]; eauto 6].
  destruct b; unfold MarkFinished, modify, mret, M_ret; intros Hr HQ;
    apply (Hk _ _ _ Hr).
  - by intros _.
  - intros Hc. simpl in *. rewrite E in Hc. by apply HQ.
Qed.

Ltac kfc_frame l := apply l; first [exact _ | intros; by apply keeps_finished_same].

Hint Extern 1 (preserves keeps_finished_when_complete (InitLocalStateIfNeeded _)) =>
  kfc_frame (local_InitLocalStateIfNeeded (KS:=KS)) : preserves.
Hint Extern 1 (preserves keeps_finished_when_complete (the_grouper _)) =>
  kfc_frame (local_the_grouper (KS:=KS)) : preserves.
Hint Extern 1 (preserves keeps_finished_when_complete (set_grouper _ _)) =>
  kfc_frame (local_set_grouper (KS:=KS)) : preserves.
Hint Extern 1 (preserves keeps_finished_when_complete (finalize_kernels _)) =>
  kfc_frame (local_finalize_kernels (KS:=KS)) : preserves.
Hint Extern 1 (preserves keeps_finished_when_complete (Consume _ _)) =>
  kfc_frame (local_Consume (KS:=KS)) : preserves.
Hint Extern 1 (preserves keeps_finished_when_complete Merge) =>
  kfc_frame (local_Merge (KS:=KS)) : preserves.

Lemma keeps_finished_modify (f : GroupByNode.t KS -> GroupByNode.t KS) :
  (∀ n, output_counter_ (f n) = output_counter_ n) ->
  (∀ n, finished_ (f n) = finished_ n) ->
  preserves keeps_finished_when_complete (modify f).
Proof. intros H1 H2. apply preserves_modify. intros n. by apply keeps_finished_same. Qed.

Lemma keeps_finished_call c : preserves keeps_finished_when_complete (call (KS:=KS) c).
Proof. by apply keeps_finished_modify. Qed.

Lemma keeps_finished_Spawn i : preserves keeps_finished_when_complete (Spawn (KS:=KS) i).
Proof.
  intros n r n' H.
  destruct (Spawn_cases i n) as [E|[[s E]|E]]; rewrite E in H; injection H as <- <-;
    [by apply keeps_finished_same|reflexivity..].
Qed.

Lemma keeps_finished_input (op : AtomicCounter.t -> bool * AtomicCounter.t) :
  preserves keeps_finished_when_complete
    (fun n : GroupByNode.t KS =>
       let '(b, c) := op (input_counter_ n) in (Ok b, set_input_counter_ c n)).
Proof. intros n r n'. destruct (op _). intros [= <- <-]. by apply keeps_finished_same. Qed.

Lemma keeps_finished_ErrorIfNotOk (c : M (GroupByNode.t KS) unit) :
  preserves keeps_finished_when_complete c ->
  preserves keeps_finished_when_complete (ErrorIfNotOk c).
Proof.
  intros Hc n r n' (r0 & n0 & H0 & Hn')%ErrorIfNotOk_cases.
  apply Hc in H0. destruct Hn' as [->|[s ->]]; [done|].
  etrans; [done|]. by apply keeps_finished_same.
Qed.

Hint Resolve keeps_finished_call keeps_finished_Spawn keeps_finished_ErrorIfNotOk
  : preserves.

Lemma keeps_finished_Finalize : preserves keeps_finished_when_complete (Finalize (KS:=KS)).
Proof.
  unfold Finalize.
  repeat (apply preserves_bind; [exact _|solve [pres]|intros ?]).
  apply (keeps_finished_counter (fun c => AtomicCounter.SetTotal c _)); [eauto|].
  apply preserves_ret. exact _.
Qed.

Lemma keeps_finished_OutputNthBatch i :
  preserves keeps_finished_when_complete (OutputNthBatch (KS:=KS) i).
Proof.
  unfold OutputNthBatch.
  apply preserves_bind; [exact _|solve [pres]|intros []];
    [apply preserves_ret; exact _|].
  repeat (apply preserves_bind; [exact _|solve [pres]|intros ?]).
  intros n r n' Hr.
  apply (keeps_finished_counter AtomicCounter.Increment (mret tt)) with (r := r);
    [eauto|apply preserves_ret; exact _|].
  rewrite <- Hr. unfold mbind, M_bind, output_counter_Increment.
  destruct (AtomicCounter.Increment _) as [[] c]; [|done].
  unfold MarkFinished, modify, mret, M_ret. done.
Qed.

Hint Resolve keeps_finished_Finalize keeps_finished_OutputNthBatch : preserves.

Lemma keeps_finished_output_loop has_executor batches :
  preserves keeps_finished_when_complete (output_loop (KS:=KS) has_executor batches).
Proof. induction batches; cbn [output_loop]; pres. Qed.

Hint Resolve keeps_finished_output_loop : preserves.

Lemma keeps_finished_OutputResult :
  preserves keeps_finished_when_complete (OutputResult (KS:=KS)).
Proof.
  unfold OutputResult. pres. by apply keeps_finished_modify.
Qed.

Hint Resolve keeps_finished_OutputResult : preserves.

Lemma keeps_finished_step e : preserves keeps_finished_when_complete (step (KS:=KS) e).
Proof.
  destruct e; simpl.
  - unfold InputReceived. pres. apply (keeps_finished_input AtomicCounter.Increment).
  - unfold InputFinished. pres.
    apply (keeps_finished_input (fun c => AtomicCounter.SetTotal c _)).
  - unfold ErrorReceived. pres.
  - unfold StopProducing.
    apply preserves_bind; [exact _|apply (keeps_finished_input AtomicCounter.Cancel)|intros _].
    apply (keeps_finished_counter AtomicCounter.Cancel); [eauto|]. pres.
  - unfold RunTask. pres. by apply keeps_finished_modify.
Qed.

Lemma keeps_finished_run events :
  preserves keeps_finished_when_complete (run (KS:=KS) events).
Proof. apply preserves_forM_; [exact _|]. apply keeps_finished_step. Qed.

(** A finished node ignores batches, totals and tasks. *)
Lemma run_finished n (events : list Event) :
  finished_ n = true ->
  Forall is_input_or_task events ->
  ∃ tasks, run events n = (Ok tt, set_spawned tasks n).
Proof.
  intros Hf Hev. revert n Hf. induction Hev as [|e events He _ IH]; intros n Hf.
  - exists (spawned n). by destruct n.
  - assert (∃ tasks, step e n = (Ok tt, set_spawned tasks n)) as [tasks1 H1].
    { destruct e; simpl in *; try done.
      + exists (spawned n). rewrite InputReceived_finished by done. by destruct n.
      + exists (spawned n). rewrite InputFinished_finished by done. by destruct n.
      + by apply RunTask_finished. }
    destruct (IH (set_spawned tasks1 n)) as [tasks2 H2]; [done|].
    exists tasks2. unfold run in *. simpl. unfold mbind, M_bind. rewrite H1, H2.
    by destruct n.
Qed.

(** X5: whatever a node whose output counter was not complete has gone
    through, StopProducing resolves its finished future and tells the input
    to stop; after that, batches, totals and tasks of the pool make no call
    on the neighbours. *)
Theorem StopProducing_stops n (events later : list Event) r n1 :
  AtomicCounter.complete_ (output_counter_ n) = false ->
  run events n = (r, n1) ->
  Forall is_input_or_task later ->
  ∃ n2 n3,
    StopProducing n1 = (Ok tt, n2) ∧
    finished_ n2 = true ∧
    calls n2 = calls n1 ++ [Input_StopProducing] ∧
    run later n2 = (Ok tt, n3) ∧
    calls n3 = calls n2.
Proof.
  intros Hc Hrun Hlater.
  assert (finished_when_complete n1) as HQ.
  { apply (keeps_finished_run _ _ _ _ Hrun). intros H. by rewrite Hc in H. }
  assert (∃ n2, StopProducing n1 = (Ok tt, n2) ∧ finished_ n2 = true ∧
            calls n2 = calls n1 ++ [Input_StopProducing]) as (n2 & Hstop & Hf & Hcalls).
  { unfold StopProducing, mbind, M_bind, input_counter_Cancel, output_counter_Cancel,
      MarkFinished, modify, call, modify.
    unfold AtomicCounter.Cancel, AtomicCounter.DoneOnce. simpl.
    destruct (AtomicCounter.complete_ (output_counter_ n1)) eqn:E; simpl;
      eexists; split_and!; try done. simpl. by apply HQ. }
  destruct (run_finished n2 later Hf Hlater) as [tasks Hrun2].
  exists n2, (set_spawned tasks n2). by split_and!.
Qed.
End GroupByNode_stop.

(** ** ScalarAggregateNode: after the input counter has completed *)

Section ScalarAggregateNode_after.
Context {KS Options : Type}.
Import ScalarAggregateNode.
Implicit Types (n : ScalarAggregateNode.t KS Options).

(** Once the input counter is complete no event gets [Finish] run or the
    finished future resolved: nothing is delivered any more. *)
Lemma step_after_complete e n r n' :
  AtomicCounter.complete_ (input_counter_ n) = true ->
  step e n = (r, n') ->
  AtomicCounter.complete_ (input_counter_ n') = true ∧
  finished_ n' = finished_ n ∧
  delivered (calls n') = delivered (calls n).
Proof.
  intros Hc. destruct e; simpl; intros Hs.
  - (* InputReceived *)
    unfold InputReceived in Hs. unfold mbind at 1, M_bind at 1 in Hs.
    destruct (thread_index thread_id n) as [[i|s|] na] eqn:Ei;
      pose proof (scalar_preserves_thread_index _ _ _ _ Ei) as (Hca & Hia & Hfa & _);
      [|injection Hs as <- <-; by rewrite Hca, Hia, Hfa..].
    unfold mbind at 1, M_bind at 1 in Hs.
    destruct (ErrorIfNotOk (DoConsume batch i) na) as [rb nb] eqn:Eb.
    apply ErrorIfNotOk_inv in Eb as [[Eb ->]|[(s & n0 & Eb & -> & ->)|[Eb ->]]];
      pose proof (scalar_preserves_DoConsume _ _ _ _ _ Eb) as (Hcb & Hib & Hfb & _).
    + unfold mbind at 1, M_bind at 1, input_counter_Increment at 1 in Hs.
      destruct (AtomicCounter.Increment (input_counter_ nb)) as [[] c] eqn:Ec;
        apply Increment_once in Ec as [Hc1 Hc2].
      * destruct (Hc1 eq_refl) as [Hn _]. congruence.
      * cbv [mret M_ret] in Hs. injection Hs as <- <-. simpl.
        split_and!; [apply Hc2|..]; congruence.
    + cbv [mret M_ret] in Hs. injection Hs as <- <-. simpl.
      rewrite delivered_app, app_nil_r. split_and!; congruence.
    + injection Hs as <- <-. split_and!; congruence.
  - (* InputFinished *)
    unfold InputFinished in Hs.
    unfold mbind at 1, M_bind at 1, input_counter_SetTotal at 1 in Hs.
    destruct (AtomicCounter.SetTotal (input_counter_ n) total_batches) as [[] c] eqn:Ec;
      apply SetTotal_once in Ec as [Hc1 Hc2].
    + destruct (Hc1 eq_refl) as [Hn _]. congruence.
    + cbv [mret M_ret] in Hs. injection Hs as <- <-. simpl. split_and!; auto.
  - injection Hs as <- <-. simpl. by rewrite delivered_app, app_nil_r.
  - injection Hs as <- <-. simpl. by rewrite delivered_app, app_nil_r.
  - injection Hs as <- <-. simpl. by rewrite delivered_app, app_nil_r.
  - (* StopProducing *)
    unfold StopProducing, mbind, M_bind, input_counter_Cancel, MarkFinished, modify,
      call, modify in Hs.
    unfold AtomicCounter.Cancel, AtomicCounter.DoneOnce in Hs. rewrite Hc in Hs.
    simpl in Hs. injection Hs as <- <-. simpl.
    by rewrite delivered_app, app_nil_r.
Qed.

Lemma run_after_complete events : ∀ n r n',
  AtomicCounter.complete_ (input_counter_ n) = true ->
  run events n = (r, n') ->
  AtomicCounter.complete_ (input_counter_ n') = true ∧
  finished_ n' = finished_ n ∧
  delivered (calls n') = delivered (calls n).
Proof.
  induction events as [|e events IH]; intros n r n' Hc; cbn [run forM_].
  - by intros [= <- <-].
  - unfold mbind, M_bind. destruct (step e n) as [[[]|s|] n1] eqn:E; intros H;
      destruct (step_after_complete _ _ _ _ Hc E) as (Hc1 & Hf1 & Hd1);
      [|by simplify_eq..].
    destruct (IH _ _ _ Hc1 H) as (? & ? & ?). split_and!; congruence.
Qed.

(** X6: StopProducing completes the input counter, so that [Finish] will not
    run: whatever arrives after it, the node delivers no batch. *)
Theorem StopProducing_silences n (events : list Event) r n' :
  run (EvStopProducing :: events) n = (r, n') ->
  delivered (calls n') = delivered (calls n).
Proof.
  cbn [run forM_ step]. unfold mbind at 1, M_bind at 1.
  destruct (StopProducing n) as [rs n1] eqn:Es.
  assert (rs = Ok tt ∧ AtomicCounter.complete_ (input_counter_ n1) = true ∧
          delivered (calls n1) = delivered (calls n)) as (-> & Hc & Hd).
  { unfold StopProducing, mbind, M_bind, input_counter_Cancel, MarkFinished, modify,
      call, modify in Es.
    unfold AtomicCounter.Cancel, AtomicCounter.DoneOnce in Es.
    destruct (AtomicCounter.complete_ (input_counter_ n)); simpl in Es;
      injection Es as <- <-; simpl; by rewrite delivered_app, app_nil_r. }
  intros Hr. change (forM_ events step) with (run (KS:=KS) (Options:=Options) events) in Hr.
  destruct (run_after_complete _ _ _ _ Hc Hr) as (_ & _ & ?). congruence.
Qed.

(** X7: when the input is declared final and a kernel's merge or finalize
    fails in [Finish], the failure is forwarded and no batch is delivered;
    the finished future is not resolved then, nor by any later event,
    StopProducing included. *)
Theorem failed_Finish_is_final n (total_batches : Z) s n0 (events : list Event) r n' :
  finished_ n = false ->
  input_counter_ n = AtomicCounter.mk total_batches None false ->
  Finish (set_input_counter_ (AtomicCounter.mk total_batches (Some total_batches) true) n)
    = (Raise s, n0) ->
  run (EvInputFinished total_batches :: events) n = (r, n') ->
  (∃ new, calls n' = calls n ++ Output_ErrorReceived s :: new) ∧
  delivered (calls n') = delivered (calls n) ∧
  finished_ n' = false.
Proof.
  intros Hf Hic HF. cbn [run forM_ step]. unfold mbind at 1, M_bind at 1.
  assert (InputFinished total_batches n
          = (Ok tt, set_calls (calls n0 ++ [Output_ErrorReceived s]) n0)) as ->.
  { unfold InputFinished, mbind, M_bind, input_counter_SetTotal.
    rewrite Hic. unfold AtomicCounter.SetTotal, AtomicCounter.DoneOnce. simpl.
    rewrite decide_True by done. simpl. unfold ErrorIfNotOk. by rewrite HF. }
  pose proof HF as (Hi & _ & [[_ Hc]|(? & _)])%Finish_calls; [|done].
  assert (finished_ n0 = false) as Hf0.
  { unfold Finish in HF. unfold mbind at 1, M_bind at 1, gets at 1 in HF.
    unfold mbind at 1, M_bind at 1 in HF.
    destruct (finish_kernels _ _) as [[columns|s'|] n1] eqn:E; [done| |done].
    injection HF as -> ->.
    by apply scalar_preserves_finish_kernels in E as (_ & _ & -> & _). }
  intros Hr. change (forM_ events step) with (run (KS:=KS) (Options:=Options) events) in Hr.
  pose proof (run_calls_grow _ _ _ _ Hr) as [_ (new & Hnew)].
  apply run_after_complete in Hr as (_ & Hf' & Hd'); [|simpl; by rewrite Hi].
  simpl in *. split_and!.
  - exists new. by rewrite Hnew, Hc, <- app_assoc.
  - by rewrite Hd', delivered_app, app_nil_r, Hc.
  - congruence.
Qed.
End ScalarAggregateNode_after.

(** ** ScalarAggregateNode: what construction builds *)

Lemma FindOne_spec ref schema path :
  FindOne ref schema = Ok path ->
  ∃ i f, path = [i] ∧ schema !! i = Some f ∧ field_name f = ref ∧
    ∀ j g, schema !! j = Some g -> field_name g = ref -> j = i.
Proof.
  unfold FindOne.
  destruct (filter _ _) as [|i [|j l]] eqn:E; intros H; simplify_eq.
  assert (∀ j, j ∈ filter (fun i => field_name <$> schema !! i = Some ref)
                    (seq 0 (length schema)) ↔ j = i) as Hin.
  { intros j. rewrite E. by rewrite list_elem_of_singleton. }
  assert (field_name <$> schema !! i = Some ref) as Hi.
  { pose proof (proj2 (Hin i) eq_refl) as Hx.
    by apply list_elem_of_filter in Hx as [? _]. }
  destruct (schema !! i) as [f|] eqn:Hf; [|done]. injection Hi as Hi.
  exists i, f. split_and!; [done..|].
  intros j g Hj Hg. apply Hin. apply list_elem_of_filter. split.
  - by rewrite Hj, <- Hg.
  - apply elem_of_seq. apply lookup_lt_Some in Hj. lia.
Qed.

Section ScalarAggregateNode_structure.
Context {KS Options : Type}.
Import ScalarAggregateNode.
Implicit Types (p : ExecPlan KS Options) (agg : Aggregate Options).

Lemma make_aggregate_spec p input_schema agg m :
  make_aggregate p input_schema agg = Ok m ->
  ∃ f,
    input_schema !! made_target_field_id m = Some f ∧
    field_name f = target agg ∧
    (∀ j g, input_schema !! j = Some g -> field_name g = target agg ->
            j = made_target_field_id m) ∧
    function (made_aggregate m) = function agg ∧
    target (made_aggregate m) = target agg ∧
    name (made_aggregate m) = name agg ∧
    is_Some (options (made_aggregate m)) ∧
    (∀ o, options agg = Some o -> options (made_aggregate m) = Some o) ∧
    field_name (made_field m) = name agg ∧
    length (made_states m) = thread_capacity (exec_context p).
Proof.
  intros H. pose proof (make_aggregate_initialized _ _ _ _ H) as [Hlen _].
  unfold make_aggregate in H.
  destruct (FindOne _ _) as [path| |] eqn:EF; simpl in H; [|done..].
  apply FindOne_spec in EF as (i & f & -> & Hi & Hname & Huniq). simpl in H.
  destruct (GetFunction _ _) as [fn| |]; simpl in H; [|done..].
  destruct (decide _); [done|].
  rewrite Hi in H. simpl in H.
  destruct (DispatchExact _ _) as [kernel| |]; simpl in H; [|done..].
  destruct (match options agg with Some o => _ | None => _ end) as [o| |] eqn:Eo;
    simpl in H; [|done..].
  destruct (InitAll _ _ _ _) as [states| |]; simpl in H; [|done..].
  destruct (deref (states !! _)); simpl in H; [|done..].
  destruct (out_type _ _ _); simpl in H; [|done..].
  simplify_eq. simpl in *. exists f. split_and!; try done.
  intros o' Ho'. rewrite Ho' in Eo. by injection Eo as ->.
Qed.

Lemma Make_fields p (inputs : list Schema) (opts : AggregateNodeOptions Options) node :
  Make p inputs opts = Ok node ->
  ∃ input_schema,
    inputs = [input_schema] ∧
    length (target_field_ids_ node) = length (aggregates opts) ∧
    length (aggs_ node) = length (aggregates opts) ∧
    length (kernels_ node) = length (aggregates opts) ∧
    length (states_ node) = length (aggregates opts) ∧
    length (output_schema node) = length (aggregates opts) ∧
    ∀ i agg, aggregates opts !! i = Some agg ->
      ∃ id f a fld states,
        target_field_ids_ node !! i = Some id ∧
        input_schema !! id = Some f ∧ field_name f = target agg ∧
        (∀ j g, input_schema !! j = Some g -> field_name g = target agg -> j = id) ∧
        aggs_ node !! i = Some a ∧
        function a = function agg ∧ target a = target agg ∧ name a = name agg ∧
        is_Some (options a) ∧
        (∀ o, options agg = Some o -> options a = Some o) ∧
        output_schema node !! i = Some fld ∧ field_name fld = name agg ∧
        states_ node !! i = Some states ∧
        length states = thread_capacity (exec_context p).
Proof.
  unfold Make. intros H.
  destruct (ValidateExecNodeInputs _ _ _) eqn:EV; simpl in H; [|done..].
  unfold ValidateExecNodeInputs in EV. destruct (decide _) as [Hlen|]; [|done].
  destruct inputs as [|input_schema [|]]; try done. simpl in H.
  destruct (result_mapM _ _) as [made| |] eqn:Hmade; simpl in H; [|done..].
  simplify_eq. simpl. exists input_schema.
  pose proof (result_mapM_length _ _ _ Hmade) as Hl.
  rewrite !length_fmap. split_and!; [done..|].
  intros i agg Hi. apply result_mapM_Forall2 in Hmade.
  destruct (Forall2_lookup_l _ _ _ _ _ Hmade Hi) as (m & Hm & Hagg).
  apply make_aggregate_spec in Hagg
    as (f & Hf & Hn & Hu & Hfn & Ht & Hna & Ho & Ho' & Hfld & Hst).
  exists (made_target_field_id m), f, (made_aggregate m), (made_field m), (made_states m).
  rewrite !list_lookup_fmap, Hm. simpl. split_and!; try done.
  unfold Schema. by rewrite list_lookup_fmap, Hm.
Qed.

(** X8: a constructed node has one target field id, one aggregate, one
    kernel, one vector of per-thread states and one output field per
    aggregate of the options. The target field id is the position of the one
    field of the input schema that has the target's name; the output field
    has the aggregate's name; the aggregate is kept with options, its own
    when it had some; and there is one state per thread slot. *)
Theorem Make_structure p (inputs : list Schema) (opts : AggregateNodeOptions Options) node :
  Make p inputs opts = Ok node ->
  ∃ input_schema,
    inputs = [input_schema] ∧
    length (target_field_ids_ node) = length (aggregates opts) ∧
    length (aggs_ node) = length (aggregates opts) ∧
    length (kernels_ node) = length (aggregates opts) ∧
    length (states_ node) = length (aggregates opts) ∧
    length (output_schema node) = length (aggregates opts) ∧
    ∀ i agg, aggregates opts !! i = Some agg ->
      ∃ id f a fld states,
        target_field_ids_ node !! i = Some id ∧
        input_schema !! id = Some f ∧ field_name f = target agg ∧
        (∀ j g, input_schema !! j = Some g -> field_name g = target agg -> j = id) ∧
        aggs_ node !! i = Some a ∧
        function a = function agg ∧ target a = target agg ∧ name a = name agg ∧
        is_Some (options a) ∧
        (∀ o, options agg = Some o -> options a = Some o) ∧
        output_schema node !! i = Some fld ∧ field_name fld = name agg ∧
        states_ node !! i = Some states ∧
        length states = thread_capacity (exec_context p).
Proof. apply Make_fields. Qed.
End ScalarAggregateNode_structure.

(** ** GroupByNode: a batch on a thread without a slot *)

Section GroupByNode_bounds.
Context {KS : Type}.
Import GroupByNode.
Implicit Types (n : GroupByNode.t KS).

(** X9: a batch that arrives on a thread whose index is not below the number
    of thread-local states is not consumed and not counted: the node
    forwards an IndexError downstream and only the thread indexer changes. *)
Theorem InputReceived_thread_out_of_range n thread_id (batch : ExecBatch.t) i ix :
  finished_ n = false ->
  ThreadIndexer.index (get_thread_index_ n) thread_id = (i, ix) ->
  (length (local_states_ n) ≤ i)%nat ->
  InputReceived thread_id batch n
  = (Ok tt,
     set_calls
       (calls n ++
        [Output_ErrorReceived
           (mkStatus IndexError
              ("thread index " +:+ pretty i +:+ " is out of range [0, "
               +:+ pretty (length (local_states_ n)) +:+ ")"))])
       (set_get_thread_index_ ix n)).
Proof.
  intros Hf Hi Hlen.
  unfold InputReceived, mbind, M_bind, gets. rewrite Hf.
  unfold ErrorIfNotOk, Consume, mbind, M_bind, thread_index, gets. rewrite Hi. simpl.
  by rewrite decide_True by done.
Qed.
End GroupByNode_bounds.

(** ** GroupByNode: an input without batches *)

Lemma forM__idle {St A} (l : list A) (body : A -> M St unit) (st : St) :
  (∀ x, x ∈ l -> body x st = (Ok tt, st)) -> forM_ l body st = (Ok tt, st).
Proof.
  induction l as [|x l IH]; intros Hb; simpl; [done|].
  unfold mbind, M_bind. rewrite Hb by left. apply IH. intros y Hy. apply Hb. by right.
Qed.

Lemma map_const_seq {A} (x : A) (j k : nat) : map (fun _ => x) (seq j k) = replicate k x.
Proof. revert j. induction k as [|k IH]; intros j; simpl; [done|]. by rewrite IH. Qed.

Section GroupByNode_empty.
Context {KS : Type}.
Import GroupByNode.
Implicit Types (n : GroupByNode.t KS).

(** [Merge] when no thread but the first has a grouper. *)
Lemma Merge_idle n :
  (∀ i s, (1 ≤ i)%nat -> local_states_ n !! i = Some s -> grouper s = None) ->
  Merge n = (Ok tt, n).
Proof.
  intros Hidle. unfold Merge, mbind, M_bind, gets. apply forM__idle.
  intros i [Hi1 Hi2]%elem_of_seq. unfold merge_state, local_state, mbind, M_bind, gets, lift.
  destruct (local_states_ n !! i) as [s|] eqn:Hs; [|apply lookup_ge_None in Hs; lia].
  simpl. by rewrite (Hidle i s Hi1 Hs).
Qed.

Lemma set_agg_state_Ok n g a k x :
  local_states_ n !! 0%nat = Some {| grouper := g; agg_states := a |} ->
  set_agg_state 0 k x n
  = (Ok tt, set_local_states_
              (<[0%nat := {| grouper := g; agg_states := <[k := x]> a |}]> (local_states_ n)) n).
Proof.
  intros H0. unfold set_agg_state, set_agg_states, set_local_state, local_state,
    mbind, M_bind, gets, lift, modify. by rewrite H0.
Qed.

(** The loop of [Finalize] over the kernels from position [j] on. *)
Lemma finalize_kernels_columns ks : ∀ (ss : list KS) j n g a columns,
  drop j (agg_kernels_ n) = ks ->
  local_states_ n !! 0%nat = Some {| grouper := g; agg_states := a |} ->
  drop j a = Some <$> ss ->
  length ks = length ss ->
  result_mapM (fun p => hash_finalize p.1 p.2) (zip ks ss) = Ok columns ->
  ∃ a', finalize_kernels (seq j (length ks)) n
        = (Ok columns,
           set_local_states_
             (<[0%nat := {| grouper := g; agg_states := a' |}]> (local_states_ n)) n).
Proof.
  induction ks as [|k ks IH]; intros ss j n g a columns Hks H0 Ha Hlen Hcols.
  - destruct ss; [|done]. simpl in *. simplify_eq. exists a.
    rewrite list_insert_id by done. by destruct n.
  - destruct ss as [|s ss]; [done|]. simpl in Hlen, Hcols.
    destruct (hash_finalize k s) as [column| |] eqn:Hf; simpl in Hcols; [|done..].
    destruct (result_mapM _ (zip ks ss)) as [cols| |] eqn:Hr; simpl in Hcols; [|done..].
    simplify_eq.
    assert (agg_kernels_ n !! j = Some k) as Hk.
    { rewrite <- (Nat.add_0_r j), <- lookup_drop, Hks. done. }
    assert (a !! j = Some (Some s)) as Hs.
    { rewrite <- (Nat.add_0_r j), <- lookup_drop, Ha. done. }
    pose proof (lookup_lt_Some _ _ _ H0) as Hlt.
    set (n1 := set_local_states_
                 (<[0%nat := {| grouper := g; agg_states := <[j := None]> a |}]>
                    (local_states_ n)) n).
    assert (finalize_kernel j n = (Ok column, n1)) as H1.
    { unfold finalize_kernel, the_agg_state, local_state.
      unfold mbind, M_bind, gets, lift. rewrite Hk, H0. simpl. rewrite Hs. simpl.
      rewrite Hf. by rewrite (set_agg_state_Ok n g a j None H0). }
    destruct (IH ss (S j) n1 g (<[j := None]> a) cols) as (a' & H2).
    + simpl. by rewrite (drop_S _ _ _ Hk) in Hks; simplify_eq.
    + subst n1. simpl. by rewrite list_lookup_insert_eq.
    + rewrite drop_insert_lt by lia.
      rewrite (drop_S _ _ _ Hs), fmap_cons in Ha. by injection Ha.
    + lia.
    + done.
    + exists a'. cbn [length seq finalize_kernels].
      rewrite (bind_Ok _ _ _ _ _ H1), (bind_Ok _ _ _ _ _ H2).
      subst n1. cbn [local_states_ set_local_states_ mret M_ret].
      by rewrite list_insert_insert_eq.
Qed.

(** [InitLocalStateIfNeeded] on a slot that has no grouper yet. *)
Lemma InitLocalStateIfNeeded_fresh n i x key_types src_fields g states :
  local_states_ n !! i = Some {| grouper := None; agg_states := x |} ->
  result_mapM (fun id => let? f := deref (input_schema n !! id) in Ok (field_type f))
              (key_field_ids_ n) = Ok key_types ->
  Grouper.Make key_types = Ok g ->
  result_mapM (fun id => deref (input_schema n !! id)) (agg_src_field_ids_ n)
    = Ok src_fields ->
  InitKernels (agg_kernels_ n) = Ok states ->
  InitLocalStateIfNeeded i n
  = (Ok tt,
     set_local_states_
       (<[i := {| grouper := Some g; agg_states := Some <$> states |}]> (local_states_ n)) n).
Proof.
  intros Hi Hkeys Hg Hsrc Hinit.
  pose proof (lookup_lt_Some _ _ _ Hi) as Hlt.
  unfold InitLocalStateIfNeeded, set_grouper, set_agg_states, set_local_state, local_state.
  unfold mbind, M_bind, gets, lift, modify. rewrite Hi. simpl.
  rewrite Hkeys, Hg. simpl. rewrite Hi. simpl.
  rewrite Hsrc, Hinit. simpl. rewrite list_lookup_insert_eq by done.
  simpl. by rewrite list_insert_insert_eq.
Qed.

(** [Finalize] when the first thread has no grouper: the result has no
    rows, and recording its zero chunks finishes the node. *)
Lemma Finalize_fresh n x key_types src_fields states columns :
  local_states_ n !! 0%nat = Some {| grouper := None; agg_states := x |} ->
  output_counter_ n = AtomicCounter.init ->
  result_mapM (fun id => let? f := deref (input_schema n !! id) in Ok (field_type f))
              (key_field_ids_ n) = Ok key_types ->
  forallb Grouper.supported key_types = true ->
  result_mapM (fun id => deref (input_schema n !! id)) (agg_src_field_ids_ n)
    = Ok src_fields ->
  InitKernels (agg_kernels_ n) = Ok states ->
  result_mapM (fun p => hash_finalize p.1 p.2) (zip (agg_kernels_ n) states) = Ok columns ->
  ∃ local_states,
    Finalize n
    = (Ok (ExecBatch.mk (columns ++ replicate (length (key_field_ids_ n)) (ArrayDatum [])) 0),
       set_finished_ true
         (set_output_counter_ (AtomicCounter.mk 0 (Some 0) true)
            (set_local_states_ local_states n))).
Proof.
  intros H0 Hoc Hkeys Hsup Hsrc Hinit Hcols.
  pose proof (lookup_lt_Some _ _ _ H0) as Hlt.
  set (g := Grouper.mk key_types GrouperImpl.empty).
  assert (Grouper.Make key_types = Ok g) as Hg by (unfold Grouper.Make; by rewrite Hsup).
  pose proof (InitLocalStateIfNeeded_fresh n 0 x _ _ _ _ H0 Hkeys Hg Hsrc Hinit) as HInit.
  set (n1 := set_local_states_ _ n) in HInit.
  assert (local_states_ n1 !! 0%nat
          = Some {| grouper := Some g; agg_states := Some <$> states |}) as H1
    by (subst n1; simpl; by rewrite list_lookup_insert_eq).
  destruct (finalize_kernels_columns (agg_kernels_ n) states 0 n1 (Some g)
              (Some <$> states) columns) as (a' & HFin); [done..| |done|].
  { apply result_mapM_length in Hinit. done. }
  set (n2 := set_local_states_ _ n1) in HFin.
  assert (local_states_ n2 !! 0%nat = Some {| grouper := Some g; agg_states := a' |}) as H2.
  { subst n2 n1. simpl. rewrite list_lookup_insert_eq; [done|]. by rewrite length_insert. }
  apply result_mapM_length in Hkeys as Hlk.
  assert (the_grouper 0 n1 = (Ok g, n1)) as Hg1.
  { unfold the_grouper, local_state, mbind, M_bind, gets, lift. by rewrite H1. }
  set (n3 := set_local_states_
               (<[0%nat := {| grouper := None; agg_states := a' |}]> (local_states_ n2)) n2).
  assert (set_grouper 0 None n2 = (Ok tt, n3)) as Hsg.
  { unfold set_grouper, set_local_state, local_state, mbind, M_bind, gets, lift, modify.
    by rewrite H2. }
  exists (local_states_ n3). unfold Finalize.
  rewrite (bind_Ok _ _ _ _ _ HInit), (bind_Ok _ _ _ _ _ Hg1).
  rewrite (bind_Ok (gets agg_kernels_) _ n1 _ n1 eq_refl).
  change (agg_kernels_ n1) with (agg_kernels_ n).
  rewrite (bind_Ok _ _ _ _ _ HFin).
  rewrite (bind_Ok (lift (Grouper.GetUniques g)) _ n2 _ n2 eq_refl).
  rewrite (bind_Ok _ _ _ _ _ Hsg).
  rewrite (bind_Ok (gets output_batch_size) _ n3 _ n3 eq_refl).
  unfold mbind at 1, M_bind at 1, lift at 1. cbn [ExecBatch.length].
  replace (CeilDiv (Z.of_nat (Grouper.num_groups g)) (output_batch_size n3)) with (Ok 0)
    by done.
  assert (output_counter_SetTotal (to_int 0) n3
          = (Ok true, set_output_counter_ (AtomicCounter.mk 0 (Some 0) true) n3)) as HSet.
  { unfold output_counter_SetTotal.
    change (output_counter_ n3) with (output_counter_ n). by rewrite Hoc. }
  rewrite (bind_Ok _ _ _ _ _ HSet).
  unfold mbind, M_bind, MarkFinished, modify, mret, M_ret.
  cbn [ExecBatch.values Grouper.GetUniques Grouper.key_types Grouper.table g
       Grouper.num_groups GrouperImpl.num_groups length Z.of_nat].
  change (map _ (seq 0 (length key_types)))
    with (map (fun _ : nat => ArrayDatum []) (seq 0 (length key_types))).
  rewrite map_const_seq, Hlk. reflexivity.
Qed.

(** X10: a node that is started and whose input is declared final without a
    batch announces zero batches downstream, delivers none and is finished;
    its result has one column per aggregate and per key, and no row. *)
Theorem empty_input_yields_no_batch (ctx : ExecContext) (schema : Schema)
    (key_field_ids agg_src_field_ids : list nat)
    (agg_kernels : list (HashAggregateKernel KS))
    key_types src_fields states columns :
  (0 < thread_capacity ctx)%nat ->
  result_mapM (fun id => let? f := deref (schema !! id) in Ok (field_type f))
              key_field_ids = Ok key_types ->
  forallb Grouper.supported key_types = true ->
  result_mapM (fun id => deref (schema !! id)) agg_src_field_ids = Ok src_fields ->
  InitKernels agg_kernels = Ok states ->
  result_mapM (fun p => hash_finalize p.1 p.2) (zip agg_kernels states) = Ok columns ->
  ∃ n',
    (StartProducing ;; run [EvInputFinished 0])
      (construct ctx schema key_field_ids agg_src_field_ids agg_kernels) = (Ok tt, n') ∧
    calls n' = [Output_InputFinished 0] ∧
    finished_ n' = true ∧
    out_data_ n'
    = ExecBatch.mk (columns ++ replicate (length key_field_ids) (ArrayDatum [])) 0.
Proof.
  intros Hcap Hkeys Hsup Hsrc Hinit Hcols.
  set (n0 := construct ctx schema key_field_ids agg_src_field_ids agg_kernels).
  set (empty := {| grouper := None; agg_states := [] |} : ThreadLocalState KS).
  set (n1 := set_local_states_ (replicate (thread_capacity ctx) empty) n0).
  assert (StartProducing n0 = (Ok tt, n1)) as Hstart.
  { unfold StartProducing, mbind, M_bind, modify, gets. subst n1 n0. simpl.
    by rewrite Nat.sub_0_r, take_nil. }
  set (n2 := set_input_counter_ (AtomicCounter.mk 0 (Some 0) true) n1).
  assert (Merge n2 = (Ok tt, n2)) as HMerge.
  { apply Merge_idle. intros i s _ [-> _]%lookup_replicate. done. }
  destruct (Finalize_fresh n2 [] key_types src_fields states columns)
    as (local_states & HFinalize);
    [|reflexivity|exact Hkeys|exact Hsup|exact Hsrc|exact Hinit|exact Hcols|].
  { subst n2 n1. simpl. by apply lookup_replicate_2. }
  assert (∃ n3, OutputResult n2 = (Ok tt, n3) ∧
            calls n3 = [Output_InputFinished 0] ∧ finished_ n3 = true ∧
            out_data_ n3
            = ExecBatch.mk (columns ++ replicate (length key_field_ids) (ArrayDatum [])) 0)
    as (n3 & HOut & Hc3 & Hf3 & Ho3).
  { eexists. split.
    - unfold OutputResult. rewrite (bind_Ok _ _ _ _ _ HMerge).
      rewrite (bind_Ok _ _ _ _ _ HFinalize).
      unfold mbind, M_bind, modify, gets, lift, call, modify. simpl. reflexivity.
    - split_and!; reflexivity. }
  exists n3. rewrite (bind_Ok _ _ _ _ _ Hstart). cbn [run forM_ step].
  assert (InputFinished 0 n1 = (Ok tt, n3)) as HIF.
  { unfold InputFinished.
    rewrite (bind_Ok (gets finished_) _ n1 false n1 eq_refl).
    assert (input_counter_SetTotal 0 n1 = (Ok true, n2)) as HST by reflexivity.
    rewrite (bind_Ok _ _ _ _ _ HST).
    assert (ErrorIfNotOk OutputResult n2 = (Ok false, n3)) as HE
      by (unfold ErrorIfNotOk; by rewrite HOut).
    by rewrite (bind_Ok _ _ _ _ _ HE). }
  rewrite (bind_Ok _ _ _ _ _ HIF). by split_and!.
Qed.
End GroupByNode_empty.

(** ** Loops over results, by position *)

Lemma result_mapM_Ok {A B} (f : A -> Result B) (l : list A) ys :
  Forall2 (fun x y => f x = Ok y) l ys -> result_mapM f l = Ok ys.
Proof.
  induction 1 as [|x y l ys Hx _ IH]; simpl; [done|]. by rewrite Hx, IH.
Qed.

Lemma result_mapM_ext {A B} (f g : A -> Result B) (l : list A) :
  (∀ x, x ∈ l -> f x = g x) -> result_mapM f l = result_mapM g l.
Proof.
  induction l as [|x l IH]; intros H; simpl; [done|].
  rewrite H by left. rewrite IH; [done|]. intros y Hy. apply H. by right.
Qed.

Lemma result_mapM_lookup {A B} (f : A -> Result B) (l : list A) ys i x :
  result_mapM f l = Ok ys -> l !! i = Some x -> ∃ y, ys !! i = Some y ∧ f x = Ok y.
Proof.
  intros H Hi. apply result_mapM_Forall2 in H.
  by apply (Forall2_lookup_l _ _ _ _ _ H Hi).
Qed.

Section descriptions.
Context {KS Options : Type}.
Import ScalarAggregateNode.
Variable ToString : Options -> string.

(** X11: the description of a constructed ScalarAggregateNode is defined: it
    lists the aggregates in order, each as its function applied to the name
    of its target and its options, whatever the indent. *)
Theorem ToStringExtra_of_made (p : ExecPlan KS Options) (input_schema : Schema)
    (opts : AggregateNodeOptions Options) node (indent : Z) :
  Make p [input_schema] opts = Ok node ->
  ∃ lines,
    ScalarAggregateNode_ToStringExtra ToString input_schema node indent
    = Ok ("aggregates=[" +:+ endl +:+ String.concat "" lines +:+ "]") ∧
    Forall2 (fun agg line =>
               ∃ o, line = tab +:+ function agg +:+ "(" +:+ target agg +:+ ", "
                           +:+ ToString o +:+ ")," +:+ endl ∧
                    (∀ o', options agg = Some o' -> o' = o))
            (aggregates opts) lines.
Proof.
  intros HMake.
  destruct (Make_fields _ _ _ _ HMake) as (s & [= <-] & Hl1 & Hl2 & _ & _ & _ & Hall).
  assert (∀ i agg, aggregates opts !! i = Some agg ->
            ∃ o, aggregate_line ToString input_schema (aggs_ node) (target_field_ids_ node) 0 i
                 = Ok (tab +:+ function agg +:+ "(" +:+ target agg +:+ ", "
                       +:+ ToString o +:+ ")," +:+ endl) ∧
                 (∀ o', options agg = Some o' -> o' = o)) as Hline.
  { intros i agg Hi.
    destruct (Hall i agg Hi)
      as (id & f & a & fld & sts & Hid & Hf & Hn & _ & Ha & Hfn & _ & _ & [o Ho] & Ho' & _).
    exists o. split.
    - unfold aggregate_line. rewrite Ha, Hid. simpl. rewrite Hf. simpl.
      by rewrite Ho, Hfn, Hn.
    - intros o' Hagg. apply Ho' in Hagg. congruence. }
  assert (∃ lines,
            result_mapM (aggregate_line ToString input_schema (aggs_ node)
                           (target_field_ids_ node) 0) (seq 0 (length (aggs_ node)))
            = Ok lines ∧
            Forall2 (fun agg line =>
               ∃ o, line = tab +:+ function agg +:+ "(" +:+ target agg +:+ ", "
                           +:+ ToString o +:+ ")," +:+ endl ∧
                    (∀ o', options agg = Some o' -> o' = o))
              (aggregates opts) lines) as (lines & Hlines & HF).
  { rewrite Hl2. clear Hl1 Hl2 Hall HMake.
    induction (aggregates opts) as [|agg aggs IH] using rev_ind.
    - exists []. split; [done|constructor].
    - destruct IH as (lines & Hlines & HF).
      { intros i a Hi. apply Hline. by apply lookup_app_l_Some. }
      destruct (Hline (length aggs) agg) as (o & Ho & Ho').
      { by rewrite lookup_app_r, Nat.sub_diag by lia. }
      eexists (lines ++ [_]). rewrite length_app. simpl.
      rewrite Nat.add_1_r, seq_S, result_mapM_app, Hlines. simpl. rewrite Ho. simpl.
      split; [done|]. apply Forall2_app; [done|]. constructor; [|constructor].
      by exists o. }
  exists lines. split; [|done].
  unfold ScalarAggregateNode_ToStringExtra, AggregatesToString. by rewrite Hlines.
Qed.
End descriptions.

Lemma result_mapM_fmap {A B C} (f : A -> Result B) (g : B -> C) (h : A -> C)
    (l : list A) ys :
  result_mapM f l = Ok ys ->
  (∀ x y, x ∈ l -> f x = Ok y -> g y = h x) ->
  g <$> ys = h <$> l.
Proof.
  intros H Hgh. apply result_mapM_Forall2 in H.
  induction H as [|x y l ys Hx _ IH]; [done|]. rewrite !fmap_cons. f_equal.
  - apply Hgh; [left|done].
  - apply IH. intros x' y' Hin. apply Hgh. by right.
Qed.

Lemma fmap_seq_lookup {A B} (f : A -> B) (d : B) (l : list A) :
  (fun i => default d (f <$> l !! i)) <$> seq 0 (length l) = f <$> l.
Proof.
  apply list_eq. intros i. rewrite !list_lookup_fmap.
  destruct (l !! i) as [x|] eqn:Hi.
  - rewrite lookup_seq_lt by (by eapply lookup_lt_Some). simpl. by rewrite Hi.
  - rewrite lookup_seq_ge by (by apply lookup_ge_None). done.
Qed.

Section GroupByNode_Make_facts.
Context {KS Options : Type}.
Import ScalarAggregateNode.
Variable GetKernels :
  ExecContext -> list (Aggregate Options) -> list DataType
  -> Result (list (HashAggregateKernel KS)).
Variable ResolveKernels :
  list (Aggregate Options) -> list (HashAggregateKernel KS) -> list KS
  -> ExecContext -> list DataType -> Result (list Field).

(** The field a reference resolves to. *)
Lemma FindOne_first ref schema id :
  (let? match_ := FindOne ref schema in deref (match_ !! 0%nat)) = Ok id ->
  ∃ f, schema !! id = Some f ∧ field_name f = ref.
Proof.
  destruct (FindOne ref schema) as [path| |] eqn:E; simpl; [|done..].
  apply FindOne_spec in E as (i & f & -> & Hi & Hn & _). simpl. intros [= <-]. eauto.
Qed.

Lemma GroupByNode_Make_Ok (ctx : ExecContext) (inputs : list Schema)
    (opts : AggregateNodeOptions Options) made :
  GroupByNode_Make GetKernels ResolveKernels ctx inputs opts = Ok made ->
  ∃ input_schema key_field_ids agg_src_field_ids agg_kernels,
    inputs = [input_schema] ∧
    made_node made = GroupByNode.construct ctx input_schema key_field_ids
                       agg_src_field_ids agg_kernels ∧
    made_aggs made = aggregates opts ∧
    Forall2 (fun key id => ∃ f, input_schema !! id = Some f ∧ field_name f = key)
            (keys opts) key_field_ids ∧
    Forall2 (fun agg id => ∃ f, input_schema !! id = Some f ∧ field_name f = target agg)
            (aggregates opts) agg_src_field_ids ∧
    field_name <$> made_output_schema made = (name <$> aggregates opts) ++ keys opts ∧
    Forall2 (fun id f => input_schema !! id = Some f)
            key_field_ids (drop (length (aggregates opts)) (made_output_schema made)).
Proof.
  unfold GroupByNode_Make. intros H.
  destruct (ValidateExecNodeInputs _ _ _) eqn:EV; simpl in H; [|done..].
  unfold ValidateExecNodeInputs in EV. destruct (decide _) as [Hlen|]; [|done].
  destruct inputs as [|input_schema [|]]; try done. simpl in H.
  destruct (result_mapM _ (keys opts)) as [key_field_ids| |] eqn:Hkeys;
    simpl in H; [|done..].
  destruct (result_mapM _ (aggregates opts)) as [agg_src_field_ids| |] eqn:Haggs;
    simpl in H; [|done..].
  destruct (result_mapM _ agg_src_field_ids) as [agg_src_descrs| |];
    simpl in H; [|done..].
  destruct (GetKernels _ _ _) as [agg_kernels| |]; simpl in H; [|done..].
  destruct (InitKernels _) as [agg_states| |]; simpl in H; [|done..].
  destruct (ResolveKernels _ _ _ _ _) as [agg_result_fields| |]; simpl in H; [|done..].
  destruct (result_mapM _ (seq _ _)) as [agg_fields| |] eqn:Hfields;
    simpl in H; [|done..].
  destruct (result_mapM _ key_field_ids) as [key_fields| |] eqn:Hkf;
    simpl in H; [|done..].
  injection H as <-. simpl.
  exists input_schema, key_field_ids, agg_src_field_ids, agg_kernels.
  assert (Forall2 (fun key id => ∃ f, input_schema !! id = Some f ∧ field_name f = key)
            (keys opts) key_field_ids) as HK.
  { apply result_mapM_Forall2 in Hkeys.
    eapply Forall2_impl; [done|]. intros key id. apply FindOne_first. }
  assert (field_name <$> agg_fields = name <$> aggregates opts) as Hnames.
  { rewrite <- (fmap_seq_lookup name "" (aggregates opts)).
    eapply result_mapM_fmap; [done|]. intros i fld _ Hi. cbv beta in Hi.
    destruct (deref (agg_result_fields !! i)); simpl in Hi; [|done..].
    destruct (aggregates opts !! i); simpl in Hi; [|done..]. by injection Hi as <-. }
  assert (length agg_fields = length (aggregates opts)) as Hlf
    by (apply result_mapM_length in Hfields; by rewrite length_seq in Hfields).
  assert (Forall2 (fun id f => input_schema !! id = Some f) key_field_ids key_fields) as HKF.
  { apply result_mapM_Forall2 in Hkf. eapply Forall2_impl; [done|].
    intros id f Hf. cbv beta in Hf. by destruct (input_schema !! id); simplify_eq/=. }
  split_and!; [done..| | |].
  - apply result_mapM_Forall2 in Haggs.
    eapply Forall2_impl; [done|]. intros agg id. apply FindOne_first.
  - rewrite fmap_app, Hnames. f_equal.
    clear -HK HKF. revert key_fields HKF.
    induction HK as [|key id keys ids (f & Hf & Hn) _ IH]; intros key_fields HKF;
      inversion HKF as [|? f' ? fs Hf' HKF']; simplify_eq; [done|].
    simpl. f_equal. by apply IH.
  - by rewrite <- Hlf, drop_app_length.
Qed.

(** X12: a constructed GroupByNode is in the state its constructor leaves.
    Its key field ids and aggregate source field ids are positions of fields
    of the input schema that the keys and the targets name. In its output
    schema the aggregates come first, under their names, and the key fields
    of the input schema follow, unchanged. *)
Theorem GroupByNode_Make_schema (ctx : ExecContext) (inputs : list Schema)
    (opts : AggregateNodeOptions Options) made :
  GroupByNode_Make GetKernels ResolveKernels ctx inputs opts = Ok made ->
  ∃ input_schema key_field_ids agg_src_field_ids agg_kernels,
    inputs = [input_schema] ∧
    made_node made = GroupByNode.construct ctx input_schema key_field_ids
                       agg_src_field_ids agg_kernels ∧
    made_aggs made = aggregates opts ∧
    Forall2 (fun key id => ∃ f, input_schema !! id = Some f ∧ field_name f = key)
            (keys opts) key_field_ids ∧
    Forall2 (fun agg id => ∃ f, input_schema !! id = Some f ∧ field_name f = target agg)
            (aggregates opts) agg_src_field_ids ∧
    field_name <$> made_output_schema made = (name <$> aggregates opts) ++ keys opts ∧
    Forall2 (fun id f => input_schema !! id = Some f)
            key_field_ids (drop (length (aggregates opts)) (made_output_schema made)).
Proof. apply GroupByNode_Make_Ok. Qed.

(** X13: a key that does not resolve to one field of the input schema fails
    the construction, with the status of the lookup, whatever the aggregates
    are. *)
Theorem GroupByNode_Make_unresolved_key (ctx : ExecContext) (input_schema : Schema)
    (opts : AggregateNodeOptions Options) pre key post s :
  keys opts = pre ++ key :: post ->
  Forall (fun k => is_ok (FindOne k input_schema) = true) pre ->
  FindOne key input_schema = Raise s ->
  GroupByNode_Make GetKernels ResolveKernels ctx [input_schema] opts = Raise s.
Proof.
  intros Hkeys Hpre Hkey. unfold GroupByNode_Make. simpl.
  rewrite Hkeys, result_mapM_app.
  assert (∃ ids, result_mapM
            (fun key => let? match_ := FindOne key input_schema in deref (match_ !! 0%nat))
            pre = Ok ids) as [ids ->].
  { clear Hkeys. induction Hpre as [|k pre Hk _ IH]; [by exists []|].
    destruct IH as [ids IH]. simpl.
    destruct (FindOne k input_schema) as [path| |] eqn:E; [|done..].
    apply FindOne_spec in E as (i & f & -> & _). simpl. rewrite IH. simpl. eauto. }
  simpl. by rewrite Hkey.
Qed.

(** X14: the node the factory makes is the ScalarAggregateNode exactly when
    there are no keys, and the names of its output fields are the names of
    the aggregates followed by the keys. *)
Theorem factory_output_names {KS'} (p : ExecPlan KS' Options) (inputs : list Schema)
    (opts : AggregateNodeOptions Options) node :
  AggregateNodeFactory GetKernels ResolveKernels p inputs opts = Ok node ->
  (keys opts = [] ↔ ∃ n, node = inl n) ∧
  field_name <$> factory_output_schema node = (name <$> aggregates opts) ++ keys opts.
Proof.
  unfold AggregateNodeFactory. destruct (decide (keys opts = [])) as [Hk|Hk].
  - destruct (Make p inputs opts) as [n| |] eqn:HMake; simpl; [|done..].
    intros [= <-]. split; [split; [by eauto|done]|]. simpl. rewrite Hk, app_nil_r.
    destruct (Make_fields _ _ _ _ HMake) as (s & _ & _ & _ & _ & _ & Hlen & Hall).
    apply list_eq. intros i. unfold Schema in *. rewrite !list_lookup_fmap.
    destruct (aggregates opts !! i) as [agg|] eqn:Hi.
    + destruct (Hall i agg Hi)
        as (? & ? & ? & fld & ? & _ & _ & _ & _ & _ & _ & _ & _ & _ & _ & Hf & Hn & _).
      rewrite Hf. simpl. by rewrite Hn.
    + apply lookup_ge_None in Hi. rewrite <- Hlen in Hi.
      apply lookup_ge_None in Hi. by rewrite Hi.
  - destruct (GroupByNode_Make _ _ _ _ _) as [m| |] eqn:HMake; simpl; [|done..].
    intros [= <-]. split.
    + split; [done|]. by intros [n [=]].
    + simpl. by destruct (GroupByNode_Make_Ok _ _ _ _ HMake)
        as (? & ? & ? & ? & _ & _ & _ & _ & _ & ? & _).
Qed.
End GroupByNode_Make_facts.

(** ** ScalarAggregateNode: all batches on one thread *)

Lemma result_mapM_total {A B} (f : A -> Result B) (l : list A) :
  (∀ x, x ∈ l -> ∃ y, f x = Ok y) -> ∃ ys, result_mapM f l = Ok ys.
Proof.
  induction l as [|x l IH]; intros H; [by exists []|].
  destruct (H x) as [y Hy]; [left|].
  destruct IH as [ys Hys]; [intros x' Hx'; apply H; by right|].
  exists (y :: ys). simpl. by rewrite Hy, Hys.
Qed.

Lemma insert_take_drop {A} (l1 l0 : list A) j x :
  l1 !! j = Some x -> (j < length l0)%nat ->
  <[j := x]> (take j l1 ++ drop j l0) = take (S j) l1 ++ drop (S j) l0.
Proof.
  intros H1 H0. pose proof (lookup_lt_Some _ _ _ H1) as Hlt.
  assert (length (take j l1) = j) as Hlen by (rewrite length_take; lia).
  rewrite insert_app_r_alt by lia. rewrite Hlen, Nat.sub_diag.
  destruct (drop j l0) as [|y rest] eqn:Hd.
  { apply (f_equal length) in Hd. rewrite length_drop in Hd. simpl in Hd. lia. }
  simpl. rewrite (take_S_r _ _ _ H1), <- app_assoc. simpl. do 2 f_equal.
  assert (drop (S j) l0 = drop 1 (drop j l0)) as -> by (rewrite drop_drop; f_equal; lia).
  by rewrite Hd.
Qed.

Section ScalarAggregateNode_single_thread.
Context {KS Options : Type}.
Import ScalarAggregateNode.
Implicit Types (n : ScalarAggregateNode.t KS Options).

Lemma run_app_Ok (l1 l2 : list Event) n n1 :
  run l1 n = (Ok tt, n1) -> run (l1 ++ l2) n = run l2 n1.
Proof.
  revert n. induction l1 as [|e l1 IH]; intros n; cbn [app run forM_].
  - by intros [= <-].
  - intros Hr. apply bind_Ok_inv in Hr as ([] & n0 & He & Hr).
    rewrite (bind_Ok _ _ _ _ _ He). by apply IH.
Qed.

(** The loop of [DoConsume] from the kernel [j] on. *)
Lemma DoConsume_loop batch slot (ss1 : list (list KS)) n0 m : ∀ j n,
  (j + m = length (kernels_ n0))%nat ->
  length (states_ n0) = length (kernels_ n0) ->
  length ss1 = length (kernels_ n0) ->
  kernels_ n = kernels_ n0 -> target_field_ids_ n = target_field_ids_ n0 ->
  states_ n = take j ss1 ++ drop j (states_ n0) ->
  (∀ i, (j ≤ i < j + m)%nat ->
        ∃ x, consumed_state n0 slot [batch] i = Ok x ∧ ss1 !! i = Some x) ->
  forM_ (seq j m) (consume_kernel batch slot) n = (Ok tt, set_states_ ss1 n).
Proof.
  induction m as [|m IH]; intros j n Hjm Hl0 Hl1 Hk Hid Hs Hstep.
  - simpl. rewrite take_ge, drop_ge, app_nil_r in Hs by lia.
    rewrite <- Hs. by destruct n.
  - cbn [seq forM_].
    destruct (Hstep j ltac:(lia)) as (x & Hx & Hx1).
    unfold consumed_state in Hx. cbn [consume_batches] in Hx.
    destruct (kernels_ n0 !! j) as [kernel|] eqn:Ek; simpl in Hx; [|done].
    destruct (states_ n0 !! j) as [states|] eqn:Es; simpl in Hx; [|done].
    destruct (states !! slot) as [state|] eqn:Est; simpl in Hx; [|done].
    destruct (target_field_ids_ n0 !! j) as [id|] eqn:Eid; simpl in Hx; [|done].
    destruct (ExecBatch.values batch !! id) as [column|] eqn:Ecol; simpl in Hx; [|done].
    destruct (consume kernel state _) as [state'| |] eqn:Econs; simpl in Hx; [|done..].
    injection Hx as <-.
    assert (states_ n !! j = Some states) as Esn.
    { rewrite Hs, lookup_app_r by (rewrite length_take; lia).
      rewrite length_take, lookup_drop.
      replace (j + (j - j `min` length ss1))%nat with j by lia. done. }
    set (n1 := set_states_ (<[j := <[slot := state']> states]> (states_ n)) n).
    assert (consume_kernel batch slot j n = (Ok tt, n1)) as H1.
    { unfold consume_kernel, mbind, M_bind, gets, lift, modify.
      rewrite Hk, Ek, Esn. simpl. rewrite Est. simpl. rewrite Hid, Eid. simpl.
      rewrite Ecol. simpl. by rewrite Econs. }
    rewrite (bind_Ok _ _ _ _ _ H1).
    rewrite (IH (S j) n1); [by destruct n|lia|done..| |].
    + subst n1. simpl. rewrite Hs. apply insert_take_drop; [done|].
      apply lookup_lt_Some in Es. lia.
    + intros i Hi. apply Hstep. lia.
Qed.

(** One batch on the thread slot [slot]. *)
Lemma DoConsume_Ok batch slot n ss1 :
  length (states_ n) = length (kernels_ n) ->
  consumed_states n slot [batch] = Ok ss1 ->
  DoConsume batch slot n = (Ok tt, set_states_ ss1 n).
Proof.
  intros Hlen Hss. unfold DoConsume, mbind, M_bind, gets.
  pose proof (result_mapM_length _ _ _ Hss) as Hl1. rewrite length_seq in Hl1.
  apply (DoConsume_loop batch slot ss1 n); [done..| |].
  - by rewrite take_0, drop_0.
  - intros i [_ Hi]. simpl in Hi.
    destruct (result_mapM_lookup _ _ _ i i Hss) as (x & ? & ?); [|by exists x].
    by apply lookup_seq_lt.
Qed.

(** The batches after the first are consumed from the states the first
    one leaves. *)
Lemma consumed_states_cons n slot batch batches ss :
  consumed_states n slot (batch :: batches) = Ok ss ->
  ∃ ss1, consumed_states n slot [batch] = Ok ss1 ∧
         consumed_states (set_states_ ss1 n) slot batches = Ok ss.
Proof.
  intros Hss. unfold consumed_states in *.
  assert (∀ i, (i < length (kernels_ n))%nat ->
            ∃ kernel states state id column s1 s',
              kernels_ n !! i = Some kernel ∧ states_ n !! i = Some states ∧
              states !! slot = Some state ∧ target_field_ids_ n !! i = Some id ∧
              ExecBatch.values batch !! id = Some column ∧
              consume kernel state (ExecBatch.mk [column] (ExecBatch.length batch)) = Ok s1 ∧
              consume_batches kernel id s1 batches = Ok s' ∧
              ss !! i = Some (<[slot := s']> states)) as Hall.
  { intros i Hi.
    destruct (result_mapM_lookup _ _ _ i i Hss) as (x & Hx & Hstep);
      [by apply lookup_seq_lt|].
    unfold consumed_state in Hstep. cbn [consume_batches] in Hstep.
    destruct (kernels_ n !! i) as [kernel|] eqn:Ek; simpl in Hstep; [|done].
    destruct (states_ n !! i) as [states|] eqn:Es; simpl in Hstep; [|done].
    destruct (states !! slot) as [state|] eqn:Est; simpl in Hstep; [|done].
    destruct (target_field_ids_ n !! i) as [id|] eqn:Eid; simpl in Hstep; [|done].
    destruct (ExecBatch.values batch !! id) as [column|] eqn:Ecol;
      simpl in Hstep; [|done].
    destruct (consume kernel state _) as [s1| |] eqn:Ec; simpl in Hstep; [|done..].
    destruct (consume_batches kernel id s1 batches) as [s'| |] eqn:Eb;
      simpl in Hstep; [|done..].
    injection Hstep as <-. by exists kernel, states, state, id, column, s1, s'. }
  destruct (result_mapM_total (consumed_state n slot [batch])
              (seq 0 (length (kernels_ n)))) as [ss1 Hss1].
  { intros i [_ Hi]%elem_of_seq.
    destruct (Hall i Hi) as (kernel & states & state & id & column & s1 & s' &
                             Hk & Hs & Hst & Hid & Hcol & Hc & _).
    unfold consumed_state. cbn [consume_batches].
    rewrite Hk, Hs. simpl. rewrite Hst, Hid. simpl. rewrite Hcol. simpl.
    rewrite Hc. simpl. eauto. }
  exists ss1. split; [done|]. rewrite <- Hss. simpl.
  apply result_mapM_ext. intros i [_ Hi]%elem_of_seq.
  destruct (Hall i Hi) as (kernel & states & state & id & column & s1 & s' &
                           Hk & Hs & Hst & Hid & Hcol & Hc & Hb & _).
  destruct (result_mapM_lookup _ _ _ i i Hss1) as (y & Hy & Hstep);
    [by apply lookup_seq_lt|].
  unfold consumed_state in Hstep |- *. cbn [consume_batches] in Hstep |- *.
  simpl. rewrite Hk, Hs in *. simpl in *. rewrite Hst, Hid in *. simpl in *.
  rewrite Hcol in *. simpl in *. rewrite Hc in *. simpl in *.
  injection Hstep as <-. rewrite Hy. simpl.
  rewrite list_lookup_insert_eq by (by eapply lookup_lt_Some). simpl.
  rewrite Hb. simpl. by rewrite list_insert_insert_eq.
Qed.

Lemma consumed_states_nil n slot ss :
  length (states_ n) = length (kernels_ n) ->
  consumed_states n slot [] = Ok ss -> ss = states_ n.
Proof.
  intros Hlen Hss. unfold consumed_states in Hss.
  pose proof (result_mapM_length _ _ _ Hss) as Hl. rewrite length_seq in Hl.
  apply list_eq. intros i.
  destruct (decide (i < length (kernels_ n))%nat) as [Hi|Hi].
  - destruct (result_mapM_lookup _ _ _ i i Hss) as (x & Hx & Hstep);
      [by apply lookup_seq_lt|].
    unfold consumed_state in Hstep. cbn [consume_batches] in Hstep.
    destruct (kernels_ n !! i) as [kernel|]; simpl in Hstep; [|done].
    destruct (states_ n !! i) as [states|]; simpl in Hstep; [|done].
    destruct (states !! slot) as [state|] eqn:Est; simpl in Hstep; [|done].
    destruct (target_field_ids_ n !! i) as [id|]; simpl in Hstep; [|done].
    injection Hstep as <-. by rewrite Hx, list_insert_id.
  - rewrite !lookup_ge_None_2 by lia. done.
Qed.

(** Batches that arrive on the first thread before the total is known:
    each is consumed into the states of slot 0 and counted. *)
Lemma run_single_thread thread_id (batches : list ExecBatch.t) : ∀ n count ss,
  ThreadIndexer.index (get_thread_index_ n) thread_id = (0%nat, [thread_id]) ->
  input_counter_ n = AtomicCounter.mk count None false ->
  length (states_ n) = length (kernels_ n) ->
  consumed_states n 0 batches = Ok ss ->
  ∃ n', run (EvInputReceived thread_id <$> batches) n = (Ok tt, n') ∧
    states_ n' = ss ∧ kernels_ n' = kernels_ n ∧ calls n' = calls n ∧
    finished_ n' = finished_ n ∧
    input_counter_ n' = AtomicCounter.mk (count + Z.of_nat (length batches)) None false.
Proof.
  induction batches as [|batch batches IH]; intros n count ss Hix Hic Hlen Hss.
  - exists n. apply consumed_states_nil in Hss; [|done]. simpl.
    split_and!; [done..|]. rewrite Hic. f_equal. lia.
  - apply consumed_states_cons in Hss as (ss1 & Hss1 & Hss).
    pose proof (result_mapM_length _ _ _ Hss1) as Hl1. rewrite length_seq in Hl1.
    set (n1 := set_input_counter_ (AtomicCounter.mk (count + 1) None false)
                 (set_states_ ss1 (set_get_thread_index_ [thread_id] n))).
    assert (InputReceived thread_id batch n = (Ok tt, n1)) as H1.
    { unfold InputReceived. unfold mbind at 1, M_bind at 1, thread_index at 1.
      rewrite Hix. unfold mbind at 1, M_bind at 1, ErrorIfNotOk at 1.
      rewrite (DoConsume_Ok batch 0 _ ss1); [|done..].
      unfold mbind, M_bind, input_counter_Increment. simpl. rewrite Hic.
      unfold AtomicCounter.Increment. simpl. done. }
    destruct (IH n1 (count + 1) ss) as (n' & Hrun & Hs & Hk & Hc & Hf & Hi);
      [|done|done|done|].
    { subst n1. simpl. unfold ThreadIndexer.index. simpl.
      by rewrite decide_True by done. }
    exists n'. cbn [fmap list_fmap run forM_ step].
    rewrite (bind_Ok _ _ _ _ _ H1). split_and!; [done..|].
    rewrite Hi. f_equal. simpl length. lia.
Qed.

(** X15: a node whose input arrives on one thread: when the kernels consume
    the target columns of the batches, in order of arrival, and the states
    so reached merge and finalize, the node delivers exactly the batch of
    the finalized scalars once the input has declared the number of its
    batches, and is finished. *)
Theorem single_thread_result n thread_id (batches : list ExecBatch.t) ss columns :
  get_thread_index_ n = ThreadIndexer.init ->
  input_counter_ n = AtomicCounter.init ->
  length (states_ n) = length (kernels_ n) ->
  consumed_states n 0 batches = Ok ss ->
  finish_columns (kernels_ n) ss = Ok columns ->
  ∃ n',
    run ((EvInputReceived thread_id <$> batches)
         ++ [EvInputFinished (Z.of_nat (length batches))]) n = (Ok tt, n') ∧
    calls n' = calls n ++ [Output_InputReceived (ExecBatch.mk columns 1)] ∧
    finished_ n' = true.
Proof.
  intros Hix Hic Hlen Hss Hcols.
  pose proof (result_mapM_length _ _ _ Hss) as Hl. rewrite length_seq in Hl.
  destruct (run_single_thread thread_id batches n 0 ss)
    as (n1 & Hrun & Hs & Hk & Hc & Hf & Hi); [by rewrite Hix|by rewrite Hic|done..|].
  set (n2 := set_input_counter_
               (AtomicCounter.mk (0 + Z.of_nat (length batches))
                  (Some (Z.of_nat (length batches))) true) n1).
  destruct (Finish_columns n2 columns) as (n' & HF & Hfin & Hcalls).
  { subst n2. simpl. congruence. }
  { subst n2. simpl. by rewrite Hk, Hs. }
  exists n'. rewrite (run_app_Ok _ _ _ _ Hrun). cbn [run forM_ step].
  assert (InputFinished (Z.of_nat (length batches)) n1 = (Ok tt, n')) as HIF.
  { unfold InputFinished. unfold mbind at 1, M_bind at 1, input_counter_SetTotal at 1.
    rewrite Hi. unfold AtomicCounter.SetTotal, AtomicCounter.DoneOnce.
    cbn [AtomicCounter.count_ AtomicCounter.total_ AtomicCounter.complete_].
    rewrite decide_True by lia. cbn [negb].
    fold n2. unfold mbind, M_bind, ErrorIfNotOk. by rewrite HF. }
  rewrite (bind_Ok _ _ _ _ _ HIF). split_and!; [done| |done].
  rewrite Hcalls. subst n2. simpl. by rewrite Hc.
Qed.
End ScalarAggregateNode_single_thread.

(** ** ScalarAggregateNode: the batch of the finalized scalars *)

Section ScalarAggregateNode_result.
Context {KS Options : Type}.
Import ScalarAggregateNode.
Implicit Types (n m : ScalarAggregateNode.t KS Options).

Lemma consumed_states_ext n m slot batches :
  kernels_ n = kernels_ m -> states_ n = states_ m ->
  target_field_ids_ n = target_field_ids_ m ->
  consumed_states n slot batches = consumed_states m slot batches.
Proof.
  intros Hk Hs Hi. unfold consumed_states, consumed_state. by rewrite Hk, Hs, Hi.
Qed.

Lemma consumed_arrivals_ext arrivals : ∀ n m,
  kernels_ n = kernels_ m -> states_ n = states_ m ->
  target_field_ids_ n = target_field_ids_ m ->
  get_thread_index_ n = get_thread_index_ m ->
  consumed_arrivals n arrivals = consumed_arrivals m arrivals.
Proof.
  induction arrivals as [|[thread_id batch] rest IH]; intros n m Hk Hs Hi Hx; simpl.
  - by rewrite Hs, Hx.
  - rewrite Hx. destruct (ThreadIndexer.index _ _) as [slot ix].
    rewrite (consumed_states_ext n m) by done.
    destruct (consumed_states m slot [batch]) as [ss| |]; simpl; [|done..].
    by apply IH.
Qed.

Lemma consumed_arrivals_app l1 : ∀ n l2 r,
  consumed_arrivals n (l1 ++ l2) = Ok r ->
  ∃ ix ss, consumed_arrivals n l1 = Ok (ix, ss) ∧
    consumed_arrivals (set_states_ ss (set_get_thread_index_ ix n)) l2 = Ok r.
Proof.
  induction l1 as [|[thread_id batch] l1 IH]; intros n l2 r; simpl.
  - intros H. exists (get_thread_index_ n), (states_ n). split; [done|].
    rewrite <- H. by apply consumed_arrivals_ext.
  - destruct (ThreadIndexer.index _ _) as [slot ix].
    destruct (consumed_states n slot [batch]) as [ss| |]; simpl; [|done..].
    intros H. apply IH in H as (ix1 & ss1 & H1 & H2).
    exists ix1, ss1. split; [done|]. rewrite <- H2. by apply consumed_arrivals_ext.
Qed.

(** The states keep their shape. *)
Lemma consumed_states_length n slot batches ss :
  consumed_states n slot batches = Ok ss -> length ss = length (kernels_ n).
Proof.
  intros H. apply result_mapM_length in H. by rewrite length_seq in H.
Qed.

(** A batch that does not complete the input is consumed and counted. *)
Lemma InputReceived_counted thread_id batch n count total slot ix ss :
  input_counter_ n = AtomicCounter.mk count total false ->
  total ≠ Some (count + 1) ->
  length (states_ n) = length (kernels_ n) ->
  ThreadIndexer.index (get_thread_index_ n) thread_id = (slot, ix) ->
  consumed_states n slot [batch] = Ok ss ->
  InputReceived thread_id batch n
  = (Ok tt, set_input_counter_ (AtomicCounter.mk (count + 1) total false)
              (set_states_ ss (set_get_thread_index_ ix n))).
Proof.
  intros Hic Hne Hlen Hix Hss.
  unfold InputReceived. unfold mbind at 1, M_bind at 1, thread_index at 1.
  rewrite Hix. unfold mbind at 1, M_bind at 1, ErrorIfNotOk at 1.
  rewrite (DoConsume_Ok batch slot _ ss); [|done..].
  unfold mbind, M_bind, input_counter_Increment. simpl. rewrite Hic.
  unfold AtomicCounter.Increment. simpl.
  destruct (decide _) as [Heq|_]; [|done]. by rewrite Heq in Hne.
Qed.

(** The batch that completes the input is consumed, and [Finish] runs. *)
Lemma InputReceived_last thread_id batch n count slot ix ss columns :
  input_counter_ n = AtomicCounter.mk count (Some (count + 1)) false ->
  length (states_ n) = length (kernels_ n) ->
  ThreadIndexer.index (get_thread_index_ n) thread_id = (slot, ix) ->
  consumed_states n slot [batch] = Ok ss ->
  finish_columns (kernels_ n) ss = Ok columns ->
  ∃ n', InputReceived thread_id batch n = (Ok tt, n') ∧
    calls n' = calls n ++ [Output_InputReceived (ExecBatch.mk columns 1)] ∧
    finished_ n' = true.
Proof.
  intros Hic Hlen Hix Hss Hcols.
  set (n2 := set_input_counter_ (AtomicCounter.mk (count + 1) (Some (count + 1)) true)
               (set_states_ ss (set_get_thread_index_ ix n))).
  destruct (Finish_columns n2 columns) as (n' & HF & Hfin & Hcalls).
  { subst n2. simpl. by apply consumed_states_length in Hss. }
  { done. }
  exists n'. split_and!; [|done..].
  unfold InputReceived. unfold mbind at 1, M_bind at 1, thread_index at 1.
  rewrite Hix. unfold mbind at 1, M_bind at 1, ErrorIfNotOk at 1.
  rewrite (DoConsume_Ok batch slot _ ss); [|done..].
  unfold mbind, M_bind, input_counter_Increment. simpl. rewrite Hic.
  unfold AtomicCounter.Increment, AtomicCounter.DoneOnce. simpl.
  rewrite decide_True by done. simpl. fold n2.
  unfold ErrorIfNotOk. by rewrite HF.
Qed.

(** Batches that do not complete the input. *)
Lemma run_arrivals_counted (arrivals : list (nat * ExecBatch.t)) : ∀ n count total ix ss,
  input_counter_ n = AtomicCounter.mk count total false ->
  (∀ t, total = Some t -> count + Z.of_nat (length arrivals) < t) ->
  length (states_ n) = length (kernels_ n) ->
  consumed_arrivals n arrivals = Ok (ix, ss) ->
  run (uncurry EvInputReceived <$> arrivals) n
  = (Ok tt,
     set_input_counter_ (AtomicCounter.mk (count + Z.of_nat (length arrivals)) total false)
       (set_states_ ss (set_get_thread_index_ ix n))).
Proof.
  induction arrivals as [|[thread_id batch] rest IH]; intros n count total ix ss Hic Ht Hlen.
  - simpl. intros [= <- <-]. rewrite Z.add_0_r, <- Hic. by destruct n.
  - cbn [consumed_arrivals fmap list_fmap run forM_ step uncurry fst snd].
    destruct (ThreadIndexer.index _ _) as [slot ix1] eqn:Hix.
    destruct (consumed_states n slot [batch]) as [ss1| |] eqn:Hss1; simpl; [|done..].
    intros Hrest.
    rewrite (bind_Ok _ _ _ _ _
               (InputReceived_counted thread_id batch n count total slot ix1 ss1
                  Hic ltac:(intros E; specialize (Ht _ E); simpl in Ht; lia)
                  Hlen Hix Hss1)).
    change (forM_ (uncurry EvInputReceived <$> rest) step)
      with (run (KS:=KS) (Options:=Options) (uncurry EvInputReceived <$> rest)).
    rewrite (IH _ (count + 1) total ix ss); simpl.
    + replace (count + 1 + Z.of_nat (length rest))
        with (count + Z.of_nat (S (length rest))) by lia. done.
    + done.
    + intros t E. specialize (Ht _ E). simpl in Ht. lia.
    + by apply consumed_states_length in Hss1.
    + rewrite <- Hrest. by apply consumed_arrivals_ext.
Qed.

(** Batches of which the last one completes the input. *)
Lemma run_arrivals_last (arrivals : list (nat * ExecBatch.t)) : ∀ n count ix ss columns,
  arrivals ≠ [] ->
  input_counter_ n
  = AtomicCounter.mk count (Some (count + Z.of_nat (length arrivals))) false ->
  length (states_ n) = length (kernels_ n) ->
  consumed_arrivals n arrivals = Ok (ix, ss) ->
  finish_columns (kernels_ n) ss = Ok columns ->
  ∃ n', run (uncurry EvInputReceived <$> arrivals) n = (Ok tt, n') ∧
    calls n' = calls n ++ [Output_InputReceived (ExecBatch.mk columns 1)] ∧
    finished_ n' = true.
Proof.
  induction arrivals as [|[thread_id batch] rest IH];
    intros n count ix ss columns Hne Hic Hlen; [done|].
  cbn [consumed_arrivals fmap list_fmap run forM_ step uncurry fst snd].
  destruct (ThreadIndexer.index _ _) as [slot ix1] eqn:Hix.
  destruct (consumed_states n slot [batch]) as [ss1| |] eqn:Hss1; simpl; [|done..].
  intros Hrest Hcols. destruct rest as [|a rest].
  - simpl in Hrest. injection Hrest as <- <-. simpl in Hic.
    destruct (InputReceived_last thread_id batch n count slot ix1 ss1 columns)
      as (n' & H1 & Hc & Hf); [done..|].
    exists n'. by rewrite (bind_Ok _ _ _ _ _ H1).
  - set (n1 := set_input_counter_
                 (AtomicCounter.mk (count + 1)
                    (Some (count + Z.of_nat (length ((thread_id, batch) :: a :: rest))))
                    false)
                 (set_states_ ss1 (set_get_thread_index_ ix1 n))).
    assert (InputReceived thread_id batch n = (Ok tt, n1)) as H1.
    { apply (InputReceived_counted _ _ _ _ _ slot); [done| |done..].
      intros [= E]. simpl in E. lia. }
    rewrite (bind_Ok _ _ _ _ _ H1).
    destruct (IH n1 (count + 1) ix ss columns) as (n' & Hrun & Hc & Hf).
    + done.
    + subst n1. simpl. do 2 f_equal. lia.
    + subst n1. simpl. by apply consumed_states_length in Hss1.
    + rewrite <- Hrest. by apply consumed_arrivals_ext.
    + done.
    + exists n'. split_and!; done.
Qed.

(** The batches arrive and the input declares their number, before,
    between or after them. *)
Lemma run_declared (before after : list (nat * ExecBatch.t)) n ix ss columns :
  input_counter_ n = AtomicCounter.init ->
  length (states_ n) = length (kernels_ n) ->
  consumed_arrivals n (before ++ after) = Ok (ix, ss) ->
  finish_columns (kernels_ n) ss = Ok columns ->
  ∃ n', run ((uncurry EvInputReceived <$> before)
             ++ EvInputFinished (Z.of_nat (length before + length after))
             :: (uncurry EvInputReceived <$> after)) n = (Ok tt, n') ∧
    calls n' = calls n ++ [Output_InputReceived (ExecBatch.mk columns 1)] ∧
    finished_ n' = true.
Proof.
  intros Hic Hlen Hss Hcols.
  apply consumed_arrivals_app in Hss as (ix1 & ss1 & Hss1 & Hss2).
  pose proof (run_arrivals_counted before n 0 None ix1 ss1 Hic ltac:(done) Hlen Hss1)
    as Hrun1.
  rewrite (run_app_Ok _ _ _ _ Hrun1). cbn [run forM_ step].
  set (n1 := set_input_counter_ _ _) in *.
  assert (length (states_ n1) = length (kernels_ n1)) as Hlen1.
  { subst n1. simpl. clear -Hss1 Hlen. revert n ix1 ss1 Hlen Hss1.
    induction before as [|[t b] rest IH]; intros n ix1 ss1 Hlen; simpl.
    - by intros [= <- <-].
    - destruct (ThreadIndexer.index _ _) as [slot ix].
      destruct (consumed_states n slot [b]) as [ss| |] eqn:E; simpl; [|done..].
      intros H. apply IH in H; [done|]. simpl. by apply consumed_states_length in E. }
  destruct after as [|a after].
  - (* the total completes the input *)
    simpl in Hss2. injection Hss2 as <- <-.
    set (n2 := set_input_counter_
                 (AtomicCounter.mk (0 + Z.of_nat (length before))
                    (Some (Z.of_nat (length before + 0))) true) n1).
    destruct (Finish_columns n2 columns) as (n' & HF & Hfin & Hcalls);
      [done|done|].
    exists n'. split_and!; [|done..].
    assert (InputFinished (Z.of_nat (length before + 0)) n1 = (Ok tt, n')) as HIF.
    { unfold InputFinished. unfold mbind at 1, M_bind at 1, input_counter_SetTotal at 1.
      subst n1. cbn [input_counter_ set_input_counter_].
      unfold AtomicCounter.SetTotal, AtomicCounter.DoneOnce.
      cbn [AtomicCounter.count_ AtomicCounter.total_ AtomicCounter.complete_].
      rewrite decide_True by lia. cbn [negb].
      unfold mbind, M_bind, ErrorIfNotOk. fold n2 in HF |- *.
      by rewrite HF. }
    by rewrite (bind_Ok _ _ _ _ _ HIF).
  - (* the last batch does *)
    set (total := Z.of_nat (length before + length (a :: after))).
    set (n2 := set_input_counter_
                 (AtomicCounter.mk (0 + Z.of_nat (length before)) (Some total) false) n1).
    assert (InputFinished total n1 = (Ok tt, n2)) as HIF.
    { unfold InputFinished. unfold mbind at 1, M_bind at 1, input_counter_SetTotal at 1.
      subst n1. cbn [input_counter_ set_input_counter_].
      unfold AtomicCounter.SetTotal, AtomicCounter.DoneOnce.
      cbn [AtomicCounter.count_ AtomicCounter.total_ AtomicCounter.complete_].
      rewrite decide_False by (subst total; simpl; lia). done. }
    rewrite (bind_Ok _ _ _ _ _ HIF).
    destruct (run_arrivals_last (a :: after) n2 (Z.of_nat (length before)) ix ss columns)
      as (n' & Hrun & Hc & Hf).
    + done.
    + subst n2 total. simpl. do 2 f_equal. lia.
    + done.
    + rewrite <- Hss2. by apply consumed_arrivals_ext.
    + done.
    + exists n'. split_and!; [done| |done]. by rewrite Hc.
Qed.
End ScalarAggregateNode_result.

Section ScalarAggregateNode_columns.
Context {KS Options : Type}.
Import ScalarAggregateNode.
Implicit Types (n : ScalarAggregateNode.t KS Options).

(** The kernel and the states that the loop of [Make] builds for an
    aggregate. *)
Lemma make_aggregate_kernel (p : ExecPlan KS Options) input_schema agg m :
  make_aggregate p input_schema agg = Ok m ->
  ∃ f fld o,
    GetFunction p (function agg) = Ok f ∧
    input_schema !! made_target_field_id m = Some fld ∧
    field_name fld = target agg ∧
    DispatchExact f [field_type fld] = Ok (made_kernel m) ∧
    (∀ o', options agg = Some o' -> o = o') ∧
    (options agg = None -> default_options f = Some o) ∧
    InitAll (made_kernel m) o (field_type fld) (thread_capacity (exec_context p))
    = Ok (made_states m).
Proof.
  unfold make_aggregate. intros H.
  destruct (FindOne _ _) as [path| |] eqn:EF; simpl in H; [|done..].
  apply FindOne_spec in EF as (i & fld & -> & Hi & Hname & _). simpl in H.
  destruct (GetFunction _ _) as [f| |] eqn:Ef; simpl in H; [|done..].
  destruct (decide _); [done|].
  rewrite Hi in H. simpl in H.
  destruct (DispatchExact _ _) as [kernel| |] eqn:Ek; simpl in H; [|done..].
  destruct (match options agg with Some o => _ | None => _ end) as [o| |] eqn:Eo;
    simpl in H; [|done..].
  destruct (InitAll _ _ _ _) as [states| |] eqn:Einit; simpl in H; [|done..].
  destruct (deref (states !! _)); simpl in H; [|done..].
  destruct (out_type _ _ _); simpl in H; [|done..].
  simplify_eq. simpl. exists f, fld, o. split_and!; try done.
  - intros o' Ho'. rewrite Ho' in Eo. by injection Eo.
  - intros Ho. rewrite Ho in Eo. by destruct (default_options f); simplify_eq/=.
Qed.

(** The i-th column is the finalized scalar of the i-th kernel over its
    merged states. *)
Lemma finish_columns_lookup (kernels : list (ScalarAggregateKernel KS Options))
    (ss : list (list KS)) columns i column :
  finish_columns kernels ss = Ok columns ->
  columns !! i = Some column ->
  ∃ kernel states merged,
    kernels !! i = Some kernel ∧ ss !! i = Some states ∧
    MergeAll kernel states = Ok merged ∧ finalize kernel merged = Ok column.
Proof.
  unfold finish_columns. intros H Hi. apply result_mapM_Forall2 in H.
  destruct (Forall2_lookup_r _ _ _ _ _ H Hi) as ([kernel states] & Hz & Hc).
  apply lookup_zip_with_Some in Hz as (? & ? & [= <- <-] & Hk & Hs).
  unfold finish_column in Hc. simpl in Hc.
  destruct (MergeAll kernel states) as [merged| |] eqn:Em; simpl in Hc; [|done..].
  by exists kernel, states, merged.
Qed.

(** C8, amended: a constructed ScalarAggregateNode holds for its i-th
    aggregate the kernel that the aggregate's function dispatches for
    the type of its target field, and one state per thread slot that
    [InitAll] has initialized with the aggregate's options (the
    function's default options when it has none).  When the input
    delivers its batches and declares their number, before, between or
    after them, and every kernel consumes the target column of every
    batch into the state of the slot of the arriving thread, and merge
    and finalize succeed, the node emits exactly one batch: it has
    length 1 and its i-th column is the finalized scalar of the i-th
    kernel over its merged per-thread states, and the node is finished.
    With no batch these are the states initialized at construction.
    Also, in every run in which the input delivers its batches and
    declares their number and no failure is forwarded, the node emits
    exactly one batch, of length 1 and with one column per aggregate; in
    every run whatsoever it emits at most one batch, of length 1; and
    [Finish] emits the batch of the finalized scalars in any state. *)
Theorem scalar_aggregate_single_batch (p : ExecPlan KS Options) inputs opts node :
  Make p inputs opts = Ok node ->
  (∃ input_schema,
     inputs = [input_schema] ∧
     length (kernels_ node) = length (aggregates opts) ∧
     ∀ i agg, aggregates opts !! i = Some agg ->
       ∃ f fld id kernel o states,
         GetFunction p (function agg) = Ok f ∧
         target_field_ids_ node !! i = Some id ∧
         input_schema !! id = Some fld ∧ field_name fld = target agg ∧
         DispatchExact f [field_type fld] = Ok kernel ∧
         kernels_ node !! i = Some kernel ∧
         (∀ o', options agg = Some o' -> o = o') ∧
         (options agg = None -> default_options f = Some o) ∧
         InitAll kernel o (field_type fld) (thread_capacity (exec_context p))
         = Ok states ∧
         states_ node !! i = Some states) ∧
  (∀ (before after : list (nat * ExecBatch.t)) ix ss columns,
     consumed_arrivals node (before ++ after) = Ok (ix, ss) ->
     finish_columns (kernels_ node) ss = Ok columns ->
     (∃ n',
        (StartProducing ;;
         run ((uncurry EvInputReceived <$> before)
              ++ EvInputFinished (Z.of_nat (length before + length after))
              :: (uncurry EvInputReceived <$> after))) node = (Ok tt, n') ∧
        calls n' = [Output_InputFinished 1;
                    Output_InputReceived (ExecBatch.mk columns 1)] ∧
        finished_ n' = true) ∧
     ∀ i column, columns !! i = Some column ->
       ∃ kernel states merged,
         kernels_ node !! i = Some kernel ∧ ss !! i = Some states ∧
         MergeAll kernel states = Ok merged ∧ finalize kernel merged = Ok column) ∧
  Forall2 (initialized (thread_capacity (exec_context p)))
          (kernels_ node) (states_ node) ∧
  (∀ columns,
     finish_columns (kernels_ node) (states_ node) = Ok columns ->
     ∃ n', (StartProducing ;; run [EvInputFinished 0]) node = (Ok tt, n') ∧
       calls n' = [Output_InputFinished 1;
                   Output_InputReceived (ExecBatch.mk columns 1)] ∧
       finished_ n' = true) ∧
  (∀ (before after : list (nat * ExecBatch.t)) n',
     (StartProducing ;;
      run ((uncurry EvInputReceived <$> before)
           ++ EvInputFinished (Z.of_nat (length before + length after))
           :: (uncurry EvInputReceived <$> after))) node = (Ok tt, n') ->
     no_error (calls n') = true ->
     finished_ n' = true ∧
     ∃ columns, length columns = length (kernels_ node) ∧
       calls n' = [Output_InputFinished 1;
                   Output_InputReceived (ExecBatch.mk columns 1)]) ∧
  (∀ events r n',
     (StartProducing ;; run events) node = (r, n') ->
     one_row_batches (delivered (calls n'))) ∧
  (∀ n columns,
     length (states_ n) = length (kernels_ n) ->
     finish_columns (kernels_ n) (states_ n) = Ok columns ->
     ∃ n', Finish n = (Ok tt, n') ∧ finished_ n' = true ∧
       calls n' = calls n ++ [Output_InputReceived (ExecBatch.mk columns 1)]).
Proof.
  intros HMake. destruct (Make_Ok _ _ _ _ HMake) as (Hic & Hcalls & Hinit).
  set (n0 := set_calls (calls node ++ [Output_InputFinished 1]) (set_finished_ false node)).
  assert (StartProducing node = (Ok tt, n0)) as Hstart by done.
  assert (∀ (before after : list (nat * ExecBatch.t)) ix ss columns,
     consumed_arrivals node (before ++ after) = Ok (ix, ss) ->
     finish_columns (kernels_ node) ss = Ok columns ->
     ∃ n',
        (StartProducing ;;
         run ((uncurry EvInputReceived <$> before)
              ++ EvInputFinished (Z.of_nat (length before + length after))
              :: (uncurry EvInputReceived <$> after))) node = (Ok tt, n') ∧
        calls n' = [Output_InputFinished 1;
                    Output_InputReceived (ExecBatch.mk columns 1)] ∧
        finished_ n' = true) as Hdeclared.
  { intros before after ix ss columns Hss Hcols.
    destruct (run_declared before after n0 ix ss columns) as (n' & Hrun & Hc & Hf).
    - done.
    - subst n0. simpl. symmetry. by eapply Forall2_length.
    - rewrite <- Hss. by apply consumed_arrivals_ext.
    - done.
    - exists n'. rewrite (bind_Ok _ _ _ _ _ Hstart). split_and!; [done| |done].
      rewrite Hc. subst n0. simpl. by rewrite Hcalls. }
  split_and!; [| |done| | | |].
  2: { intros before after ix ss columns Hss Hcols. split; [by eapply Hdeclared|].
       intros i column Hi. by eapply finish_columns_lookup. }
  - unfold Make in HMake.
    destruct (ValidateExecNodeInputs _ _ _) eqn:EV; simpl in HMake; [|done..].
    unfold ValidateExecNodeInputs in EV. destruct (decide _) as [Hlen|]; [|done].
    destruct inputs as [|input_schema [|]]; try done. simpl in HMake.
    destruct (result_mapM _ _) as [made| |] eqn:Hmade; simpl in HMake; [|done..].
    injection HMake as <-. simpl. exists input_schema. split; [done|].
    pose proof (result_mapM_length _ _ _ Hmade) as Hl.
    split; [by rewrite length_fmap|].
    intros i agg Hi.
    destruct (result_mapM_lookup _ _ _ _ _ Hmade Hi) as (m & Hm & Hmk).
    destruct (make_aggregate_kernel _ _ _ _ Hmk)
      as (f & fld & o & Hf & Hfld & Hname & Hk & Ho & Hd & Hinit').
    exists f, fld, (made_target_field_id m), (made_kernel m), o, (made_states m).
    rewrite !list_lookup_fmap, Hm. by split_and!.
  - intros columns Hcols.
    destruct (Hdeclared [] [] (get_thread_index_ node) (states_ node) columns)
      as (n' & Hrun & Hc & Hf); [done..|].
    by exists n'.
  - intros before after n'. rewrite (bind_Ok _ _ _ _ _ Hstart). intros Hrun Hne.
    apply run_complete in Hrun as (Hfin & columns & Hlen & Hc); [|done..].
    split; [done|]. exists columns. split; [done|].
    rewrite Hc. subst n0. simpl. by rewrite Hcalls.
  - intros events r n'. rewrite (bind_Ok _ _ _ _ _ Hstart). intros Hrun.
    eapply run_at_most_once; [done|]. subst n0. unfold at_most_once. simpl.
    rewrite Hcalls. simpl. split; [done|]. split; [simpl; lia|constructor].
  - apply Finish_columns.
Qed.
End ScalarAggregateNode_columns.


(** ** The description of a GroupByNode *)

Lemma append_empty_r (x : string) : x +:+ "" = x.
Proof.
  induction x as [|ch x IH]; [done|].
  change (String ch (x +:+ "") = String ch x). by f_equal.
Qed.

Lemma concat_cons (x : string) (l : list string) :
  String.concat "" (x :: l) = x +:+ String.concat "" l.
Proof. destruct l as [|y l]; simpl; [|done]. by rewrite append_empty_r. Qed.

Lemma append_assoc' (a b c : string) : (a +:+ b) +:+ c = a +:+ (b +:+ c).
Proof.
  induction a as [|ch a IH]; [done|].
  change (String ch ((a +:+ b) +:+ c) = String ch (a +:+ (b +:+ c))). by f_equal.
Qed.

(** Writing the separator before every element but the first. *)
Lemma concat_separated (sep : string) (l : list string) :
  String.concat ""
    (imap (fun i x => (if decide (0 < i)%nat then sep else "") +:+ x) l)
  = String.concat sep l.
Proof.
  destruct l as [|x l]; [done|]. cbn [imap]. rewrite concat_cons.
  rewrite decide_False by lia. change ("" +:+ x) with x.
  assert (imap ((fun i x => (if decide (0 < i)%nat then sep else "") +:+ x) ∘ S) l
          = (fun y => sep +:+ y) <$> l) as ->.
  { rewrite <- (imap_const (fun y => sep +:+ y)). apply imap_ext. intros i y _. unfold compose.
    destruct (decide (0 < S i)%nat); [done|lia]. }
  revert x. induction l as [|y l IH]; intros x.
  - simpl. by rewrite append_empty_r.
  - rewrite fmap_cons, concat_cons.
    change (String.concat sep (x :: y :: l))
      with (x +:+ sep +:+ String.concat sep (y :: l)).
    rewrite <- (IH y). by rewrite append_assoc'.
Qed.

Section GroupByNode_description.
Context {KS Options : Type}.
Import ScalarAggregateNode.
Variable GetKernels :
  ExecContext -> list (Aggregate Options) -> list DataType
  -> Result (list (HashAggregateKernel KS)).
Variable ResolveKernels :
  list (Aggregate Options) -> list (HashAggregateKernel KS) -> list KS
  -> ExecContext -> list DataType -> Result (list Field).
Variable ToString : Options -> string.

(** X17: the description of a constructed GroupByNode is defined: it lists
    the keys, quoted and separated by commas, and then the aggregates in
    order, each on an indented line as its function applied to the name of
    its target and, where it has some, its options. *)
Theorem GroupByNode_ToStringExtra_of_made (ctx : ExecContext) (inputs : list Schema)
    (opts : AggregateNodeOptions Options) made (indent : Z) :
  GroupByNode_Make GetKernels ResolveKernels ctx inputs opts = Ok made ->
  ∃ lines,
    GroupByNode_ToStringExtra ToString (made_aggs made) (made_node made) indent
    = Ok ("keys=["
          +:+ String.concat ", " ((fun key => quote +:+ key +:+ quote) <$> keys opts)
          +:+ "], aggregates=[" +:+ endl +:+ String.concat "" lines
          +:+ indentation indent +:+ "]") ∧
    Forall2 (fun agg line =>
               line = indentation indent +:+ tab +:+ function agg +:+ "("
                      +:+ target agg
                      +:+ match options agg with
                          | Some o => ", " +:+ ToString o
                          | None => ""
                          end
                      +:+ ")," +:+ endl)
            (aggregates opts) lines.
Proof.
  intros HMake.
  destruct (GroupByNode_Make_Ok _ _ _ _ _ _ HMake)
    as (input_schema & key_field_ids & agg_src_field_ids & agg_kernels &
        _ & Hnode & Haggs & HK & HA & _).
  rewrite Hnode, Haggs. unfold GroupByNode_ToStringExtra.
  cbn [GroupByNode.input_schema GroupByNode.key_field_ids_ GroupByNode.agg_src_field_ids_
       GroupByNode.construct].
  (* the keys *)
  assert (result_mapM (key_name input_schema key_field_ids) (seq 0 (length key_field_ids))
          = Ok (imap (fun i x => (if decide (0 < i)%nat then ", " else "") +:+ x)
                  ((fun key => quote +:+ key +:+ quote) <$> keys opts))) as ->.
  { apply result_mapM_Ok. apply Forall2_same_length_lookup. split.
    - rewrite length_seq, length_imap, length_fmap. symmetry. by eapply Forall2_length.
    - intros i j name [-> Hi]%lookup_seq Hname. simpl in *.
      destruct (lookup_lt_is_Some_2 key_field_ids i Hi) as [id Hid].
      destruct (Forall2_lookup_r _ _ _ _ _ HK Hid) as (key & Hkey & f & Hf & Hn).
      rewrite list_lookup_imap, list_lookup_fmap, Hkey in Hname. simpl in Hname.
      injection Hname as <-. unfold key_name. rewrite Hid. simpl. rewrite Hf. simpl.
      by rewrite Hn. }
  cbn [result_bind]. rewrite concat_separated.
  (* the aggregates *)
  assert (∃ lines,
            result_mapM (aggregate_line ToString input_schema (aggregates opts)
                           agg_src_field_ids indent) (seq 0 (length (aggregates opts)))
            = Ok lines ∧
            Forall2 (fun agg line =>
               line = indentation indent +:+ tab +:+ function agg +:+ "("
                      +:+ target agg
                      +:+ match options agg with
                          | Some o => ", " +:+ ToString o
                          | None => ""
                          end
                      +:+ ")," +:+ endl)
              (aggregates opts) lines) as (lines & Hlines & HF).
  { eexists. split.
    - apply result_mapM_Ok. apply Forall2_same_length_lookup. split.
      + rewrite length_seq. symmetry. apply length_fmap.
      + intros i j line [-> Hi]%lookup_seq Hline. simpl in *.
        destruct (lookup_lt_is_Some_2 (aggregates opts) i Hi) as [agg Hagg].
        destruct (Forall2_lookup_l _ _ _ _ _ HA Hagg) as (id & Hid & f & Hf & Hn).
        rewrite list_lookup_fmap, Hagg in Hline. simpl in Hline. injection Hline as <-.
        unfold aggregate_line. rewrite Hagg, Hid. simpl. rewrite Hf. simpl.
        by rewrite Hn.
    - apply Forall2_fmap_r, Forall_Forall2_diag, Forall_forall. done. }
  exists lines. split; [|done].
  unfold AggregatesToString. rewrite Hlines. reflexivity.
Qed.
End GroupByNode_description.

(** ** The further theorems at concrete inputs *)

Lemma AssertEquivalentIds_spec_witness :
  ∃ passed, TestGrouper.AssertEquivalentIds [0; 1; 0; 2] [5; 3; 5; 0] = Ok passed ∧
            (passed = true ↔ equivalent_ids [0; 1; 0; 2] [5; 3; 5; 0]).
Proof.
  apply AssertEquivalentIds_spec; repeat (constructor; [lia|]); constructor.
Defined.

Lemma serial_output_is_result_witness :
  ∃ n2 batches,
    GroupByNode.OutputResult
      (S1.execute (S1.context 2 false) (S1.arrivals (replicate 6 0%nat) S1.batches)).2
    = (Ok tt, n2) ∧
    GroupByNode.calls n2
    = Output_InputFinished (Z.of_nat (length batches))
      :: (Output_InputReceived <$> batches) ∧
    concat (ExecBatch.rows <$> batches) = ExecBatch.rows S1.result ∧
    GroupByNode.finished_ n2 = true.
Proof.
  eapply (serial_output_is_result
            (S1.execute (S1.context 2 false)
               (S1.arrivals (replicate 6 0%nat) S1.batches)).2 S1.result);
    [vm_compute; reflexivity..].
Defined.

Lemma pool_output_is_result_witness :
  ∃ n2 total,
    GroupByNode.OutputResult
      (S1.execute (S1.context 2 true) (S1.arrivals (replicate 6 0%nat) S1.batches)).2
    = (Ok tt, n2) ∧
    GroupByNode.calls n2 = [Output_InputFinished (Z.of_nat total)] ∧
    length (GroupByNode.spawned n2) = total ∧
    ∀ ks, ∃ n3 batches,
      GroupByNode.run (GroupByNode.EvRunTask <$> ks) n2 = (Ok tt, n3) ∧
      GroupByNode.calls n3 = GroupByNode.calls n2 ++ (Output_InputReceived <$> batches) ∧
      (length batches + length (GroupByNode.spawned n3) = total)%nat ∧
      (GroupByNode.spawned n3 = [] ->
       GroupByNode.finished_ n3 = true ∧
       concat (ExecBatch.rows <$> batches) ≡ₚ ExecBatch.rows S1.result).
Proof.
  eapply (pool_output_is_result
            (S1.execute (S1.context 2 true)
               (S1.arrivals (replicate 6 0%nat) S1.batches)).2 S1.result);
    [vm_compute; reflexivity..].
Defined.

Lemma one_total_then_batches_witness :
  let n' := (S1.execute (S1.context 2 true)
               (S1.events (replicate 6 0%nat) S1.batches [1; 0]%nat)).2 in
  output_data (GroupByNode.calls n') = [] ∨
  ∃ total batches,
    output_data (GroupByNode.calls n') = inl total :: (inr <$> batches) ∧
    (length batches + length (GroupByNode.spawned n') ≤ Z.to_nat total)%nat.
Proof.
  apply (one_total_then_batches
           (GroupByNode.StartProducing (S1.node (S1.context 2 true))).2
           (S1.events (replicate 6 0%nat) S1.batches [1; 0]%nat)
           (S1.execute (S1.context 2 true)
              (S1.events (replicate 6 0%nat) S1.batches [1; 0]%nat)).1);
    vm_compute; reflexivity.
Defined.

Lemma StopProducing_stops_witness :
  ∃ n2 n3,
    GroupByNode.StopProducing
      (S1.execute (S1.context 2 true)
         (S1.arrivals [0; 1; 0]%nat (take 3 S1.batches))).2 = (Ok tt, n2) ∧
    GroupByNode.finished_ n2 = true ∧
    GroupByNode.calls n2 = [Input_StopProducing] ∧
    GroupByNode.run
      [GroupByNode.EvInputReceived 1 (ExecBatch.mk [] 0);
       GroupByNode.EvInputFinished 4; GroupByNode.EvRunTask 0] n2 = (Ok tt, n3) ∧
    GroupByNode.calls n3 = GroupByNode.calls n2.
Proof.
  apply (StopProducing_stops
           (GroupByNode.StartProducing (S1.node (S1.context 2 true))).2
           (S1.arrivals [0; 1; 0]%nat (take 3 S1.batches)) _
           (S1.execute (S1.context 2 true)
              (S1.arrivals [0; 1; 0]%nat (take 3 S1.batches))).1);
    [vm_compute; reflexivity..|repeat (constructor; [exact I|]); constructor].
Defined.

Lemma StopProducing_silences_witness :
  ∃ node,
    ScalarAggregateNode.Make ScalarCount.plan [S1.schema] Samples.counted = Ok node ∧
    delivered
      (ScalarAggregateNode.calls
         (ScalarAggregateNode.run
            (ScalarAggregateNode.EvStopProducing
             :: (ScalarAggregateNode.EvInputReceived 0 <$> S1.batches)
             ++ [ScalarAggregateNode.EvInputFinished 6]) node).2)
    = delivered (ScalarAggregateNode.calls node).
Proof.
  destruct (ScalarAggregateNode.Make ScalarCount.plan [S1.schema] Samples.counted)
    as [node| |] eqn:H; [|by vm_compute in H..].
  exists node. split; [done|].
  eapply StopProducing_silences. apply surjective_pairing.
Defined.

Lemma failed_Finish_is_final_witness :
  ∃ node,
    ScalarAggregateNode.Make Samples.failing_plan [S1.schema] Samples.counted = Ok node ∧
    let n' := (ScalarAggregateNode.run
                 [ScalarAggregateNode.EvInputFinished 0;
                  ScalarAggregateNode.EvInputReceived 0 (ExecBatch.mk [ArrayDatum []] 0)]
                 node).2 in
    (∃ new, ScalarAggregateNode.calls n'
            = ScalarAggregateNode.calls node
              ++ Output_ErrorReceived (mkStatus Invalid "count does not fit") :: new) ∧
    delivered (ScalarAggregateNode.calls n') = delivered (ScalarAggregateNode.calls node) ∧
    ScalarAggregateNode.finished_ n' = false.
Proof.
  destruct (ScalarAggregateNode.Make Samples.failing_plan [S1.schema] Samples.counted)
    as [node| |] eqn:H; [|by vm_compute in H..].
  exists node. split; [done|].
  vm_compute in H. injection H as <-.
  eapply (failed_Finish_is_final _ 0);
    [vm_compute; reflexivity..|apply surjective_pairing].
Defined.

Lemma Make_structure_witness :
  ∃ node,
    ScalarAggregateNode.Make ScalarCount.plan [S1.schema] Samples.counted = Ok node ∧
    length (ScalarAggregateNode.kernels_ node) = 1%nat ∧
    length (ScalarAggregateNode.states_ node) = 1%nat.
Proof.
  destruct (ScalarAggregateNode.Make ScalarCount.plan [S1.schema] Samples.counted)
    as [node| |] eqn:H; [|by vm_compute in H..].
  exists node. split; [done|].
  destruct (Make_structure _ _ _ _ H) as (s & _ & _ & _ & Hk & Hs & _).
  by split.
Defined.

Lemma InputReceived_thread_out_of_range_witness :
  let n := (S1.execute (S1.context 2 false)
              (S1.arrivals [0; 1; 2; 3]%nat (take 4 S1.batches))).2 in
  ∃ ix,
    GroupByNode.InputReceived 4 (ExecBatch.mk [] 0) n
    = (Ok tt,
       GroupByNode.set_calls
         (GroupByNode.calls n ++
          [Output_ErrorReceived
             (mkStatus IndexError "thread index 4 is out of range [0, 4)")])
         (GroupByNode.set_get_thread_index_ ix n)).
Proof.
  intros n. eexists.
  apply (InputReceived_thread_out_of_range n 4 (ExecBatch.mk [] 0) 4);
    [vm_compute; reflexivity..|vm_compute; lia].
Defined.

Lemma empty_input_yields_no_batch_witness :
  ∃ n',
    (GroupByNode.StartProducing ;; GroupByNode.run [GroupByNode.EvInputFinished 0])
      (S1.node (S1.context 2 false)) = (Ok tt, n') ∧
    GroupByNode.calls n' = [Output_InputFinished 0] ∧
    GroupByNode.finished_ n' = true ∧
    GroupByNode.out_data_ n' = ExecBatch.mk [ArrayDatum []; ArrayDatum []] 0.
Proof.
  apply (empty_input_yields_no_batch (S1.context 2 false) S1.schema [1%nat] [0%nat]
           [HashCount.kernel ONLY_VALID] [int64] [field "argument" float64]
           [([] : HashCount.state)] [ArrayDatum []]);
    [vm_compute; lia|vm_compute; reflexivity..].
Defined.

Lemma ToStringExtra_of_made_witness :
  ∃ node lines,
    ScalarAggregateNode.Make ScalarCount.plan [S1.schema] Samples.counted = Ok node ∧
    ScalarAggregateNode_ToStringExtra Samples.CountMode_ToString S1.schema node 2
    = Ok ("aggregates=[" +:+ endl +:+ String.concat "" lines +:+ "]") ∧
    Forall2 (fun agg line =>
               ∃ o, line = tab +:+ ScalarAggregateNode.function agg +:+ "("
                           +:+ ScalarAggregateNode.target agg +:+ ", "
                           +:+ Samples.CountMode_ToString o +:+ ")," +:+ endl ∧
                    (∀ o', ScalarAggregateNode.options agg = Some o' -> o' = o))
            (ScalarAggregateNode.aggregates Samples.counted) lines.
Proof.
  destruct (ScalarAggregateNode.Make ScalarCount.plan [S1.schema] Samples.counted)
    as [node| |] eqn:H; [|by vm_compute in H..].
  destruct (ToStringExtra_of_made Samples.CountMode_ToString _ _ _ _ 2 H)
    as (lines & Hs & Hl).
  by exists node, lines.
Defined.

Lemma GroupByNode_Make_schema_witness :
  ∃ made,
    GroupByNode_Make Samples.GetKernels Samples.ResolveKernels (S1.context 2 false)
      [S1.schema] (Samples.grouped ["key"]) = Ok made ∧
    made_node made = S1.node (S1.context 2 false) ∧
    field_name <$> made_output_schema made = ["n"; "key"].
Proof.
  destruct (GroupByNode_Make Samples.GetKernels Samples.ResolveKernels
              (S1.context 2 false) [S1.schema] (Samples.grouped ["key"]))
    as [made| |] eqn:H; [|by vm_compute in H..].
  exists made. split; [done|].
  destruct (GroupByNode_Make_schema _ _ _ _ _ _ H)
    as (s & ks & ids & kernels & _ & _ & _ & _ & _ & Hnames & _).
  split; [|exact Hnames].
  vm_compute in H. by injection H as <-.
Defined.

Lemma GroupByNode_Make_unresolved_key_witness :
  GroupByNode_Make Samples.GetKernels Samples.ResolveKernels (S1.context 2 false)
    [S1.schema] (Samples.grouped ["key"; "nokey"])
  = Raise (mkStatus Invalid "No match for FieldRef nokey").
Proof.
  apply (GroupByNode_Make_unresolved_key _ _ _ _ _ ["key"] "nokey" []);
    [reflexivity|by constructor|reflexivity].
Defined.

Lemma factory_output_names_witness :
  ∃ node,
    AggregateNodeFactory Samples.GetKernels Samples.ResolveKernels ScalarCount.plan
      [S1.schema] (Samples.grouped ["key"]) = Ok node ∧
    ¬ (∃ n, node = inl n) ∧
    field_name <$> factory_output_schema node = ["n"; "key"].
Proof.
  destruct (AggregateNodeFactory Samples.GetKernels Samples.ResolveKernels
              ScalarCount.plan [S1.schema] (Samples.grouped ["key"]))
    as [node| |] eqn:H; [|by vm_compute in H..].
  exists node. split; [done|].
  destruct (factory_output_names _ _ _ _ _ _ H) as [Hkind Hnames].
  split; [|exact Hnames].
  intros Hn. by apply Hkind in Hn.
Defined.

Lemma single_thread_result_witness :
  ∃ node n',
    ScalarAggregateNode.Make ScalarCount.plan [S1.schema] Samples.counted = Ok node ∧
    ScalarAggregateNode.run
      ((ScalarAggregateNode.EvInputReceived 7 <$> S1.batches)
       ++ [ScalarAggregateNode.EvInputFinished (Z.of_nat (length S1.batches))]) node
    = (Ok tt, n') ∧
    ScalarAggregateNode.calls n'
    = [Output_InputReceived (ExecBatch.mk [ScalarDatum (Some (Int64 7))] 1)] ∧
    ScalarAggregateNode.finished_ n' = true.
Proof.
  destruct (ScalarAggregateNode.Make ScalarCount.plan [S1.schema] Samples.counted)
    as [node| |] eqn:H; [|by vm_compute in H..].
  exists node. pose proof H as H'. vm_compute in H'. injection H' as <-.
  match goal with
  | |- context [ScalarAggregateNode.run _ ?n] =>
      destruct (single_thread_result n 7%nat S1.batches
                  [[(7, 3); (0, 0); (0, 0); (0, 0)]] [ScalarDatum (Some (Int64 7))])
        as (n' & Hrun & Hcalls & Hfin); [vm_compute; reflexivity..|]
  end.
  exists n'. split; [exact H|]. split; [exact Hrun|]. split; [exact Hcalls|exact Hfin].
Defined.


Lemma GroupByNode_ToStringExtra_of_made_witness :
  ∃ made,
    GroupByNode_Make Samples.GetKernels Samples.ResolveKernels (S1.context 2 false)
      [S1.schema] (Samples.grouped ["key"; "argument"]) = Ok made ∧
    GroupByNode_ToStringExtra Samples.CountMode_ToString (made_aggs made)
      (made_node made) 1
    = Ok ("keys=[" +:+ quote +:+ "key" +:+ quote +:+ ", " +:+ quote +:+ "argument"
          +:+ quote +:+ "], aggregates=[" +:+ endl
          +:+ "  " +:+ tab +:+ "hash_count(argument, {mode=NON_NULL})," +:+ endl
          +:+ "  ]").
Proof.
  destruct (GroupByNode_Make Samples.GetKernels Samples.ResolveKernels
              (S1.context 2 false) [S1.schema] (Samples.grouped ["key"; "argument"]))
    as [made| |] eqn:H; [|by vm_compute in H..].
  exists made. split; [done|].
  destruct (GroupByNode_ToStringExtra_of_made _ _ Samples.CountMode_ToString _ _ _ _ 1 H)
    as (lines & -> & Hl).
  apply Forall2_cons_inv_l in Hl as (line & rest & -> & Hrest & ->).
  apply Forall2_nil_inv_l in Hrest as ->.
  reflexivity.
Defined.

(** A pool that refuses the second of two tasks: [OutputResult] fails
    with the pool's status, which the node forwards; the first chunk is
    delivered when the pool runs its task, the second never, and the node
    does not finish. *)
Example pool_refuses_second_task :
  GroupByNode.calls
    (S1.execute Samples.closing
       (S1.events [0; 0; 0; 0; 0; 0]%nat S1.batches [0]%nat)).2
  = [Output_InputFinished 2;
     Output_ErrorReceived
       (mkStatus Invalid "operation forbidden during or after shutdown");
     Output_InputReceived (ExecBatch.Slice S1.result (2 * 0) 2)] ∧
  GroupByNode.spawned
    (S1.execute Samples.closing
       (S1.events [0; 0; 0; 0; 0; 0]%nat S1.batches [0]%nat)).2 = [] ∧
  GroupByNode.finished_
    (S1.execute Samples.closing
       (S1.events [0; 0; 0; 0; 0; 0]%nat S1.batches [0]%nat)).2 = false.
Proof. split_and!; vm_compute; reflexivity. Qed.

(** C8, the claim as stated: a node that is stopped before its input is
    declared final emits no batch, and neither does a node whose kernel
    fails to finalize: it forwards the failure. *)
Lemma scalar_node_without_batch :
  (∃ node n',
     ScalarAggregateNode.Make ScalarCount.plan [S1.schema] Samples.counted = Ok node ∧
     (ScalarAggregateNode.StartProducing ;;
      ScalarAggregateNode.run
        [ScalarAggregateNode.EvStopProducing; ScalarAggregateNode.EvInputFinished 0])
       node = (Ok tt, n') ∧
     delivered (ScalarAggregateNode.calls n') = []) ∧
  (∃ node n',
     ScalarAggregateNode.Make Samples.failing_plan [S1.schema] Samples.counted = Ok node ∧
     (ScalarAggregateNode.StartProducing ;;
      ScalarAggregateNode.run [ScalarAggregateNode.EvInputFinished 0]) node = (Ok tt, n') ∧
     ScalarAggregateNode.calls n'
     = [Output_InputFinished 1;
        Output_ErrorReceived (mkStatus Invalid "count does not fit")] ∧
     delivered (ScalarAggregateNode.calls n') = []).
Proof.
  split.
  - eexists _, _. split; [vm_compute; reflexivity|].
    split; [vm_compute; reflexivity|]. reflexivity.
  - eexists _, _. split; [vm_compute; reflexivity|].
    split; [vm_compute; reflexivity|]. split; reflexivity.
Qed.

Lemma scalar_aggregate_single_batch_witness :
  ∃ node n',
    ScalarAggregateNode.Make ScalarCount.plan [S1.schema] Samples.counted = Ok node ∧
    (ScalarAggregateNode.StartProducing ;;
     ScalarAggregateNode.run
       ((uncurry ScalarAggregateNode.EvInputReceived
           <$> zip [0; 1]%nat (take 2 S1.batches))
        ++ ScalarAggregateNode.EvInputFinished 6
        :: (uncurry ScalarAggregateNode.EvInputReceived
              <$> zip [2; 0; 1; 2]%nat (drop 2 S1.batches)))) node = (Ok tt, n') ∧
    ScalarAggregateNode.calls n'
    = [Output_InputFinished 1;
       Output_InputReceived (ExecBatch.mk [ScalarDatum (Some (Int64 7))] 1)] ∧
    ScalarAggregateNode.finished_ n' = true.
Proof.
  destruct (ScalarAggregateNode.Make ScalarCount.plan [S1.schema] Samples.counted)
    as [node| |] eqn:HMake; [|by vm_compute in HMake..].
  exists node.
  pose proof (proj1 (proj2 (scalar_aggregate_single_batch _ _ _ _ HMake))) as H.
  vm_compute in HMake. injection HMake as <-.
  edestruct (H (zip [0; 1]%nat (take 2 S1.batches))
               (zip [2; 0; 1; 2]%nat (drop 2 S1.batches)))
    as [(n' & Hrun & Hcalls & Hfin) _].
  - vm_compute. reflexivity.
  - vm_compute. reflexivity.
  - exists n'. split; [reflexivity|]. split; [exact Hrun|]. split; [exact Hcalls|exact Hfin].
Defined.
